(** * MaxFlow-AI-Visualizer: the step-wise labeling engine and its editor

    Shallow embedding of [src/services/maxFlowAlgorithm.ts] (with the types
    of [types.ts] and the graph of [constants.ts]), of the handlers of
    [App.tsx] that edit the graph and drive the engine, of the path test
    of [GraphCanvas.tsx] and of the post-processing of
    [services/geminiService.ts], with the properties of the single-step
    state machine and of its callers.

    Modelling conventions.
    - A JavaScript [number] is an integer ([Z]); the only non-finite value
      the engine ever creates, the [Infinity] of the source label, is a
      constructor of the label's flow type.
    - [Set<string>] is [gset string]; arrays are lists, updated by index.
    - A call that dereferences [undefined] raises a [TypeError]: the engine
      is a function into [Outcome], whose [Throws] is that exception and
      whose [Diverges] is a [while] loop that never exits.
    - The state of the component [App] is a record and its handlers are
      functions of it; the clock and the random number a handler reads are
      arguments of the function. *)

From stdpp Require Import base option list gmap strings pretty.
From Stdlib Require Import ZArith Lia.

Local Open Scope string_scope.
Local Open Scope list_scope.
Local Open Scope Z_scope.

(** ** Data model ([types.ts]) *)

Inductive Direction : Type := Plus | Minus.

(** The [flow] of a label: a number, or the [Infinity] of the source. *)
Inductive LabelFlow : Type :=
| Finite (z : Z)
| Infinity.

Record Label : Type := mkLabel {
  prevNodeId : option string;
  direction : Direction;
  label_flow : LabelFlow
}.

Record Node : Type := mkNode {
  node_id : string;
  node_x : Z;
  node_y : Z;
  label : option Label;
  isSource : option bool;
  isSink : option bool
}.

Record Edge : Type := mkEdge {
  edge_id : string;
  source : string;
  target : string;
  capacity : Z;
  flow : Z
}.

Record Graph : Type := mkGraph {
  nodes : list Node;
  edges : list Edge
}.

Inductive AlgorithmPhase : Type := IDLE | LABELING | AUGMENTING | FINISHED.

Record AlgorithmState : Type := mkState {
  phase : AlgorithmPhase;
  queue : list string;
  pathFound : option (list string);
  bottleneck : option Z;
  visited : gset string;
  maxFlow : Z;
  logs : list string
}.

#[global] Instance Direction_eq_dec : EqDecision Direction.
Proof. solve_decision. Defined.
#[global] Instance LabelFlow_eq_dec : EqDecision LabelFlow.
Proof. solve_decision. Defined.
#[global] Instance Label_eq_dec : EqDecision Label.
Proof. solve_decision. Defined.
#[global] Instance Node_eq_dec : EqDecision Node.
Proof. solve_decision. Defined.
#[global] Instance Edge_eq_dec : EqDecision Edge.
Proof. solve_decision. Defined.
#[global] Instance AlgorithmPhase_eq_dec : EqDecision AlgorithmPhase.
Proof. solve_decision. Defined.

(** ** Results of a call *)

Inductive Outcome (A : Type) : Type :=
| Returns (a : A)
| Throws
| Diverges.
Arguments Returns {A} a.
Arguments Throws {A}.
Arguments Diverges {A}.

#[global] Instance Outcome_bind : MBind Outcome := fun A B k o =>
  match o with
  | Returns a => k a
  | Throws => Throws
  | Diverges => Diverges
  end.

(** [Array.prototype.forEach] with a callback that updates the enclosing
    function's local variables, here the threaded state [s]. *)
Fixpoint forEach {A S : Type} (f : A -> S -> Outcome S) (l : list A) (s : S)
  : Outcome S :=
  match l with
  | [] => Returns s
  | a :: l' => s' ← f a s; forEach f l' s'
  end.

(** [Array.prototype.findIndex], returning the element along with its index
    ([None] is the [-1] of JavaScript). *)
Fixpoint findIndex {A : Type} (p : A -> bool) (l : list A) : option (nat * A) :=
  match l with
  | [] => None
  | a :: l' =>
      if p a then Some (0%nat, a)
      else match findIndex p l' with
           | Some (i, b) => Some (S i, b)
           | None => None
           end
  end.

(** Truthiness of an optional boolean property. *)
Definition truthy (b : option bool) : bool :=
  match b with
  | Some true => true
  | _ => false
  end.

(** [Math.min(labelFlow, n)] for a finite [n]. *)
Definition min_flow (lf : LabelFlow) (n : Z) : Z :=
  match lf with
  | Finite a => Z.min a n
  | Infinity => n
  end.

Definition set_label (n : Node) (l : option Label) : Node :=
  {| node_id := node_id n; node_x := node_x n; node_y := node_y n;
     label := l; isSource := isSource n; isSink := isSink n |}.

Definition set_flow (e : Edge) (f : Z) : Edge :=
  {| edge_id := edge_id e; source := source e; target := target e;
     capacity := capacity e; flow := f |}.

(** ** The engine ([maxFlowAlgorithm.ts]) *)

Definition initializeAlgorithm : AlgorithmState :=
  {| phase := IDLE;
     queue := [];
     pathFound := None;
     bottleneck := None;
     visited := ∅;
     maxFlow := 0;
     logs := ["算法初始化完成，准备就绪。"] |}.

Definition clearLabels (ns : list Node) : list Node :=
  map (fun n =>
         set_label n
           (if truthy (isSource n)
            then Some {| prevNodeId := None; direction := Plus;
                         label_flow := Infinity |}
            else None))
      ns.

(** The [while (curr.id !== 's')] loop of [labelNode].  Each iteration reads
    [curr.label!.prevNodeId!], prepends it to [path] and looks the node up;
    a missing label, a [null] predecessor (no node has the id [null], so the
    lookup yields [undefined] and the loop test dereferences it) and an
    unknown predecessor all raise. *)
Fixpoint backtrack (fuel : nat) (ns : list Node) (curr : Node)
    (path : list string) : Outcome (list string) :=
  if String.eqb (node_id curr) "s" then Returns path
  else
    match fuel with
    | O => Diverges
    | S fuel' =>
        match label curr with
        | None => Throws
        | Some l =>
            match prevNodeId l with
            | None => Throws
            | Some prevId =>
                match find (fun n => String.eqb (node_id n) prevId) ns with
                | None => Throws
                | Some c => backtrack fuel' ns c (prevId :: path)
                end
            end
        end
    end.

(** The local variables of the LABELING branch that its closures update. *)
Record Expansion : Type := mkExpansion {
  newQueue : list string;
  newNodes : list Node;
  newVisited : gset string;
  neighborsFound : bool;
  sinkReached : bool;
  newPath : option (list string);
  newBottleneck : option Z
}.

(** The closure [labelNode]; [uId] and [u] are the captured front of the
    queue and the node found for it in the input graph.  The bottleneck
    [pathMinFlow] is read back from the label just written. *)
Definition labelNode (uId : string) (u : option Node)
    (targetId : string) (dir : Direction) (flowAvailable : Z)
    (ex : Expansion) : Outcome Expansion :=
  match findIndex (fun n => String.eqb (node_id n) targetId) (newNodes ex) with
  | Some (targetIndex, tn) =>
      if bool_decide (targetId ∈ newVisited ex) then Returns ex
      else
        match u with
        | None => Throws
        | Some un =>
            match label un with
            | None => Throws
            | Some lu =>
                let m := min_flow (label_flow lu) flowAvailable in
                let tn' :=
                  set_label tn
                    (Some {| prevNodeId := Some uId; direction := dir;
                             label_flow := Finite m |}) in
                let ns' := <[targetIndex := tn']> (newNodes ex) in
                let vis' := {[targetId]} ∪ newVisited ex in
                let q' := newQueue ex ++ [targetId] in
                if truthy (isSink tn') then
                  path ← backtrack (S (length ns')) ns' tn' [targetId];
                  Returns {| newQueue := q'; newNodes := ns';
                             newVisited := vis'; neighborsFound := true;
                             sinkReached := true; newPath := Some path;
                             newBottleneck := Some m |}
                else
                  Returns {| newQueue := q'; newNodes := ns';
                             newVisited := vis'; neighborsFound := true;
                             sinkReached := sinkReached ex;
                             newPath := newPath ex;
                             newBottleneck := newBottleneck ex |}
            end
        end
  | None => Returns ex
  end.

Definition forwardCheck (uId : string) (u : option Node) (e : Edge)
    (ex : Expansion) : Outcome Expansion :=
  if negb (sinkReached ex) && (flow e <? capacity e)
  then labelNode uId u (target e) Plus (capacity e - flow e) ex
  else Returns ex.

Definition backwardCheck (uId : string) (u : option Node) (e : Edge)
    (ex : Expansion) : Outcome Expansion :=
  if negb (sinkReached ex) && (0 <? flow e)
  then labelNode uId u (source e) Minus (flow e) ex
  else Returns ex.

(** One iteration of the AUGMENTING loop, for the pair [(uId, vId)]. *)
Definition augmentPair (bn : Z) (uId vId : string) (es : list Edge)
  : list Edge :=
  match findIndex (fun e => String.eqb (source e) uId
                            && String.eqb (target e) vId) es with
  | Some (forwardIdx, e) => <[forwardIdx := set_flow e (flow e + bn)]> es
  | None =>
      match findIndex (fun e => String.eqb (source e) vId
                                && String.eqb (target e) uId) es with
      | Some (backwardIdx, e) => <[backwardIdx := set_flow e (flow e - bn)]> es
      | None => es
      end
  end.

(** The loop [for (i = 0; i < pathFound.length - 1; i++)]. *)
Fixpoint augmentPath (bn : Z) (path : list string) (es : list Edge)
  : list Edge :=
  match path with
  | uId :: ((vId :: _) as rest) => augmentPath bn rest (augmentPair bn uId vId es)
  | _ => es
  end.

Definition stepAlgorithm (currentGraph : Graph) (currentState : AlgorithmState)
  : Outcome (Graph * AlgorithmState) :=
  match phase currentState with
  | IDLE | FINISHED =>
      let newNodes := clearLabels (nodes currentGraph) in
      match find (fun n => truthy (isSource n)) newNodes with
      | None => Returns (currentGraph, currentState)
      | Some src =>
          Returns
            ({| nodes := newNodes; edges := edges currentGraph |},
             {| phase := LABELING;
                queue := [node_id src];
                pathFound := None;
                bottleneck := None;
                visited := {[node_id src]};
                maxFlow := maxFlow currentState;
                logs := logs currentState
                        ++ ["开始新一轮标号，从源点 (s) 出发。"] |})
      end
  | LABELING =>
      match queue currentState with
      | [] =>
          Returns
            (currentGraph,
             {| phase := FINISHED;
                queue := queue currentState;
                pathFound := pathFound currentState;
                bottleneck := bottleneck currentState;
                visited := visited currentState;
                maxFlow := maxFlow currentState;
                logs := logs currentState
                        ++ ["未找到更多增广路径。算法结束，最大流为 "
                            +:+ pretty (maxFlow currentState) +:+ "。"] |})
      | uId :: rest =>
          let u := find (fun n => String.eqb (node_id n) uId)
                        (nodes currentGraph) in
          let ex0 :=
            {| newQueue := rest; newNodes := nodes currentGraph;
               newVisited := visited currentState; neighborsFound := false;
               sinkReached := false; newPath := None;
               newBottleneck := None |} in
          ex1 ← forEach (forwardCheck uId u)
                   (filter (fun e => source e = uId) (edges currentGraph))
                   ex0;
          ex2 ← forEach (backwardCheck uId u)
                   (filter (fun e => target e = uId) (edges currentGraph))
                   ex1;
          if sinkReached ex2 then
            Returns
              ({| nodes := newNodes ex2; edges := edges currentGraph |},
               {| phase := AUGMENTING;
                  queue := [];
                  pathFound := newPath ex2;
                  bottleneck := newBottleneck ex2;
                  visited := newVisited ex2;
                  maxFlow := maxFlow currentState;
                  logs := logs currentState
                          ++ ["汇点 (t) 已标号！发现增广路径，可增广量 "
                              +:+ from_option pretty "null" (newBottleneck ex2)
                              +:+ "。"] |})
          else
            Returns
              ({| nodes := newNodes ex2; edges := edges currentGraph |},
               {| phase := phase currentState;
                  queue := newQueue ex2;
                  pathFound := pathFound currentState;
                  bottleneck := bottleneck currentState;
                  visited := newVisited ex2;
                  maxFlow := maxFlow currentState;
                  logs := if neighborsFound ex2
                          then logs currentState
                               ++ ["已检查节点 " +:+ uId
                                   +:+ " 并标记了其邻居。"]
                          else logs currentState |})
      end
  | AUGMENTING =>
      match pathFound currentState, bottleneck currentState with
      | Some path, Some bn =>
          Returns
            ({| nodes := nodes currentGraph;
                edges := augmentPath bn path (edges currentGraph) |},
             {| phase := IDLE;
                queue := queue currentState;
                pathFound := None;
                bottleneck := None;
                visited := visited currentState;
                maxFlow := maxFlow currentState + bn;
                logs := logs currentState
                        ++ ["已沿路径增广流量 " +:+ pretty bn
                            +:+ "。当前最大流: "
                            +:+ pretty (maxFlow currentState + bn)
                            +:+ "。清除标号，准备下一轮..."] |})
      | _, _ => Returns (currentGraph, currentState)
      end
  end.

(** [findEdge] of [maxFlowAlgorithm.ts]: the first edge between [u] and [v],
    in either direction. *)
Definition findEdge (es : list Edge) (u v : string) : option Edge :=
  find (fun e => String.eqb (source e) u && String.eqb (target e) v
                 || String.eqb (source e) v && String.eqb (target e) u)
       es.

(** ** The caller ([App.tsx]) *)

(** A driver in the manner of [App.tsx]'s [handleStep]: each call is fed
    the pair the previous one returned. *)
Fixpoint run (n : nat) (g : Graph) (st : AlgorithmState)
  : Outcome (Graph * AlgorithmState) :=
  match n with
  | O => Returns (g, st)
  | S n' => r ← stepAlgorithm g st; run n' (fst r) (snd r)
  end.

(** [setSource] of [App.tsx]: the tool that makes the clicked node the
    source. *)
Definition setSource (i : string) (g : Graph) : Graph :=
  {| nodes :=
       map (fun n =>
              {| node_id := node_id n; node_x := node_x n; node_y := node_y n;
                 label := label n;
                 isSource := Some (String.eqb (node_id n) i);
                 isSink := if String.eqb (node_id n) i then Some false
                           else isSink n |})
           (nodes g);
     edges := edges g |}.

(** The graph update of [setSink]: the tool that makes the clicked node the
    sink. *)
Definition setSink (i : string) (g : Graph) : Graph :=
  {| nodes :=
       map (fun n =>
              {| node_id := node_id n; node_x := node_x n; node_y := node_y n;
                 label := label n;
                 isSource := if String.eqb (node_id n) i then Some false
                             else isSource n;
                 isSink := Some (String.eqb (node_id n) i) |})
           (nodes g);
     edges := edges g |}.

(** ** Graphs and states used as examples *)

(** Nodes and edges as the editor creates them: no label, no flow. *)
Definition plainNode (i : string) (px py : Z) : Node :=
  {| node_id := i; node_x := px; node_y := py; label := None;
     isSource := None; isSink := None |}.

Definition sourceNode (i : string) (px py : Z) : Node :=
  {| node_id := i; node_x := px; node_y := py; label := None;
     isSource := Some true; isSink := None |}.

Definition sinkNode (i : string) (px py : Z) : Node :=
  {| node_id := i; node_x := px; node_y := py; label := None;
     isSource := None; isSink := Some true |}.

Definition emptyEdge (i s t : string) (c : Z) : Edge :=
  {| edge_id := i; source := s; target := t; capacity := c; flow := 0 |}.

(** [INITIAL_GRAPH] of [constants.ts]. *)
Definition INITIAL_GRAPH : Graph :=
  {| nodes := [ sourceNode "s" 100 300; plainNode "v1" 300 150;
                plainNode "v2" 300 450; plainNode "v3" 500 150;
                plainNode "v4" 500 450; sinkNode "t" 700 300 ];
     edges := [ emptyEdge "e1" "s" "v1" 10; emptyEdge "e2" "s" "v2" 10;
                emptyEdge "e3" "v1" "v2" 2; emptyEdge "e4" "v1" "v3" 4;
                emptyEdge "e5" "v1" "v4" 8; emptyEdge "e6" "v2" "v4" 9;
                emptyEdge "e7" "v4" "v3" 6; emptyEdge "e8" "v3" "t" 10;
                emptyEdge "e9" "v4" "t" 10 ] |}.

(** A graph with no source. *)
Definition sourceless : Graph :=
  {| nodes := [plainNode "v1" 0 0; sinkNode "t" 10 0];
     edges := [emptyEdge "e1" "v1" "t" 4] |}.

(** A network with the two opposite edges [v3 -> v2] and [v2 -> v3]. *)
Definition crossGraph : Graph :=
  {| nodes := [ sourceNode "s" 100 300; plainNode "v1" 250 150;
                plainNode "v2" 400 150; plainNode "v3" 400 450;
                plainNode "v4" 550 450; sinkNode "t" 700 300 ];
     edges := [ emptyEdge "e1" "s" "v3" 1; emptyEdge "e2" "v3" "v2" 1;
                emptyEdge "e3" "v2" "t" 1; emptyEdge "e4" "s" "v1" 3;
                emptyEdge "e5" "v1" "v2" 3; emptyEdge "e6" "v2" "v3" 1;
                emptyEdge "e7" "v3" "v4" 3; emptyEdge "e8" "v4" "t" 3 ] |}.

(** A network whose source is [v1] and in which the node [s] lies between
    the source and the sink. *)
Definition tailGraph : Graph :=
  {| nodes := [ plainNode "s" 100 300; sourceNode "v1" 300 300;
                sinkNode "t" 500 300 ];
     edges := [ emptyEdge "e1" "v1" "s" 1; emptyEdge "e2" "s" "t" 5 ] |}.

(** The two-node network with the single edge [s -> t] of capacity 5. *)
Definition directGraph : Graph :=
  {| nodes := [sourceNode "s" 100 300; sinkNode "t" 300 300];
     edges := [emptyEdge "e1" "s" "t" 5] |}.

(** The initial graph after the step that starts the first round. *)
Definition labeledInitial : Graph :=
  {| nodes := clearLabels (nodes INITIAL_GRAPH);
     edges := edges INITIAL_GRAPH |}.

(** A state in phase FINISHED. *)
Definition finishedState : AlgorithmState :=
  {| phase := FINISHED; queue := []; pathFound := None; bottleneck := None;
     visited := {["s"]}; maxFlow := 19; logs := [] |}.

(** A state in phase AUGMENTING whose path has no edge in the initial
    graph. *)
Definition strayAugmenting : AlgorithmState :=
  {| phase := AUGMENTING; queue := []; pathFound := Some ["s"; "t"];
     bottleneck := Some 5; visited := {["s"; "t"]}; maxFlow := 0;
     logs := [] |}.

(** The state in which the first round expands [s]. *)
Definition firstLabeling : AlgorithmState :=
  {| phase := LABELING; queue := ["s"]; pathFound := None;
     bottleneck := None; visited := {["s"]}; maxFlow := 0;
     logs := [] |}.

(** ** The editor ([App.tsx]) *)

Inductive SelectionType : Type := SelNode | SelEdge.

Record SelectionState : Type := mkSelection {
  sel_type : SelectionType;
  sel_id : string
}.

Inductive ToolType : Type :=
| SELECT | ADD_NODE | ADD_EDGE | SET_SOURCE | SET_SINK | DELETE.

(** The handlers of the component [App] as functions of its state.  A
    handler's [setGraph(prev => ...)] calls are applied in the order they
    are made; the [graph] and [algoState] a handler reads are those of the
    state it is given. *)
Module App.

Record State : Type := mkApp {
  graph : Graph;
  algoState : AlgorithmState;
  isAutoPlaying : bool;
  aiLoading : bool;
  aiMessage : option string;
  activeTool : ToolType;
  selection : option SelectionState
}.

Definition initial : State :=
  {| graph := INITIAL_GRAPH; algoState := initializeAlgorithm;
     isAutoPlaying := false; aiLoading := false; aiMessage := None;
     activeTool := SELECT; selection := None |}.

Definition setGraph (f : Graph -> Graph) (a : State) : State :=
  {| graph := f (graph a); algoState := algoState a;
     isAutoPlaying := isAutoPlaying a; aiLoading := aiLoading a;
     aiMessage := aiMessage a; activeTool := activeTool a;
     selection := selection a |}.

Definition setAlgoState (st : AlgorithmState) (a : State) : State :=
  {| graph := graph a; algoState := st;
     isAutoPlaying := isAutoPlaying a; aiLoading := aiLoading a;
     aiMessage := aiMessage a; activeTool := activeTool a;
     selection := selection a |}.

Definition setIsAutoPlaying (b : bool) (a : State) : State :=
  {| graph := graph a; algoState := algoState a;
     isAutoPlaying := b; aiLoading := aiLoading a;
     aiMessage := aiMessage a; activeTool := activeTool a;
     selection := selection a |}.

Definition setAiMessage (m : option string) (a : State) : State :=
  {| graph := graph a; algoState := algoState a;
     isAutoPlaying := isAutoPlaying a; aiLoading := aiLoading a;
     aiMessage := m; activeTool := activeTool a;
     selection := selection a |}.

Definition setSelection (s : option SelectionState) (a : State) : State :=
  {| graph := graph a; algoState := algoState a;
     isAutoPlaying := isAutoPlaying a; aiLoading := aiLoading a;
     aiMessage := aiMessage a; activeTool := activeTool a;
     selection := s |}.

(** [resetAlgo]: a fresh algorithm state, and the graph without its labels
    and flows. *)
Definition clearGraph (g : Graph) : Graph :=
  {| nodes := map (fun n => set_label n None) (nodes g);
     edges := map (fun e => set_flow e 0) (edges g) |}.

Definition resetAlgo (a : State) : State :=
  setGraph clearGraph (setAlgoState initializeAlgorithm a).

(** The handlers that reset only [if (algoState.phase !== IDLE)]. *)
Definition resetUnlessIdle (before a : State) : State :=
  match phase (algoState before) with
  | IDLE => a
  | _ => resetAlgo a
  end.

(** The test of the [while] loop of [addNode] for the index [k]. *)
Definition idTaken (ns : list Node) (k : Z) : bool :=
  existsb (fun n => String.eqb (node_id n) ("v" +:+ pretty k)) ns
  || existsb (fun n => String.eqb (node_id n) "s"
                       && String.eqb ("v" +:+ pretty k) "s") ns
  || existsb (fun n => String.eqb (node_id n) "t"
                       && String.eqb ("v" +:+ pretty k) "t") ns.

(** The loop [while (...) nextIdx++], run for at most [fuel] increments. *)
Fixpoint nextFreeIdx (fuel : nat) (ns : list Node) (nextIdx : Z) : Outcome Z :=
  if idTaken ns nextIdx then
    match fuel with
    | O => Diverges
    | S fuel' => nextFreeIdx fuel' ns (nextIdx + 1)
    end
  else Returns nextIdx.

Definition addNode (x y : Z) (a : State) : Outcome State :=
  nextIdx ← nextFreeIdx (length (nodes (graph a))) (nodes (graph a)) 1;
  Returns
    (resetUnlessIdle a
       (setGraph
          (fun prev =>
             {| nodes := nodes prev
                         ++ [ {| node_id := "v" +:+ pretty nextIdx;
                                 node_x := x; node_y := y; label := None;
                                 isSource := None; isSink := None |} ];
                edges := edges prev |})
          a)).

(** [addEdge]; [now] is the value of [Date.now()] and [roll] that of
    [Math.floor(Math.random() * 20)]. *)
Definition addEdge (sourceId targetId : string) (now roll : Z) (a : State)
  : State :=
  if existsb (fun e => String.eqb (source e) sourceId
                       && String.eqb (target e) targetId)
             (edges (graph a))
  then a
  else
    resetUnlessIdle a
      (setGraph
         (fun prev =>
            {| nodes := nodes prev;
               edges := edges prev
                        ++ [ {| edge_id := "e" +:+ pretty now;
                                source := sourceId; target := targetId;
                                capacity := roll + 1; flow := 0 |} ] |})
         a).

Definition deleteNode (id : string) (a : State) : State :=
  resetAlgo
    (setSelection None
       (setGraph
          (fun prev =>
             {| nodes := filter (fun n => node_id n <> id) (nodes prev);
                edges := filter (fun e => source e <> id /\ target e <> id)
                                (edges prev) |})
          a)).

Definition deleteEdge (id : string) (a : State) : State :=
  resetUnlessIdle a
    (setSelection None
       (setGraph
          (fun prev =>
             {| nodes := nodes prev;
                edges := filter (fun e => edge_id e <> id) (edges prev) |})
          a)).

Definition setSource (id : string) (a : State) : State :=
  resetAlgo (setGraph (setSource id) a).

Definition setSink (id : string) (a : State) : State :=
  resetAlgo (setGraph (setSink id) a).

Definition moveNode (id : string) (x y : Z) (a : State) : State :=
  setGraph
    (fun prev =>
       {| nodes :=
            map (fun n =>
                   if String.eqb (node_id n) id
                   then {| node_id := node_id n; node_x := x; node_y := y;
                           label := label n; isSource := isSource n;
                           isSink := isSink n |}
                   else n)
                (nodes prev);
          edges := edges prev |})
    a.

Definition handleStep (a : State) : Outcome State :=
  result ← stepAlgorithm (graph a) (algoState a);
  Returns (setAlgoState (snd result) (setGraph (fun _ => fst result) a)).

Definition handleReset (a : State) : State :=
  setSelection None
    (setAiMessage None (resetAlgo (setIsAutoPlaying false a))).

Definition handleClear (a : State) : State :=
  setSelection None
    (setAlgoState initializeAlgorithm
       (setGraph (fun _ => {| nodes := []; edges := [] |})
          (setIsAutoPlaying false a))).

(** The auto-play effect: while [isAutoPlaying] holds and the phase is not
    FINISHED an interval calls [handleStep]; in phase FINISHED the effect
    turns [isAutoPlaying] off.  [fuel] bounds the number of calls. *)
Fixpoint autoPlay (fuel : nat) (a : State) : Outcome State :=
  if isAutoPlaying a
     && negb (bool_decide (phase (algoState a) = FINISHED))
  then
    match fuel with
    | O => Diverges
    | S fuel' => a' ← handleStep a; autoPlay fuel' a'
    end
  else if bool_decide (phase (algoState a) = FINISHED)
  then Returns (setIsAutoPlaying false a)
  else Returns a.

(** The [Delete] key and the panel's delete button. *)
Definition deleteSelected (a : State) : State :=
  match selection a with
  | Some {| sel_type := SelNode; sel_id := id |} => deleteNode id a
  | Some {| sel_type := SelEdge; sel_id := id |} => deleteEdge id a
  | None => a
  end.

End App.

(** ** The canvas ([GraphCanvas.tsx]) *)

(** The loop of [isEdgeInPath] over the consecutive pairs of the path. *)
Fixpoint edgeOnPath (e : Edge) (path : list string) : bool :=
  match path with
  | u :: ((v :: _) as rest) =>
      if String.eqb (source e) u && String.eqb (target e) v
         || String.eqb (source e) v && String.eqb (target e) u
      then true
      else edgeOnPath e rest
  | _ => false
  end.

Definition isEdgeInPath (pathFound : option (list string)) (e : Edge) : bool :=
  match pathFound with
  | None => false
  | Some path => edgeOnPath e path
  end.

(** ** Generated scenarios ([geminiService.ts]) *)

(** An edge as the model's answer gives it. *)
Record RawEdge : Type := mkRawEdge {
  raw_source : string;
  raw_target : string;
  raw_capacity : Z
}.

(** The post-processing of [generateGraphScenario]: the flags are set from
    the ids, the edges are numbered and carry no flow. *)
Definition postProcess (rawNodes : list Node) (rawEdges : list RawEdge)
  : Graph :=
  {| nodes :=
       map (fun n =>
              {| node_id := node_id n; node_x := node_x n; node_y := node_y n;
                 label := label n;
                 isSource := Some (String.eqb (node_id n) "s");
                 isSink := Some (String.eqb (node_id n) "t") |})
           rawNodes;
     edges :=
       imap (fun idx e =>
               {| edge_id := "e" +:+ pretty idx; source := raw_source e;
                  target := raw_target e; capacity := raw_capacity e;
                  flow := 0 |})
            rawEdges |}.

(** ** What is observed of a result *)

(** The phase, the graph and the queue of a returned pair. *)
Definition phaseOf (r : Outcome (Graph * AlgorithmState)) : option AlgorithmPhase :=
  match r with
  | Returns (_, st) => Some (phase st)
  | _ => None
  end.

Definition graphOf (r : Outcome (Graph * AlgorithmState)) : option Graph :=
  match r with
  | Returns (g, _) => Some g
  | _ => None
  end.

Definition queueOf (r : Outcome (Graph * AlgorithmState)) : option (list string) :=
  match r with
  | Returns (_, st) => Some (queue st)
  | _ => None
  end.

(** The phase, queue, path, bottleneck and [maxFlow] of a returned pair. *)
Definition progress (r : Outcome (Graph * AlgorithmState))
  : option (AlgorithmPhase * list string * option (list string) * option Z * Z) :=
  match r with
  | Returns (_, st) =>
      Some (phase st, queue st, pathFound st, bottleneck st, maxFlow st)
  | _ => None
  end.

(** The id, flow and capacity of each edge. *)
Definition edgeLoads (r : Outcome (Graph * AlgorithmState))
  : option (list (string * Z * Z)) :=
  match r with
  | Returns (g, _) => Some (map (fun e => (edge_id e, flow e, capacity e)) (edges g))
  | _ => None
  end.

(** The first node flagged [isSource], the one a round starts from. *)
Definition sourceId (g : Graph) : option string :=
  option_map node_id (find (fun n => truthy (isSource n)) (nodes g)).

(** ** The branches of [stepAlgorithm] as functions of their own *)

(** What the first branch of [stepAlgorithm] does, for both phases it
    accepts. *)
Definition startRound (g : Graph) (st : AlgorithmState)
  : Outcome (Graph * AlgorithmState) :=
  match find (fun n => truthy (isSource n)) (nodes g) with
  | None => Returns (g, st)
  | Some src =>
      Returns
        ({| nodes := clearLabels (nodes g); edges := edges g |},
         {| phase := LABELING;
            queue := [node_id src];
            pathFound := None;
            bottleneck := None;
            visited := {[node_id src]};
            maxFlow := maxFlow st;
            logs := logs st ++ ["开始新一轮标号，从源点 (s) 出发。"] |})
  end.

(** The two loops of the LABELING branch, as one function of the state they
    start from. *)
Definition expand (uId : string) (u : option Node) (es : list Edge)
    (ex0 : Expansion) : Outcome Expansion :=
  ex1 ← forEach (forwardCheck uId u) (filter (fun e => source e = uId) es) ex0;
  forEach (backwardCheck uId u) (filter (fun e => target e = uId) es) ex1.

(** The shape shared by [forwardCheck] and [backwardCheck]. *)
Definition arcCheck (uId : string) (u : option Node) (guard : Edge -> bool)
    (toward : Edge -> string) (dir : Direction) (residual : Edge -> Z)
    (e : Edge) (ex : Expansion) : Outcome Expansion :=
  if negb (sinkReached ex) && guard e
  then labelNode uId u (toward e) dir (residual e) ex
  else Returns ex.

(** One iteration of the loop of [backtrack], when it has a next node to
    go to. *)
Definition nextNode (ns : list Node) (c : Node) : option Node :=
  if String.eqb (node_id c) "s" then None
  else
    match label c with
    | None => None
    | Some l =>
        match prevNodeId l with
        | None => None
        | Some p => find (fun n => String.eqb (node_id n) p) ns
        end
    end.

(** The nodes the loop goes through after [c] until it exits or raises. *)
Inductive chain (ns : list Node) : Node -> list Node -> Prop :=
| chain_stop (c : Node) : nextNode ns c = None -> chain ns c []
| chain_step (c c' : Node) (l : list Node) :
    nextNode ns c = Some c' -> chain ns c' l -> chain ns c (c' :: l).

(** ** The properties stated of the engine *)

(** A node without its label and an edge without its flow: what is left
    is the topology. *)
Definition eraseLabel (n : Node) : Node := set_label n None.
Definition eraseFlow (e : Edge) : Edge := set_flow e 0.

(** The endpoints of an edge, source first. *)
Definition endpoints (e : Edge) : string * string := (source e, target e).

(** Some edge of [es] goes from [a] to [b]. *)
Definition hasEdge (es : list Edge) (a b : string) : Prop :=
  (a, b) ∈ map endpoints es.

(** The endpoints of an edge, target first. *)
Definition reversed (e : Edge) : string * string := (target e, source e).

(** No two edges join the same two nodes, in the same or in opposite
    directions, and no edge joins a node to itself. *)
Definition simpleEdges (es : list Edge) : Prop :=
  NoDup (map endpoints es ++ map reversed es).

(** The capacity invariant, for one edge and for a graph. *)
Definition edgeWithinCapacity (e : Edge) : Prop := 0 <= flow e <= capacity e.

Definition capacityInvariant (g : Graph) : Prop :=
  Forall (fun e => 0 <= flow e <= capacity e) (edges g).

(** A label flow is the [Infinity] of the source or a positive number. *)
Definition flow_positive (lf : LabelFlow) : Prop :=
  match lf with
  | Finite z => 0 < z
  | Infinity => True
  end.

(** The label of a node, if it has one, carries such a flow. *)
Definition label_positive (n : Node) : Prop :=
  forall l, label n = Some l -> flow_positive (label_flow l).

(** The bottleneck of the data model: absent, or a non-negative number. *)
Definition bottleneck_nonneg (st : AlgorithmState) : Prop :=
  forall bn, bottleneck st = Some bn -> 0 <= bn.

(** What the engine keeps true of the labels and of the bottleneck it
    reads: labels are read in LABELING, the bottleneck in AUGMENTING. *)
Definition engine_inv (g : Graph) (st : AlgorithmState) : Prop :=
  (phase st = LABELING -> Forall label_positive (nodes g)) /\
  (phase st = AUGMENTING -> bottleneck_nonneg st).

(** The same of the closure variables of an expansion. *)
Definition expansion_positive (ex : Expansion) : Prop :=
  Forall label_positive (newNodes ex) /\
  (forall bn, newBottleneck ex = Some bn -> 0 < bn).

(** The residual capacity [r] of one path step from [a] to [b]: a forward
    edge [a -> b] below capacity, or a backward edge [b -> a] carrying
    flow. *)
Inductive residualStep (es : list Edge) (a b : string) : Z -> Prop :=
| forwardStep (e : Edge) :
    e ∈ es -> source e = a -> target e = b -> flow e < capacity e ->
    residualStep es a b (capacity e - flow e)
| backwardStep (e : Edge) :
    e ∈ es -> source e = b -> target e = a -> 0 < flow e ->
    residualStep es a b (flow e).

(** The residual capacities met along a path, one per consecutive pair. *)
Inductive pathResiduals (es : list Edge) : list string -> list Z -> Prop :=
| residuals_end (a : string) : pathResiduals es [a] []
| residuals_step (a b : string) (rest : list string) (r : Z) (rs : list Z) :
    residualStep es a b r ->
    pathResiduals es (b :: rest) rs ->
    pathResiduals es (a :: b :: rest) (r :: rs).

(** [m] is the least element of [rs]. *)
Definition isMinimum (m : Z) (rs : list Z) : Prop :=
  m ∈ rs /\ Forall (fun r => m <= r) rs.

(** Path validity: every pair is a residual step and the bottleneck is the
    least residual capacity along the path. *)
Definition pathValid (es : list Edge) (path : list string) (bn : Z) : Prop :=
  exists rs, pathResiduals es path rs /\ isMinimum bn rs.

(** The capacity of the cut whose source side is [side]. *)
Definition cutCapacity (es : list Edge) (side : list string) : Z :=
  foldr (fun e acc =>
           if bool_decide (source e ∈ side) && negb (bool_decide (target e ∈ side))
           then capacity e + acc else acc)
        0 es.

(** Every sublist of [l], in the order of [l]. *)
Fixpoint sublists {A : Type} (l : list A) : list (list A) :=
  match l with
  | [] => [[]]
  | a :: l' => sublists l' ++ map (cons a) (sublists l')
  end.

(** Every set of node ids that holds [s] and not [t]. *)
Definition cuts (g : Graph) (s t : string) : list (list string) :=
  map (cons s)
      (sublists (filter (fun i => i <> s /\ i <> t) (map node_id (nodes g)))).

(** The least capacity of a cut between [s] and [t]. *)
Definition minCutCapacity (g : Graph) (s t : string) : Z :=
  foldr Z.min (cutCapacity (edges g) [s])
        (map (cutCapacity (edges g)) (cuts g s t)).

(** ** The expansion of a node in the words of the specification *)

(** A residual arc out of the expanded node: the neighbor it reaches, the
    direction of the edge, and the residual capacity. *)
Definition ResidualArc : Type := string * Direction * Z.

(** Residual accessor: the forward residual edges of [u] are the edges out
    of [u] with flow below capacity, each worth [capacity - flow]; the
    backward ones are the edges into [u] with positive flow, each worth
    [flow].  Both are in edge-list order. *)
Definition forwardResidual (es : list Edge) (u : string) : list ResidualArc :=
  map (fun e => (target e, Plus, capacity e - flow e))
      (filter (fun e => source e = u /\ flow e < capacity e) es).

Definition backwardResidual (es : list Edge) (u : string) : list ResidualArc :=
  map (fun e => (source e, Minus, flow e))
      (filter (fun e => target e = u /\ 0 < flow e) es).

(** Forward arcs first, then backward arcs. *)
Definition residualArcs (es : list Edge) (u : string) : list ResidualArc :=
  forwardResidual es u ++ backwardResidual es u.

(** The running result of an expansion: the nodes with their labels, the
    visited set, the ids labeled so far in the order they were labeled, and
    the sink once it has been labeled. *)
Record Labeling : Type := mkLabeling {
  lab_nodes : list Node;
  lab_visited : gset string;
  lab_new : list string;
  lab_sink : option Node
}.

(** Label each unvisited neighbor in turn; stop labeling once the sink has
    been labeled. *)
Fixpoint labelNeighbors (uId : string) (uflow : LabelFlow)
    (arcs : list ResidualArc) (L : Labeling) : Labeling :=
  match arcs with
  | [] => L
  | (v, dir, r) :: arcs' =>
      match lab_sink L with
      | Some _ => L
      | None =>
          if decide (v ∈ lab_visited L) then labelNeighbors uId uflow arcs' L
          else
            match findIndex (fun n => String.eqb (node_id n) v) (lab_nodes L) with
            | None => labelNeighbors uId uflow arcs' L
            | Some (i, n) =>
                let n' :=
                  set_label n
                    (Some {| prevNodeId := Some uId; direction := dir;
                             label_flow := Finite (min_flow uflow r) |}) in
                labelNeighbors uId uflow arcs'
                  {| lab_nodes := <[i := n']> (lab_nodes L);
                     lab_visited := {[v]} ∪ lab_visited L;
                     lab_new := lab_new L ++ [v];
                     lab_sink := if truthy (isSink n) then Some n' else None |}
            end
      end
  end.

(** The finite flow of a node's label. *)
Definition sinkFlow (n : Node) : option Z :=
  match label n with
  | Some l => match label_flow l with
              | Finite m => Some m
              | Infinity => None
              end
  | None => None
  end.

(** The closure variables that a labeling stands for; the path is
    reconstructed at the moment the sink is labeled. *)
Definition expansionOf (rest : list string) (L : Labeling) : Outcome Expansion :=
  match lab_sink L with
  | None =>
      Returns {| newQueue := rest ++ lab_new L; newNodes := lab_nodes L;
                 newVisited := lab_visited L;
                 neighborsFound := match lab_new L with
                                   | [] => false
                                   | _ => true
                                   end;
                 sinkReached := false; newPath := None;
                 newBottleneck := None |}
  | Some tn =>
      path ← backtrack (S (length (lab_nodes L))) (lab_nodes L) tn [node_id tn];
      Returns {| newQueue := rest ++ lab_new L; newNodes := lab_nodes L;
                 newVisited := lab_visited L; neighborsFound := true;
                 sinkReached := true; newPath := Some path;
                 newBottleneck := sinkFlow tn |}
  end.

(** ** Invariants of a run on a graph whose source is named [s] *)

(** The node an id is resolved to: the first one that carries it. *)
Definition findNode (ns : list Node) (v : string) : option Node :=
  find (fun n => String.eqb (node_id n) v) ns.

(** [labelTree ns es v path m]: the labels of [ns] lead from the node named
    [v] back to the node named [s] along [path], every step of which is a
    residual step of [es], and [m], the flow of [v]'s label, is the least
    residual capacity on the way. *)
Inductive labelTree (ns : list Node) (es : list Edge)
  : string -> list string -> Z -> Prop :=
| tree_first (v : string) (n root : Node) (l : Label) (r : Z) :
    v <> "s" ->
    findNode ns v = Some n ->
    label n = Some l ->
    prevNodeId l = Some "s" ->
    label_flow l = Finite r ->
    findNode ns "s" = Some root ->
    residualStep es "s" v r ->
    labelTree ns es v ["s"; v] r
| tree_next (v p : string) (n : Node) (l : Label) (path : list string)
    (mp r : Z) :
    v <> "s" ->
    p <> "s" ->
    findNode ns v = Some n ->
    label n = Some l ->
    prevNodeId l = Some p ->
    label_flow l = Finite (Z.min mp r) ->
    labelTree ns es p path mp ->
    residualStep es p v r ->
    v ∉ path ->
    labelTree ns es v (path ++ [v]) (Z.min mp r).

(** The invariant of a labeling round on a graph whose source is named
    [s]. *)
Definition roundInv (es : list Edge) (ns : list Node) (V : gset string) : Prop :=
  "s" ∈ V /\
  Forall (fun n => node_id n = "s" ->
                   forall l, label n = Some l -> label_flow l = Infinity) ns /\
  forall v, v ∈ V -> v <> "s" ->
    exists path m, labelTree ns es v path m /\ Forall (fun w => w ∈ V) path.

(** What is known of the label of the node being expanded. *)
Definition frontLabel (es : list Edge) (ns : list Node) (V : gset string)
    (uId : string) (uflow : LabelFlow) : Prop :=
  (uId = "s" /\ uflow = Infinity /\ exists root, findNode ns "s" = Some root) \/
  (uId <> "s" /\
   exists path mu, uflow = Finite mu /\ labelTree ns es uId path mu /\
                   Forall (fun w => w ∈ V) path).

(** The round invariant in the course of an expansion, with what is known
    of the sink once it has been labeled. *)
Definition labelingInv (es : list Edge) (L : Labeling) : Prop :=
  roundInv es (lab_nodes L) (lab_visited L) /\
  Forall (fun w => w ∈ lab_visited L) (lab_new L) /\
  forall tn, lab_sink L = Some tn ->
    truthy (isSink tn) = true /\
    findNode (lab_nodes L) (node_id tn) = Some tn /\
    exists path m, labelTree (lab_nodes L) es (node_id tn) path m /\
                   sinkFlow tn = Some m.

(** In AUGMENTING: the path and the bottleneck are present, the path leads
    from [s] to a sink along residual steps without passing twice through
    a node, and the bottleneck is the least residual capacity on it. *)
Definition pathReady (g : Graph) (st : AlgorithmState) : Prop :=
  exists path bn tn,
    pathFound st = Some path /\
    bottleneck st = Some bn /\
    pathValid (edges g) path bn /\
    head path = Some "s" /\
    last path = Some (node_id tn) /\
    findNode (nodes g) (node_id tn) = Some tn /\
    truthy (isSink tn) = true /\
    NoDup path.

(** The invariant of a run, phase by phase. *)
Definition runInv (g : Graph) (st : AlgorithmState) : Prop :=
  match phase st with
  | LABELING =>
      roundInv (edges g) (nodes g) (visited st) /\
      Forall (fun w => w ∈ visited st) (queue st)
  | AUGMENTING => pathReady g st
  | _ => True
  end.

(** The node named [s] is labeled. *)
Definition rootLabeled (ns : list Node) : Prop :=
  exists root l, findNode ns "s" = Some root /\ label root = Some l.

(** The graphs the walk back from the sink is written for: the first node
    flagged [isSource] is named [s], and the first node named [s] is
    flagged [isSource]. *)
Definition sourceNamed_s (g : Graph) : Prop :=
  sourceId g = Some "s" /\
  exists root, findNode (nodes g) "s" = Some root /\
               truthy (isSource root) = true.

(** The invariant under which a step always returns. *)
Definition safeInv (g : Graph) (st : AlgorithmState) : Prop :=
  runInv g st /\ (phase st = LABELING -> rootLabeled (nodes g)).

(** The ids reachable from [s] by residual steps between nodes of the
    graph. *)
Inductive residualReach (es : list Edge) (ns : list Node) : string -> Prop :=
| reach_source : residualReach es ns "s"
| reach_step (u v : string) (r : Z) (n : Node) :
    residualReach es ns u ->
    residualStep es u v r ->
    findNode ns v = Some n ->
    residualReach es ns v.

(** The id [v] names a sink. *)
Definition sinkId (ns : list Node) (v : string) : Prop :=
  exists n, findNode ns v = Some n /\ truthy (isSink n) = true.

(** The visited set is closed under the residual steps out of the nodes
    already expanded, and holds no sink besides, possibly, [s]. *)
Definition closedInv (es : list Edge) (ns : list Node) (V : gset string)
    (Q : list string) : Prop :=
  (forall u v r n,
     u ∈ V -> u ∉ Q -> residualStep es u v r -> findNode ns v = Some n ->
     v ∈ V) /\
  (forall v, v ∈ V -> v <> "s" -> ~ sinkId ns v).

(** What an expansion keeps of the labeling it extends. *)
Definition expansionInv (ns0 : list Node) (V0 : gset string) (L : Labeling)
  : Prop :=
  map eraseLabel (lab_nodes L) = map eraseLabel ns0 /\
  (forall w, w ∈ V0 -> w ∈ lab_visited L) /\
  (forall w, w ∈ lab_visited L -> w ∈ V0 \/ w ∈ lab_new L) /\
  (lab_sink L = None -> forall w, w ∈ lab_new L -> ~ sinkId ns0 w).

(** Closure of the visited set, phase by phase. *)
Definition exhaustInv (g : Graph) (st : AlgorithmState) : Prop :=
  match phase st with
  | LABELING => closedInv (edges g) (nodes g) (visited st) (queue st)
  | FINISHED =>
      closedInv (edges g) (nodes g) (visited st) [] /\ "s" ∈ visited st
  | _ => True
  end.

(** ** Flow conservation and cuts *)

(** What an edge brings to the node named [v]: its flow if it enters the
    node, minus its flow if it leaves it. *)
Definition edgeExcess (e : Edge) (v : string) : Z :=
  (if String.eqb (target e) v then flow e else 0)
  - (if String.eqb (source e) v then flow e else 0).

(** The flow into the node named [v] minus the flow out of it. *)
Definition excess (es : list Edge) (v : string) : Z :=
  foldr (fun e acc => edgeExcess e v + acc) 0 es.

(** The excess of all the nodes of [side] taken together. *)
Definition excessOver (es : list Edge) (side : list string) : Z :=
  foldr (fun v acc => excess es v + acc) 0 side.

(** Flow is conserved at every node other than [s] and the sinks, and
    [maxFlow] is what leaves [s]. *)
Definition conservationInv (g : Graph) (st : AlgorithmState) : Prop :=
  (forall v, v <> "s" -> ~ sinkId (nodes g) v -> excess (edges g) v = 0) /\
  maxFlow st = - excess (edges g) "s".

(** Every edge joins two nodes of the graph. *)
Definition edgesJoinNodes (g : Graph) : Prop :=
  Forall (fun e => is_Some (findNode (nodes g) (source e)) /\
                   is_Some (findNode (nodes g) (target e)))
         (edges g).

(** The input of a run: no edge carries flow yet and no capacity is
    negative. *)
Definition emptyFlow (g : Graph) : Prop :=
  Forall (fun e => flow e = 0 /\ 0 <= capacity e) (edges g).

(** A source side: a list of distinct ids that holds [s] and, [s] apart,
    no sink. *)
Definition sourceSide (g : Graph) (side : list string) : Prop :=
  NoDup side /\ "s" ∈ side /\
  forall v, v ∈ side -> v <> "s" -> ~ sinkId (nodes g) v.

(** ** Changes of the nodes that the engine does not see *)

(** The node [n] after [moveNode id x y]. *)
Definition movedTo (id : string) (x y : Z) (n : Node) : Node :=
  if String.eqb (node_id n) id
  then {| node_id := node_id n; node_x := x; node_y := y;
          label := label n; isSource := isSource n; isSink := isSink n |}
  else n.

(** A graph and the closure variables of an expansion with [h] applied to
    every node. *)
Definition mapNodes (h : Node -> Node) (g : Graph) : Graph :=
  {| nodes := map h (nodes g); edges := edges g |}.

Definition mapExpansion (h : Node -> Node) (ex : Expansion) : Expansion :=
  {| newQueue := newQueue ex; newNodes := map h (newNodes ex);
     newVisited := newVisited ex; neighborsFound := neighborsFound ex;
     sinkReached := sinkReached ex; newPath := newPath ex;
     newBottleneck := newBottleneck ex |}.

(** ** The phases a step goes through *)

(** The transitions of the state machine: what a step from [st] to [st']
    tells of the input and of the result. *)
Definition transition (g g' : Graph) (st st' : AlgorithmState) : Prop :=
  match phase st, phase st' with
  | IDLE, LABELING | FINISHED, LABELING =>
      exists src, sourceId g = Some src /\ queue st' = [src] /\
                  visited st' = {[src]} /\
                  pathFound st' = None /\ bottleneck st' = None
  | IDLE, IDLE | FINISHED, FINISHED =>
      sourceId g = None /\ g' = g /\ st' = st
  | LABELING, FINISHED => queue st = [] /\ g' = g
  | LABELING, LABELING => queue st <> []
  | LABELING, AUGMENTING =>
      queue st <> [] /\ queue st' = [] /\
      is_Some (pathFound st') /\ is_Some (bottleneck st')
  | AUGMENTING, IDLE =>
      is_Some (pathFound st) /\ is_Some (bottleneck st) /\
      pathFound st' = None /\ bottleneck st' = None
  | AUGMENTING, AUGMENTING =>
      (pathFound st = None \/ bottleneck st = None) /\ g' = g /\ st' = st
  | _, _ => False
  end.

(** ** How many steps a run has left *)

(** The nodes whose id has not been visited. *)
Definition unvisited (ns : list Node) (V : gset string) : nat :=
  length (filter (fun i => i ∉ V) (map node_id ns)).

(** A bound on the steps left in the current round. *)
Definition roundBudget (g : Graph) (st : AlgorithmState) : nat :=
  match phase st with
  | IDLE => 2 * length (nodes g) + 3
  | LABELING => 2 * unvisited (nodes g) (visited st) + length (queue st) + 1
  | AUGMENTING => 0
  | FINISHED => 0
  end.

(** A bound on the steps left before FINISHED: every round but the last
    adds at least one unit to [maxFlow], which the capacity of the edges
    out of [s] bounds. *)
Definition stepsLeft (g : Graph) (st : AlgorithmState) : nat :=
  Z.to_nat (cutCapacity (edges g) ["s"] - maxFlow st)
  * (2 * length (nodes g) + 4)
  + roundBudget g st.

Definition stepBound (g : Graph) : nat :=
  (Z.to_nat (cutCapacity (edges g) ["s"]) + 1) * (2 * length (nodes g) + 4).

(** What a run keeps true on a graph whose source is named [s] and in which
    no two edges join the same two nodes. *)
Definition flowInv (g : Graph) (st : AlgorithmState) : Prop :=
  sourceNamed_s g /\ safeInv g st /\ simpleEdges (edges g) /\
  capacityInvariant g /\ conservationInv g st.

(** A labeling round that stays inside the set [V1], which is closed under
    the residual steps of [es1] and holds no sink: the round of a step
    taken from FINISHED. *)
Definition idleRound (es1 : list Edge) (ns1 : list Node) (V1 : gset string)
    (mf : Z) (g : Graph) (st : AlgorithmState) : Prop :=
  phase st = LABELING /\ safeInv g st /\ sourceNamed_s g /\
  edges g = es1 /\ map eraseLabel (nodes g) = map eraseLabel ns1 /\
  maxFlow st = mf /\ forall w, w ∈ visited st -> w ∈ V1.

(** ** The graphs the editor should keep *)

(** The graphs on which auto-play is shown to find the maximum flow. *)
Definition suitable (g : Graph) : Prop :=
  sourceNamed_s g /\ simpleEdges (edges g) /\ edgesJoinNodes g /\
  Forall (fun e => 0 <= capacity e) (edges g).

(** ** Basic facts about the helpers *)

Lemma findIndex_Some {A : Type} (p : A -> bool) (l : list A) (i : nat) (a : A) :
  findIndex p l = Some (i, a) -> l !! i = Some a /\ p a = true.
Proof.
  revert i. induction l as [|b l IH]; intros i; simpl; [discriminate|].
  destruct (p b) eqn:Hb.
  - intros [= <- <-]. split; [reflexivity | exact Hb].
  - destruct (findIndex p l) as [[j c]|]; [|discriminate].
    intros [= <- <-]. simpl. apply IH. reflexivity.
Qed.

Lemma findIndex_None {A : Type} (p : A -> bool) (l : list A) :
  findIndex p l = None -> Forall (fun a => p a = false) l.
Proof.
  induction l as [|b l IH]; simpl; [constructor|].
  destruct (p b) eqn:Hb; [discriminate|].
  destruct (findIndex p l) as [[j c]|]; [discriminate|].
  intros _. constructor; [exact Hb | apply IH; reflexivity].
Qed.

Lemma find_clearLabels_None (ns : list Node) :
  find (fun n => truthy (isSource n)) ns = None ->
  find (fun n => truthy (isSource n)) (clearLabels ns) = None.
Proof.
  induction ns as [|n ns IH]; simpl; [reflexivity|].
  destruct (truthy (isSource n)); [discriminate | exact IH].
Qed.

Lemma find_clearLabels_Some (ns : list Node) (src : Node) :
  find (fun n => truthy (isSource n)) ns = Some src ->
  find (fun n => truthy (isSource n)) (clearLabels ns)
  = Some (set_label src (Some {| prevNodeId := None; direction := Plus;
                                 label_flow := Infinity |})).
Proof.
  induction ns as [|n ns IH]; simpl; [discriminate|].
  destruct (truthy (isSource n)) eqn:Hn.
  - intros [= <-]. reflexivity.
  - exact IH.
Qed.

Lemma find_no_source (ns : list Node) :
  (forall n, n ∈ ns -> truthy (isSource n) = false) ->
  find (fun n => truthy (isSource n)) ns = None.
Proof.
  induction ns as [|n ns IH]; intros H; simpl; [reflexivity|].
  rewrite (H n) by apply list_elem_of_here.
  apply IH. intros m Hm. apply H. apply list_elem_of_further. exact Hm.
Qed.

Lemma step_start_round (g : Graph) (st : AlgorithmState) :
  phase st = IDLE \/ phase st = FINISHED ->
  stepAlgorithm g st = startRound g st.
Proof.
  intros Hph. unfold stepAlgorithm, startRound.
  destruct (find (fun n => truthy (isSource n)) (nodes g)) as [src|] eqn:Hf.
  - rewrite (find_clearLabels_Some _ _ Hf).
    destruct Hph as [-> | ->]; reflexivity.
  - rewrite (find_clearLabels_None _ Hf).
    destruct Hph as [-> | ->]; reflexivity.
Qed.

(** ** C8: a round cannot start without a source *)

(** C8. In phase IDLE or FINISHED, on a graph none of whose nodes is flagged
    [isSource], [stepAlgorithm] returns the very graph and state it was
    given: the phase, the queue and the logs are the input's. *)
Theorem step_without_source (g : Graph) (st : AlgorithmState) :
  phase st = IDLE \/ phase st = FINISHED ->
  (forall n, n ∈ nodes g -> truthy (isSource n) = false) ->
  stepAlgorithm g st = Returns (g, st).
Proof.
  intros Hph Hno. rewrite (step_start_round _ _ Hph).
  unfold startRound. rewrite (find_no_source _ Hno). reflexivity.
Qed.

Lemma step_without_source_witness :
  stepAlgorithm sourceless initializeAlgorithm
  = Returns (sourceless, initializeAlgorithm).
Proof.
  apply step_without_source.
  - left. reflexivity.
  - intros n Hn. unfold sourceless in Hn. simpl in Hn.
    apply list_elem_of_In in Hn. simpl in Hn.
    destruct Hn as [<- | [<- | []]]; reflexivity.
Defined.

(** ** C1: FINISHED restarts the search *)

(** C1, as claimed, fails: on the initial graph a FINISHED state is taken to
    LABELING. *)
Lemma finished_is_not_absorbing :
  phase finishedState = FINISHED /\
  stepAlgorithm INITIAL_GRAPH finishedState
  <> Returns (INITIAL_GRAPH, finishedState).
Proof.
  split; [reflexivity|]. intros H.
  apply (f_equal phaseOf) in H. vm_compute in H. discriminate H.
Qed.

(** C1, amended. A step from FINISHED does what a step from IDLE does: with
    no node flagged [isSource] it returns its inputs unchanged; otherwise it
    clears the labels, labels the source, and returns phase LABELING with
    the queue and the visited set holding the source's id, no path, no
    bottleneck, the same [maxFlow] and one more log line. *)
Theorem step_from_finished (g : Graph) (st : AlgorithmState) :
  phase st = FINISHED ->
  stepAlgorithm g st =
  match find (fun n => truthy (isSource n)) (nodes g) with
  | None => Returns (g, st)
  | Some src =>
      Returns
        ({| nodes := clearLabels (nodes g); edges := edges g |},
         {| phase := LABELING;
            queue := [node_id src];
            pathFound := None;
            bottleneck := None;
            visited := {[node_id src]};
            maxFlow := maxFlow st;
            logs := logs st ++ ["开始新一轮标号，从源点 (s) 出发。"] |})
  end.
Proof.
  intros Hph. rewrite step_start_round by (right; exact Hph). reflexivity.
Qed.

Lemma step_from_finished_witness :
  phaseOf (stepAlgorithm INITIAL_GRAPH finishedState) = Some LABELING.
Proof.
  rewrite (step_from_finished INITIAL_GRAPH finishedState eq_refl).
  reflexivity.
Defined.

(** ** Reasoning about [forEach] and the labeling closures *)

Lemma forEach_invariant {A S : Type} (P : S -> Prop)
    (f : A -> S -> Outcome S) (l : list A) :
  (forall a s s', a ∈ l -> P s -> f a s = Returns s' -> P s') ->
  forall s s', P s -> forEach f l s = Returns s' -> P s'.
Proof.
  induction l as [|a l IH]; intros Hf s s' Hs; simpl.
  - intros [= <-]. exact Hs.
  - destruct (f a s) as [s1| |] eqn:Hfa; simpl; try discriminate.
    apply IH.
    + intros b t t' Hb. apply Hf. apply list_elem_of_further. exact Hb.
    + apply (Hf a s s1); [apply list_elem_of_here | exact Hs | exact Hfa].
Qed.

(** Every way [labelNode] can return: it leaves the expansion alone, or it
    labels the node found at [targetIndex]. *)
Lemma labelNode_Returns (uId : string) (u : option Node) (targetId : string)
    (dir : Direction) (flowAvailable : Z) (ex ex' : Expansion) :
  labelNode uId u targetId dir flowAvailable ex = Returns ex' ->
  ex' = ex \/
  exists targetIndex tn un lu,
    newNodes ex !! targetIndex = Some tn /\
    node_id tn = targetId /\
    (targetId ∉ newVisited ex) /\
    u = Some un /\ label un = Some lu /\
    newNodes ex' =
      <[targetIndex :=
          set_label tn
            (Some {| prevNodeId := Some uId; direction := dir;
                     label_flow :=
                       Finite (min_flow (label_flow lu) flowAvailable) |})]>
        (newNodes ex) /\
    newVisited ex' = {[targetId]} ∪ newVisited ex /\
    newQueue ex' = newQueue ex ++ [targetId] /\
    neighborsFound ex' = true /\
    (newBottleneck ex' = newBottleneck ex \/
     newBottleneck ex' = Some (min_flow (label_flow lu) flowAvailable)).
Proof.
  unfold labelNode.
  destruct (findIndex _ (newNodes ex)) as [[i tn]|] eqn:Hfi;
    [|intros [= <-]; left; reflexivity].
  apply findIndex_Some in Hfi. destruct Hfi as [Hlk Hid].
  apply String.eqb_eq in Hid.
  case_bool_decide as Hvis; [intros [= <-]; left; reflexivity|].
  destruct u as [un|]; [|discriminate].
  destruct (label un) as [lu|] eqn:Hlu; [|discriminate].
  cbv zeta.
  destruct (truthy (isSink (set_label tn _))).
  - destruct (backtrack _ _ _ _) as [path| |]; simpl; try discriminate.
    intros [= <-]. right. exists i, tn, un, lu. simpl.
    repeat split; auto.
  - intros [= <-]. right. exists i, tn, un, lu. simpl.
    repeat split; auto.
Qed.

Lemma map_eraseLabel_insert (ns : list Node) (i : nat) (tn : Node)
    (l : option Label) :
  ns !! i = Some tn ->
  map eraseLabel (<[i := set_label tn l]> ns) = map eraseLabel ns.
Proof.
  intros Hlk. change (map eraseLabel) with (fmap (M := list) eraseLabel).
  rewrite list_fmap_insert.
  apply list_insert_id. rewrite list_lookup_fmap, Hlk. reflexivity.
Qed.

Lemma map_eraseFlow_insert (es : list Edge) (i : nat) (e : Edge) (f : Z) :
  es !! i = Some e ->
  map eraseFlow (<[i := set_flow e f]> es) = map eraseFlow es.
Proof.
  intros Hlk. change (map eraseFlow) with (fmap (M := list) eraseFlow).
  rewrite list_fmap_insert.
  apply list_insert_id. rewrite list_lookup_fmap, Hlk. reflexivity.
Qed.

Lemma labelNode_topology uId u targetId dir fa (ex ex' : Expansion) :
  labelNode uId u targetId dir fa ex = Returns ex' ->
  map eraseLabel (newNodes ex') = map eraseLabel (newNodes ex).
Proof.
  intros H. apply labelNode_Returns in H.
  destruct H as [-> | (i & tn & un & lu & Hlk & _ & _ & _ & _ & -> & _)];
    [reflexivity|].
  apply map_eraseLabel_insert. exact Hlk.
Qed.

Lemma forwardCheck_topology uId u e (ex ex' : Expansion) :
  forwardCheck uId u e ex = Returns ex' ->
  map eraseLabel (newNodes ex') = map eraseLabel (newNodes ex).
Proof.
  unfold forwardCheck. destruct (_ && _).
  - apply labelNode_topology.
  - intros [= <-]. reflexivity.
Qed.

Lemma backwardCheck_topology uId u e (ex ex' : Expansion) :
  backwardCheck uId u e ex = Returns ex' ->
  map eraseLabel (newNodes ex') = map eraseLabel (newNodes ex).
Proof.
  unfold backwardCheck. destruct (_ && _).
  - apply labelNode_topology.
  - intros [= <-]. reflexivity.
Qed.

Lemma clearLabels_topology (ns : list Node) :
  map eraseLabel (clearLabels ns) = map eraseLabel ns.
Proof.
  unfold clearLabels. rewrite map_map. apply map_ext. intros n. reflexivity.
Qed.

Lemma augmentPair_topology (bn : Z) (a b : string) (es : list Edge) :
  map eraseFlow (augmentPair bn a b es) = map eraseFlow es.
Proof.
  unfold augmentPair.
  destruct (findIndex _ es) as [[i e]|] eqn:Hf.
  - apply findIndex_Some in Hf. apply map_eraseFlow_insert, Hf.
  - destruct (findIndex (fun e => _ (source e) b && _) es) as [[i e]|] eqn:Hb;
      [|reflexivity].
    apply findIndex_Some in Hb. apply map_eraseFlow_insert, Hb.
Qed.

Lemma augmentPath_topology (bn : Z) (path : list string) (es : list Edge) :
  map eraseFlow (augmentPath bn path es) = map eraseFlow es.
Proof.
  revert es. induction path as [|a [|b rest] IH]; intros es; try reflexivity.
  change (augmentPath bn (a :: b :: rest) es)
    with (augmentPath bn (b :: rest) (augmentPair bn a b es)).
  rewrite IH. apply augmentPair_topology.
Qed.

Lemma expand_invariant (P : Expansion -> Prop) uId u es :
  (forall e ex ex', e ∈ es -> P ex ->
     forwardCheck uId u e ex = Returns ex' -> P ex') ->
  (forall e ex ex', e ∈ es -> P ex ->
     backwardCheck uId u e ex = Returns ex' -> P ex') ->
  forall ex0 ex2, P ex0 -> expand uId u es ex0 = Returns ex2 -> P ex2.
Proof.
  intros Hfw Hbw ex0 ex2 H0. unfold expand.
  destruct (forEach (forwardCheck uId u) _ ex0) as [ex1| |] eqn:H1;
    simpl; try discriminate.
  intros H2.
  eapply (forEach_invariant P) in H1; [| |exact H0].
  - eapply (forEach_invariant P) in H2; [exact H2| |exact H1].
    intros e s s' He. apply Hbw.
    apply list_elem_of_filter in He. apply He.
  - intros e s s' He. apply Hfw.
    apply list_elem_of_filter in He. apply He.
Qed.

Lemma step_labeling (g : Graph) (st : AlgorithmState) (uId : string)
    (rest : list string) :
  phase st = LABELING -> queue st = uId :: rest ->
  stepAlgorithm g st =
  ex2 ← expand uId (find (fun n => String.eqb (node_id n) uId) (nodes g))
         (edges g)
         {| newQueue := rest; newNodes := nodes g;
            newVisited := visited st; neighborsFound := false;
            sinkReached := false; newPath := None; newBottleneck := None |};
  if sinkReached ex2 then
    Returns
      ({| nodes := newNodes ex2; edges := edges g |},
       {| phase := AUGMENTING;
          queue := [];
          pathFound := newPath ex2;
          bottleneck := newBottleneck ex2;
          visited := newVisited ex2;
          maxFlow := maxFlow st;
          logs := logs st
                  ++ ["汇点 (t) 已标号！发现增广路径，可增广量 "
                      +:+ from_option pretty "null" (newBottleneck ex2)
                      +:+ "。"] |})
  else
    Returns
      ({| nodes := newNodes ex2; edges := edges g |},
       {| phase := LABELING;
          queue := newQueue ex2;
          pathFound := pathFound st;
          bottleneck := bottleneck st;
          visited := newVisited ex2;
          maxFlow := maxFlow st;
          logs := if neighborsFound ex2
                  then logs st ++ ["已检查节点 " +:+ uId
                                   +:+ " 并标记了其邻居。"]
                  else logs st |}).
Proof.
  intros Hph Hq. unfold stepAlgorithm, expand. rewrite Hph, Hq.
  destruct (forEach (forwardCheck uId _) _ _) as [ex1| |]; simpl;
    try reflexivity.
Qed.

(** ** C9: what a step may change in the graph *)

(** C9, as claimed, fails: outside AUGMENTING the returned graph need not
    be the input graph, because the labels live in the graph's nodes.  The
    step from IDLE on the initial graph returns a graph whose source is
    labeled. *)
Lemma graph_changes_outside_augmenting :
  phase initializeAlgorithm <> AUGMENTING /\
  exists g' st',
    stepAlgorithm INITIAL_GRAPH initializeAlgorithm = Returns (g', st') /\
    g' <> INITIAL_GRAPH.
Proof.
  split; [simpl; discriminate|].
  destruct (stepAlgorithm INITIAL_GRAPH initializeAlgorithm)
    as [[g' st']| |] eqn:Hstep; try (vm_compute in Hstep; discriminate Hstep).
  exists g', st'. split; [reflexivity|]. intros ->.
  apply (f_equal graphOf) in Hstep. vm_compute in Hstep. discriminate Hstep.
Qed.

(** What a step leaves of the graph it is given. *)
Lemma step_graph_frame (g g' : Graph) (st st' : AlgorithmState) :
  stepAlgorithm g st = Returns (g', st') ->
  map eraseLabel (nodes g') = map eraseLabel (nodes g) /\
  map eraseFlow (edges g') = map eraseFlow (edges g) /\
  (phase st <> AUGMENTING -> edges g' = edges g) /\
  (phase st = AUGMENTING -> nodes g' = nodes g).
Proof.
  destruct (phase st) eqn:Hph.
  - rewrite step_start_round by (left; exact Hph). unfold startRound.
    destruct (find _ (nodes g)); intros [= <- <-]; simpl;
      repeat split; auto using clearLabels_topology; discriminate.
  - destruct (queue st) as [|uId rest] eqn:Hq.
    + unfold stepAlgorithm. rewrite Hph, Hq. intros [= <- <-].
      repeat split; auto; discriminate.
    + rewrite (step_labeling g st uId rest Hph Hq).
      destruct (expand uId _ (edges g) _) as [ex2| |] eqn:Hex; simpl;
        try discriminate.
      assert (Htop : map eraseLabel (newNodes ex2) = map eraseLabel (nodes g)).
      { eapply (expand_invariant
                  (fun ex => map eraseLabel (newNodes ex)
                             = map eraseLabel (nodes g))) in Hex;
          [exact Hex | | | reflexivity].
        - intros e ex ex' _ IH Hfw.
          rewrite (forwardCheck_topology _ _ _ _ _ Hfw). exact IH.
        - intros e ex ex' _ IH Hbw.
          rewrite (backwardCheck_topology _ _ _ _ _ Hbw). exact IH. }
      destruct (sinkReached ex2); intros [= <- <-]; simpl;
        repeat split; auto; discriminate.
  - unfold stepAlgorithm. rewrite Hph.
    destruct (pathFound st) as [path|], (bottleneck st) as [bn|];
      intros [= <- <-]; simpl;
      repeat split; auto using augmentPath_topology; intros []; reflexivity.
  - rewrite step_start_round by (right; exact Hph). unfold startRound.
    destruct (find _ (nodes g)); intros [= <- <-]; simpl;
      repeat split; auto using clearLabels_topology; discriminate.
Qed.

(** C9, amended. Whatever the phase, the graph a step returns has the
    nodes of the input in the same order with at most their [label] fields
    changed, and the edges of the input in the same order with at most
    their [flow] fields changed: nothing is added or removed.  The edge list
    is the input's own outside AUGMENTING, and the node list is the input's
    own in AUGMENTING. *)
Theorem step_frame (g g' : Graph) (st st' : AlgorithmState) :
  stepAlgorithm g st = Returns (g', st') ->
  map eraseLabel (nodes g') = map eraseLabel (nodes g) /\
  map eraseFlow (edges g') = map eraseFlow (edges g) /\
  (phase st <> AUGMENTING -> edges g' = edges g) /\
  (phase st = AUGMENTING -> nodes g' = nodes g).
Proof. apply step_graph_frame. Qed.

Lemma step_frame_witness :
  exists g' st',
    stepAlgorithm INITIAL_GRAPH initializeAlgorithm = Returns (g', st') /\
    map eraseLabel (nodes g') = map eraseLabel (nodes INITIAL_GRAPH) /\
    edges g' = edges INITIAL_GRAPH.
Proof.
  destruct (stepAlgorithm INITIAL_GRAPH initializeAlgorithm)
    as [[g' st']| |] eqn:Hstep; try (vm_compute in Hstep; discriminate Hstep).
  exists g', st'. split; [reflexivity|].
  destruct (step_frame _ _ _ _ Hstep) as (Hn & _ & He & _).
  split; [exact Hn|]. apply He. simpl. discriminate.
Defined.

(** ** C10: a path step with no edge *)

Lemma findIndex_no_edge (es : list Edge) (a b : string) :
  ~ hasEdge es a b ->
  findIndex (fun e => String.eqb (source e) a && String.eqb (target e) b) es
  = None.
Proof.
  intros Hno.
  destruct (findIndex _ es) as [[i e]|] eqn:Hf; [|reflexivity].
  apply findIndex_Some in Hf. destruct Hf as [Hlk Hp].
  apply andb_true_iff in Hp. destruct Hp as [Hs Ht].
  apply String.eqb_eq in Hs, Ht. exfalso. apply Hno.
  unfold hasEdge. apply list_elem_of_In, in_map_iff.
  exists e. split; [unfold endpoints; congruence|].
  apply list_elem_of_In. eapply list_elem_of_lookup_2. exact Hlk.
Qed.

Lemma augmentPair_no_edge (bn : Z) (a b : string) (es : list Edge) :
  ~ hasEdge es a b -> ~ hasEdge es b a -> augmentPair bn a b es = es.
Proof.
  intros Hab Hba. unfold augmentPair.
  rewrite (findIndex_no_edge _ _ _ Hab), (findIndex_no_edge _ _ _ Hba).
  reflexivity.
Qed.

Lemma map_endpoints_eraseFlow (es : list Edge) :
  map endpoints (map eraseFlow es) = map endpoints es.
Proof. rewrite map_map. apply map_ext. intros e. reflexivity. Qed.

Lemma hasEdge_augmentPath (bn : Z) (path : list string) (es : list Edge)
    (a b : string) :
  hasEdge (augmentPath bn path es) a b <-> hasEdge es a b.
Proof.
  unfold hasEdge.
  rewrite <- (map_endpoints_eraseFlow (augmentPath bn path es)).
  rewrite augmentPath_topology, map_endpoints_eraseFlow. reflexivity.
Qed.

Lemma augmentPath_split (bn : Z) (pre post : list string) (a b : string)
    (es : list Edge) :
  augmentPath bn (pre ++ a :: b :: post) es
  = augmentPath bn (b :: post)
      (augmentPair bn a b (augmentPath bn (pre ++ [a]) es)).
Proof.
  revert es. induction pre as [|p pre IH]; intros es; [reflexivity|].
  destruct pre as [|q pre]; [reflexivity|].
  exact (IH (augmentPair bn p q es)).
Qed.

(** C10. An AUGMENTING step with a path and a bottleneck always returns:
    the phase becomes IDLE, [bottleneck] is added to [maxFlow], [pathFound]
    and [bottleneck] are cleared and one log line is added.  A pair
    [(a, b)] of the path for which the edge list has neither an edge
    [a -> b] nor an edge [b -> a] changes no flow: the returned edges are
    those obtained from the path before the pair and the path after it. *)
Theorem augmenting_ignores_missing_edge (g : Graph) (st : AlgorithmState)
    (path : list string) (bn : Z) :
  phase st = AUGMENTING ->
  pathFound st = Some path ->
  bottleneck st = Some bn ->
  stepAlgorithm g st =
    Returns
      ({| nodes := nodes g; edges := augmentPath bn path (edges g) |},
       {| phase := IDLE;
          queue := queue st;
          pathFound := None;
          bottleneck := None;
          visited := visited st;
          maxFlow := maxFlow st + bn;
          logs := logs st
                  ++ ["已沿路径增广流量 " +:+ pretty bn
                      +:+ "。当前最大流: " +:+ pretty (maxFlow st + bn)
                      +:+ "。清除标号，准备下一轮..."] |}) /\
  forall pre a b post,
    path = pre ++ a :: b :: post ->
    ~ hasEdge (edges g) a b ->
    ~ hasEdge (edges g) b a ->
    augmentPath bn path (edges g)
    = augmentPath bn (b :: post) (augmentPath bn (pre ++ [a]) (edges g)).
Proof.
  intros Hph Hpath Hbn. split.
  - unfold stepAlgorithm. rewrite Hph, Hpath, Hbn. reflexivity.
  - intros pre a b post -> Hab Hba. rewrite augmentPath_split.
    rewrite augmentPair_no_edge; [reflexivity| |];
      rewrite hasEdge_augmentPath; assumption.
Qed.

Lemma augmenting_ignores_missing_edge_witness :
  graphOf (stepAlgorithm INITIAL_GRAPH strayAugmenting) = Some INITIAL_GRAPH /\
  phaseOf (stepAlgorithm INITIAL_GRAPH strayAugmenting) = Some IDLE.
Proof.
  destruct (augmenting_ignores_missing_edge INITIAL_GRAPH strayAugmenting
              ["s"; "t"] 5 eq_refl eq_refl eq_refl) as [Hstep Hskip].
  rewrite Hstep. split; [|reflexivity]. unfold graphOf.
  rewrite (Hskip [] "s" "t" [] eq_refl).
  - reflexivity.
  - unfold hasEdge. vm_compute. intros H. apply list_elem_of_In in H.
    simpl in H. intuition discriminate.
  - unfold hasEdge. vm_compute. intros H. apply list_elem_of_In in H.
    simpl in H. intuition discriminate.
Defined.

(** ** C7: [maxFlow] never decreases *)

Lemma min_flow_positive (lf : LabelFlow) (n : Z) :
  flow_positive lf -> 0 < n -> 0 < min_flow lf n.
Proof. destruct lf as [a|]; simpl; lia. Qed.

Lemma clearLabels_positive (ns : list Node) :
  Forall label_positive (clearLabels ns).
Proof.
  unfold clearLabels. apply Forall_forall. intros n Hn.
  apply list_elem_of_In, in_map_iff in Hn. destruct Hn as (m & <- & _).
  intros l. simpl. destruct (truthy (isSource m)); intros [= <-]. exact I.
Qed.

Lemma labelNode_positive uId (u : option Node) targetId dir fa
    (ex ex' : Expansion) :
  (forall un, u = Some un -> label_positive un) ->
  0 < fa ->
  expansion_positive ex ->
  labelNode uId u targetId dir fa ex = Returns ex' ->
  expansion_positive ex'.
Proof.
  intros Hu Hfa [Hns Hbn] H. apply labelNode_Returns in H.
  destruct H as [-> | (i & tn & un & lu & _ & _ & _ & Hun & Hlu & Hnew
                        & _ & _ & _ & Hb)]; [split; assumption|].
  assert (Hpos : 0 < min_flow (label_flow lu) fa).
  { apply min_flow_positive; [|exact Hfa]. exact (Hu un Hun lu Hlu). }
  split.
  - rewrite Hnew. apply Forall_insert; [exact Hns|].
    intros l. simpl. intros [= <-]. exact Hpos.
  - intros bn Hbn'. destruct Hb as [Hb | Hb]; rewrite Hb in Hbn'.
    + apply Hbn. exact Hbn'.
    + injection Hbn' as <-. exact Hpos.
Qed.

Lemma expand_positive (g : Graph) (uId : string) (ex0 ex2 : Expansion) :
  Forall label_positive (nodes g) ->
  expansion_positive ex0 ->
  expand uId (find (fun n => String.eqb (node_id n) uId) (nodes g))
    (edges g) ex0 = Returns ex2 ->
  expansion_positive ex2.
Proof.
  intros Hg H0 Hex.
  assert (Hu : forall un,
             find (fun n => String.eqb (node_id n) uId) (nodes g) = Some un ->
             label_positive un).
  { intros un Hf. apply find_some in Hf. destruct Hf as [Hin _].
    rewrite Forall_forall in Hg. apply Hg, list_elem_of_In, Hin. }
  eapply (expand_invariant expansion_positive) in Hex;
    [exact Hex | | | exact H0].
  - intros e ex ex' _ Hp. unfold forwardCheck.
    destruct (negb (sinkReached ex) && (flow e <? capacity e)) eqn:Hc.
    + apply andb_true_iff in Hc. destruct Hc as [_ Hlt].
      apply Z.ltb_lt in Hlt. apply labelNode_positive; [exact Hu|lia|exact Hp].
    + intros [= <-]. exact Hp.
  - intros e ex ex' _ Hp. unfold backwardCheck.
    destruct (negb (sinkReached ex) && (0 <? flow e)) eqn:Hc.
    + apply andb_true_iff in Hc. destruct Hc as [_ Hlt].
      apply Z.ltb_lt in Hlt. apply labelNode_positive; [exact Hu|lia|exact Hp].
    + intros [= <-]. exact Hp.
Qed.

(** One step changes [maxFlow] by the bottleneck it reads, if at all. *)
Lemma step_maxFlow (g g' : Graph) (st st' : AlgorithmState) :
  stepAlgorithm g st = Returns (g', st') ->
  maxFlow st' = maxFlow st \/
  (phase st = AUGMENTING /\
   exists bn, bottleneck st = Some bn /\ maxFlow st' = maxFlow st + bn).
Proof.
  destruct (phase st) eqn:Hph.
  - rewrite step_start_round by (left; exact Hph). unfold startRound.
    destruct (find _ (nodes g)); intros [= <- <-]; left; reflexivity.
  - destruct (queue st) as [|uId rest] eqn:Hq.
    + unfold stepAlgorithm. rewrite Hph, Hq. intros [= <- <-].
      left; reflexivity.
    + rewrite (step_labeling g st uId rest Hph Hq).
      destruct (expand uId _ (edges g) _) as [ex2| |]; simpl;
        try discriminate.
      destruct (sinkReached ex2); intros [= <- <-]; left; reflexivity.
  - unfold stepAlgorithm. rewrite Hph.
    destruct (pathFound st) as [path|], (bottleneck st) as [bn|];
      intros [= <- <-]; auto.
    right. split; [reflexivity|]. exists bn. split; reflexivity.
  - rewrite step_start_round by (right; exact Hph). unfold startRound.
    destruct (find _ (nodes g)); intros [= <- <-]; left; reflexivity.
Qed.

Lemma step_maxFlow_le (g g' : Graph) (st st' : AlgorithmState) :
  bottleneck_nonneg st ->
  stepAlgorithm g st = Returns (g', st') ->
  maxFlow st <= maxFlow st'.
Proof.
  intros Hbn Hstep. apply step_maxFlow in Hstep.
  destruct Hstep as [-> | (_ & bn & Hb & ->)]; [lia|].
  specialize (Hbn bn Hb). lia.
Qed.

Lemma step_engine_inv (g g' : Graph) (st st' : AlgorithmState) :
  engine_inv g st ->
  stepAlgorithm g st = Returns (g', st') ->
  engine_inv g' st'.
Proof.
  intros [Hlab Haug]. destruct (phase st) eqn:Hph.
  - rewrite step_start_round by (left; exact Hph). unfold startRound.
    destruct (find _ (nodes g)); intros [= <- <-]; split; simpl;
      try rewrite Hph; try discriminate; auto using clearLabels_positive.
  - destruct (queue st) as [|uId rest] eqn:Hq.
    + unfold stepAlgorithm. rewrite Hph, Hq. intros [= <- <-].
      split; simpl; discriminate.
    + rewrite (step_labeling g st uId rest Hph Hq).
      destruct (expand uId _ (edges g) _) as [ex2| |] eqn:Hex; simpl;
        try discriminate.
      apply expand_positive in Hex; [|auto|split; [simpl; auto|discriminate]].
      destruct Hex as [Hns Hbn].
      destruct (sinkReached ex2); intros [= <- <-]; split; simpl;
        try discriminate; auto.
      intros _ bn Hb. simpl in Hb. apply Hbn in Hb. lia.
  - unfold stepAlgorithm. rewrite Hph.
    destruct (pathFound st) as [path|], (bottleneck st) as [bn|];
      intros [= <- <-]; split; simpl; try rewrite Hph; try discriminate; auto.
  - rewrite step_start_round by (right; exact Hph). unfold startRound.
    destruct (find _ (nodes g)); intros [= <- <-]; split; simpl;
      try rewrite Hph; try discriminate; auto using clearLabels_positive.
Qed.

Lemma engine_inv_bottleneck (g : Graph) (st : AlgorithmState) :
  engine_inv g st -> phase st = AUGMENTING -> bottleneck_nonneg st.
Proof. intros [_ H]. exact H. Qed.

Lemma run_maxFlow_le (n : nat) (g g' : Graph) (st st' : AlgorithmState) :
  engine_inv g st ->
  run n g st = Returns (g', st') ->
  maxFlow st <= maxFlow st'.
Proof.
  revert g st. induction n as [|n IH]; intros g st Hinv; simpl.
  - intros [= <- <-]. lia.
  - destruct (stepAlgorithm g st) as [[g1 st1]| |] eqn:Hstep; simpl;
      try discriminate.
    intros Hrun.
    assert (Hle : maxFlow st <= maxFlow st1).
    { destruct (step_maxFlow _ _ _ _ Hstep) as [-> | (Hph & bn & Hb & ->)];
        [lia|].
      pose proof (engine_inv_bottleneck g st Hinv Hph bn Hb). lia. }
    specialize (IH g1 st1 (step_engine_inv _ _ _ _ Hinv Hstep) Hrun). lia.
Qed.

Lemma engine_inv_between_rounds (g : Graph) (st : AlgorithmState) :
  phase st = IDLE \/ phase st = FINISHED -> engine_inv g st.
Proof. intros [H | H]; split; rewrite H; discriminate. Qed.



(** ** C5: one expansion of the front of the queue *)

Lemma arcCheck_sink uId u guard toward dir residual (e : Edge)
    (ex : Expansion) :
  sinkReached ex = true ->
  arcCheck uId u guard toward dir residual e ex = Returns ex.
Proof. intros Hs. unfold arcCheck. rewrite Hs. reflexivity. Qed.

Lemma forEach_arcCheck_sink uId u guard toward dir residual
    (l : list Edge) (ex : Expansion) :
  sinkReached ex = true ->
  forEach (arcCheck uId u guard toward dir residual) l ex = Returns ex.
Proof.
  intros Hs. induction l as [|e l IH]; [reflexivity|].
  cbn [forEach]. rewrite arcCheck_sink by exact Hs. exact IH.
Qed.

Lemma labelNeighbors_sink uId uflow arcs (L : Labeling) (tn : Node) :
  lab_sink L = Some tn -> labelNeighbors uId uflow arcs L = L.
Proof.
  intros Hs. destruct arcs as [|[[v dir] r] arcs]; simpl; [reflexivity|].
  rewrite Hs. reflexivity.
Qed.

Lemma labelNeighbors_app uId uflow (arcs1 arcs2 : list ResidualArc)
    (L : Labeling) :
  labelNeighbors uId uflow (arcs1 ++ arcs2) L
  = labelNeighbors uId uflow arcs2 (labelNeighbors uId uflow arcs1 L).
Proof.
  revert L. induction arcs1 as [|[[v dir] r] arcs1 IH]; intros L; simpl;
    [reflexivity|].
  destruct (lab_sink L) as [tn|] eqn:Hs.
  - symmetry. eapply labelNeighbors_sink. exact Hs.
  - destruct (decide (v ∈ lab_visited L)); [apply IH|].
    destruct (findIndex _ (lab_nodes L)) as [[j tn]|]; apply IH.
Qed.

Lemma bind_Returns {A : Type} (o : Outcome A) : (a ← o; Returns a) = o.
Proof. destruct o; reflexivity. Qed.

(** [labelNode], when it labels, produces the closure variables of the
    extended labeling. *)
Lemma labelNode_expansionOf uId (un : Node) (lu : Label) (rest : list string)
    (L : Labeling) (v : string) (dir : Direction) (r : Z) (i : nat)
    (tn : Node) (ex0 : Expansion) :
  label un = Some lu ->
  lab_sink L = None ->
  expansionOf rest L = Returns ex0 ->
  v ∉ lab_visited L ->
  findIndex (fun n => String.eqb (node_id n) v) (lab_nodes L) = Some (i, tn) ->
  labelNode uId (Some un) v dir r ex0
  = expansionOf rest
      {| lab_nodes :=
           <[i := set_label tn
                    (Some {| prevNodeId := Some uId; direction := dir;
                             label_flow := Finite (min_flow (label_flow lu) r) |})]>
             (lab_nodes L);
         lab_visited := {[v]} ∪ lab_visited L;
         lab_new := lab_new L ++ [v];
         lab_sink :=
           if truthy (isSink tn)
           then Some (set_label tn
                        (Some {| prevNodeId := Some uId; direction := dir;
                                 label_flow :=
                                   Finite (min_flow (label_flow lu) r) |}))
           else None |}.
Proof.
  intros Hlu Hs Hex Hvis Hfi. unfold expansionOf in Hex. rewrite Hs in Hex.
  injection Hex as <-. unfold labelNode. cbn [newNodes newVisited newQueue].
  rewrite Hfi. rewrite bool_decide_eq_false_2 by exact Hvis. rewrite Hlu.
  cbv zeta. unfold expansionOf. cbn [lab_sink lab_nodes lab_visited lab_new].
  assert (Hid : node_id tn = v).
  { apply findIndex_Some in Hfi. destruct Hfi as [_ Hid].
    apply String.eqb_eq in Hid. exact Hid. }
  change (isSink (set_label tn _)) with (isSink tn).
  destruct (truthy (isSink tn)).
  - change (node_id (set_label tn _)) with (node_id tn). rewrite Hid.
    rewrite app_assoc. reflexivity.
  - cbn [sinkReached newPath newBottleneck]. rewrite app_assoc.
    destruct (lab_new L); reflexivity.
Qed.

Lemma forEach_arcCheck_labelNeighbors uId (un : Node) (lu : Label)
    (rest : list string) (guard : Edge -> bool) (toward : Edge -> string)
    (dir : Direction) (residual : Edge -> Z) (l : list Edge) (L : Labeling) :
  label un = Some lu ->
  (ex ← expansionOf rest L;
   forEach (arcCheck uId (Some un) guard toward dir residual) l ex)
  = expansionOf rest
      (labelNeighbors uId (label_flow lu)
         (map (fun e => (toward e, dir, residual e))
              (filter (fun e => guard e = true) l))
         L).
Proof.
  intros Hlu. revert L. induction l as [|e l IH]; intros L.
  - simpl. apply bind_Returns.
  - destruct (lab_sink L) as [sn|] eqn:Hs.
    + rewrite (labelNeighbors_sink _ _ _ L sn Hs).
      unfold expansionOf. rewrite Hs.
      destruct (backtrack _ _ _ _) as [path| |]; try reflexivity.
      apply forEach_arcCheck_sink. reflexivity.
    + destruct (expansionOf rest L) as [ex0| |] eqn:Hex;
        try (unfold expansionOf in Hex; rewrite Hs in Hex; discriminate Hex).
      assert (Hsr : sinkReached ex0 = false).
      { unfold expansionOf in Hex. rewrite Hs in Hex. injection Hex as <-.
        reflexivity. }
      assert (Hskip : forEach (arcCheck uId (Some un) guard toward dir residual)
                        l ex0
                      = expansionOf rest
                          (labelNeighbors uId (label_flow lu)
                             (map (fun e => (toward e, dir, residual e))
                                  (filter (fun e => guard e = true) l)) L)).
      { rewrite <- IH, Hex. reflexivity. }
      change (Returns ex0 ≫= _)
        with (forEach (arcCheck uId (Some un) guard toward dir residual)
                (e :: l) ex0).
      cbn [forEach]. unfold arcCheck at 2. rewrite Hsr. cbn [negb andb].
      rewrite filter_cons.
      destruct (guard e) eqn:Hg.
      * rewrite decide_True by reflexivity. cbn [map labelNeighbors].
        rewrite Hs.
        destruct (decide (toward e ∈ lab_visited L)) as [Hin | Hnin].
        { unfold labelNode.
          destruct (findIndex _ (newNodes ex0)) as [[j tn]|];
            [|exact Hskip].
          assert (Hv : newVisited ex0 = lab_visited L).
          { unfold expansionOf in Hex. rewrite Hs in Hex.
            injection Hex as <-. reflexivity. }
          rewrite Hv, bool_decide_eq_true_2 by exact Hin. exact Hskip. }
        assert (Hn : newNodes ex0 = lab_nodes L).
        { unfold expansionOf in Hex. rewrite Hs in Hex.
          injection Hex as <-. reflexivity. }
        destruct (findIndex (fun n => String.eqb (node_id n) (toward e))
                    (lab_nodes L)) as [[j tn]|] eqn:Hfi.
        { rewrite (labelNode_expansionOf uId un lu rest L (toward e) dir
                     (residual e) j tn ex0 Hlu Hs Hex Hnin Hfi).
          apply IH. }
        unfold labelNode. rewrite Hn, Hfi. exact Hskip.
      * rewrite decide_False by discriminate. exact Hskip.
Qed.

Lemma forward_arcs (es : list Edge) (uId : string) :
  map (fun e => (target e, Plus, capacity e - flow e))
      (filter (fun e => (flow e <? capacity e) = true)
              (filter (fun e => source e = uId) es))
  = forwardResidual es uId.
Proof.
  unfold forwardResidual. f_equal. rewrite list_filter_filter.
  apply list_filter_iff. intros e. rewrite Z.ltb_lt. tauto.
Qed.

Lemma backward_arcs (es : list Edge) (uId : string) :
  map (fun e => (source e, Minus, flow e))
      (filter (fun e => (0 <? flow e) = true)
              (filter (fun e => target e = uId) es))
  = backwardResidual es uId.
Proof.
  unfold backwardResidual. f_equal. rewrite list_filter_filter.
  apply list_filter_iff. intros e. rewrite Z.ltb_lt. tauto.
Qed.

Lemma expand_labelNeighbors (es : list Edge) (uId : string) (un : Node)
    (lu : Label) (rest : list string) (L : Labeling) :
  label un = Some lu ->
  (ex ← expansionOf rest L; expand uId (Some un) es ex)
  = expansionOf rest
      (labelNeighbors uId (label_flow lu) (residualArcs es uId) L).
Proof.
  intros Hlu. unfold residualArcs. rewrite labelNeighbors_app.
  rewrite <- forward_arcs, <- backward_arcs.
  rewrite <- (forEach_arcCheck_labelNeighbors uId un lu rest
                (fun e => 0 <? flow e) source Minus flow _ _ Hlu).
  rewrite <- (forEach_arcCheck_labelNeighbors uId un lu rest
                (fun e => flow e <? capacity e) target Plus
                (fun e => capacity e - flow e) _ _ Hlu).
  unfold expand.
  destruct (expansionOf rest L) as [ex| |]; reflexivity.
Qed.

(** The LABELING step in terms of [labelNeighbors]. *)
Lemma step_labeling_labelNeighbors (g : Graph) (st : AlgorithmState)
    (uId : string) (rest : list string) (un : Node) (lu : Label) :
  phase st = LABELING ->
  queue st = uId :: rest ->
  find (fun n => String.eqb (node_id n) uId) (nodes g) = Some un ->
  label un = Some lu ->
  let L := labelNeighbors uId (label_flow lu) (residualArcs (edges g) uId)
             {| lab_nodes := nodes g; lab_visited := visited st;
                lab_new := []; lab_sink := None |} in
  stepAlgorithm g st =
  match lab_sink L with
  | None =>
      Returns
        ({| nodes := lab_nodes L; edges := edges g |},
         {| phase := LABELING;
            queue := rest ++ lab_new L;
            pathFound := pathFound st;
            bottleneck := bottleneck st;
            visited := lab_visited L;
            maxFlow := maxFlow st;
            logs := match lab_new L with
                    | [] => logs st
                    | _ => logs st ++ ["已检查节点 " +:+ uId
                                       +:+ " 并标记了其邻居。"]
                    end |})
  | Some tn =>
      path ← backtrack (S (length (lab_nodes L))) (lab_nodes L) tn [node_id tn];
      Returns
        ({| nodes := lab_nodes L; edges := edges g |},
         {| phase := AUGMENTING;
            queue := [];
            pathFound := Some path;
            bottleneck := sinkFlow tn;
            visited := lab_visited L;
            maxFlow := maxFlow st;
            logs := logs st
                    ++ ["汇点 (t) 已标号！发现增广路径，可增广量 "
                        +:+ from_option pretty "null" (sinkFlow tn)
                        +:+ "。"] |})
  end.
Proof.
  intros Hph Hq Hu Hlu L.
  rewrite (step_labeling g st uId rest Hph Hq), Hu.
  pose (L0 := {| lab_nodes := nodes g; lab_visited := visited st;
                 lab_new := []; lab_sink := None |}).
  assert (H0 : expansionOf rest L0
               = Returns {| newQueue := rest; newNodes := nodes g;
                            newVisited := visited st; neighborsFound := false;
                            sinkReached := false; newPath := None;
                            newBottleneck := None |}).
  { unfold expansionOf, L0. simpl. rewrite app_nil_r. reflexivity. }
  pose proof (expand_labelNeighbors (edges g) uId un lu rest L0 Hlu) as Hex.
  rewrite H0 in Hex. change (Returns ?ex ≫= ?k) with (k ex) in Hex.
  cbv beta in Hex. rewrite Hex. subst L0. fold L. unfold expansionOf.
  destruct (lab_sink L) as [tn|].
  - destruct (backtrack _ _ _ _) as [path| |]; reflexivity.
  - simpl. destruct (lab_new L); reflexivity.
Qed.



(** ** C2: an edge loaded beyond its capacity *)

(** C2 on [crossGraph], whose flows are all zero at the start.  The third
    round reaches [v3] from [v2] against the flow of [v3 -> v2], and the
    AUGMENTING step that follows adds the bottleneck to the saturated edge
    [v2 -> v3] instead: after twenty steps [e6] carries 2 with capacity 1. *)
Theorem capacity_exceeded_on_crossGraph :
  capacityInvariant crossGraph /\
  edgeLoads (run 20 crossGraph initializeAlgorithm)
  = Some [ ("e1", 1, 1); ("e2", 1, 1); ("e3", 1, 1); ("e4", 2, 3);
           ("e5", 2, 3); ("e6", 2, 1); ("e7", 2, 3); ("e8", 2, 3) ] /\
  exists g' st',
    run 20 crossGraph initializeAlgorithm = Returns (g', st') /\
    ~ capacityInvariant g'.
Proof.
  split; [|split].
  - unfold capacityInvariant, crossGraph. simpl.
    repeat constructor; simpl; lia.
  - vm_compute. reflexivity.
  - destruct (run 20 crossGraph initializeAlgorithm) as [[g' st']| |] eqn:Hrun;
      try (vm_compute in Hrun; discriminate Hrun).
    exists g', st'. split; [reflexivity|].
    vm_compute in Hrun. injection Hrun as <- _.
    unfold capacityInvariant. cbn [edges]. rewrite !Forall_cons.
    cbn [flow capacity]. lia.
Qed.

(** ** C3: the walk back from the sink stops at the id [s] *)

(** C3 where the source is not the node [s].  On the initial graph with
    [v1] made the source, the step that labels the sink walks back to [v1],
    whose label has no predecessor, and raises instead of returning a path.
    On [tailGraph] the walk stops at the node [s] it meets on the way: the
    path returned starts at [s], not at the source [v1]. *)
Theorem backtrack_misses_the_source :
  sourceId (setSource "v1" INITIAL_GRAPH) = Some "v1" /\
  progress (run 3 (setSource "v1" INITIAL_GRAPH) initializeAlgorithm)
  = Some (LABELING, ["v3"; "v4"], None, None, 0) /\
  run 4 (setSource "v1" INITIAL_GRAPH) initializeAlgorithm = Throws /\
  sourceId tailGraph = Some "v1" /\
  progress (run 3 tailGraph initializeAlgorithm)
  = Some (AUGMENTING, [], Some ["s"; "t"], Some 1, 0).
Proof. repeat split; vm_compute; reflexivity. Qed.

(** ** C4: a bottleneck that is not the minimum along the path *)

Lemma residualStep_inv (es : list Edge) (a b : string) (r : Z) :
  residualStep es a b r ->
  exists e, e ∈ es /\
    ((source e = a /\ target e = b /\ flow e < capacity e
      /\ r = capacity e - flow e) \/
     (source e = b /\ target e = a /\ 0 < flow e /\ r = flow e)).
Proof.
  intros [e He Hs Ht Hlt | e He Hs Ht Hlt]; exists e; split; auto 6.
Qed.

(** C4 on [tailGraph].  The state reached after three steps is AUGMENTING
    with the path [s, t] and the bottleneck 1, the flow of the sink's
    label; the only residual step from [s] to [t] is worth 5, so the
    bottleneck is not the least residual capacity along the path. *)
Theorem bottleneck_not_path_minimum :
  exists g' st',
    run 3 tailGraph initializeAlgorithm = Returns (g', st') /\
    phase st' = AUGMENTING /\
    pathFound st' = Some ["s"; "t"] /\
    bottleneck st' = Some 1 /\
    option_map (fun n => sinkFlow n)
      (find (fun n => truthy (isSink n)) (nodes g')) = Some (Some 1) /\
    residualStep (edges g') "s" "t" 5 /\
    ~ pathValid (edges g') ["s"; "t"] 1.
Proof.
  destruct (run 3 tailGraph initializeAlgorithm) as [[g' st']| |] eqn:Hrun;
    try (vm_compute in Hrun; discriminate Hrun).
  exists g', st'. split; [reflexivity|].
  vm_compute in Hrun. injection Hrun as <- <-.
  repeat split.
  - apply (forwardStep _ "s" "t"
             {| edge_id := "e2"; source := "s"; target := "t";
                capacity := 5; flow := 0 |});
      [cbn [edges]; apply list_elem_of_In; simpl; auto | reflexivity
      | reflexivity | simpl; lia].
  - intros (rs & Hp & Hin & _).
    inversion Hp as [|a b rest r rs' Hstep Hrest]; subst.
    inversion Hrest; subst.
    apply list_elem_of_In in Hin. simpl in Hin.
    destruct Hin as [Hr1 | []]. subst r.
    apply residualStep_inv in Hstep. destruct Hstep as (e & He & Hcases).
    cbn [edges] in He. apply list_elem_of_In in He. simpl in He.
    destruct He as [He | [He | []]]; subst e; simpl in Hcases;
      destruct Hcases as [(Hs & _ & _ & Hr) | (_ & _ & Hlt & _)];
      try discriminate; lia.
Qed.

(** ** C6: FINISHED with a total above the minimum cut *)

(** C6 on [crossGraph].  The run reaches FINISHED after thirty steps with
    [maxFlow] 4, while the least capacity of a cut between [s] and [t] is
    3 (the cut around [s], [v1] and [v2]); the edge [e6] then carries 3
    with capacity 1. *)
Theorem finished_above_min_cut :
  progress (run 29 crossGraph initializeAlgorithm)
  = Some (LABELING, [], None, None, 4) /\
  progress (run 30 crossGraph initializeAlgorithm)
  = Some (FINISHED, [], None, None, 4) /\
  edgeLoads (run 30 crossGraph initializeAlgorithm)
  = Some [ ("e1", 1, 1); ("e2", 1, 1); ("e3", 1, 1); ("e4", 3, 3);
           ("e5", 3, 3); ("e6", 3, 1); ("e7", 3, 3); ("e8", 3, 3) ] /\
  cutCapacity (edges crossGraph) ["s"; "v1"; "v2"] = 3 /\
  minCutCapacity crossGraph "s" "t" = 3.
Proof. repeat split; vm_compute; reflexivity. Qed.

(** ** The bound of the walk back from the sink *)

Lemma chain_det (ns : list Node) (c : Node) (l1 l2 : list Node) :
  chain ns c l1 -> chain ns c l2 -> l1 = l2.
Proof.
  intros H1. revert l2. induction H1 as [c Hc | c c' l Hc _ IH];
    intros l2 H2; destruct H2 as [d Hd | d d' l' Hd Hl']; try congruence.
  assert (c' = d') by congruence. subst d'. f_equal. apply IH. exact Hl'.
Qed.

Lemma chain_suffix (ns : list Node) (c d : Node) (l l1 l2 : list Node) :
  chain ns c l -> l = l1 ++ d :: l2 -> chain ns d l2.
Proof.
  intros H. revert l1. induction H as [c Hc | c c' l Hc Hl IH]; intros l1 Heq.
  - destruct l1; discriminate Heq.
  - destruct l1 as [|x l1]; simpl in Heq; injection Heq as -> ->.
    + exact Hl.
    + apply (IH l1). reflexivity.
Qed.

Lemma nextNode_elem (ns : list Node) (c c' : Node) :
  nextNode ns c = Some c' -> c' ∈ ns.
Proof.
  unfold nextNode. destruct (String.eqb _ _); [discriminate|].
  destruct (label c) as [l|]; [|discriminate].
  destruct (prevNodeId l) as [p|]; [|discriminate].
  intros Hf. apply find_some in Hf. apply list_elem_of_In, Hf.
Qed.

Lemma chain_elem (ns : list Node) (c : Node) (l : list Node) :
  chain ns c l -> forall d, d ∈ l -> d ∈ ns.
Proof.
  induction 1 as [c Hc | c c' l Hc _ IH]; intros d Hd.
  - apply elem_of_nil in Hd. destruct Hd.
  - apply elem_of_cons in Hd. destruct Hd as [-> | Hd]; [|apply IH, Hd].
    eapply nextNode_elem. exact Hc.
Qed.

Lemma chain_NoDup (ns : list Node) (c : Node) (l : list Node) :
  chain ns c l -> NoDup l.
Proof.
  induction 1 as [c Hc | c c' l Hc Hl IH]; constructor; [|exact IH].
  intros Hin. apply list_elem_of_split in Hin.
  destruct Hin as (l1 & l2 & Heq).
  pose proof (chain_suffix ns c' c' l l1 l2 Hl Heq) as Hsuf.
  pose proof (chain_det ns c' l l2 Hl Hsuf) as Hsame.
  apply (f_equal length) in Heq. rewrite length_app in Heq. simpl in Heq.
  rewrite Hsame in Heq. lia.
Qed.

Lemma chain_length (ns : list Node) (c : Node) (l : list Node) :
  chain ns c l -> (length l <= length ns)%nat.
Proof.
  intros H. apply submseteq_length, NoDup_submseteq.
  - eapply chain_NoDup. exact H.
  - eapply chain_elem. exact H.
Qed.

Lemma backtrack_chain (fuel : nat) (ns : list Node) (c : Node)
    (path : list string) :
  backtrack fuel ns c path <> Diverges -> exists l, chain ns c l.
Proof.
  revert c path. induction fuel as [|fuel IH]; intros c path; simpl.
  - destruct (String.eqb (node_id c) "s") eqn:Hs; [|congruence].
    intros _. exists []. constructor. unfold nextNode. rewrite Hs. reflexivity.
  - destruct (String.eqb (node_id c) "s") eqn:Hs.
    { intros _. exists []. constructor. unfold nextNode. rewrite Hs.
      reflexivity. }
    destruct (label c) as [lb|] eqn:Hl.
    2:{ intros _. exists []. constructor. unfold nextNode.
        rewrite Hs, Hl. reflexivity. }
    destruct (prevNodeId lb) as [p|] eqn:Hp.
    2:{ intros _. exists []. constructor. unfold nextNode.
        rewrite Hs, Hl, Hp. reflexivity. }
    destruct (find _ ns) as [c'|] eqn:Hf.
    2:{ intros _. exists []. constructor. unfold nextNode.
        rewrite Hs, Hl, Hp. exact Hf. }
    intros Hnd. destruct (IH c' (p :: path) Hnd) as [l Hch].
    exists (c' :: l). constructor; [|exact Hch].
    unfold nextNode. rewrite Hs, Hl, Hp. exact Hf.
Qed.

Lemma chain_backtrack (ns : list Node) (c : Node) (l : list Node) :
  chain ns c l ->
  forall fuel path,
    (length l < fuel)%nat ->
    backtrack fuel ns c path = backtrack (S (length l)) ns c path /\
    backtrack fuel ns c path <> Diverges.
Proof.
  induction 1 as [c Hc | c c' l Hc _ IH]; intros fuel path Hlt;
    (destruct fuel as [|fuel]; [simpl in Hlt; lia|]);
    unfold nextNode in Hc; simpl;
    destruct (String.eqb (node_id c) "s"); try discriminate Hc;
    try (split; [reflexivity | discriminate]);
    destruct (label c) as [lb|]; try discriminate Hc;
    try (split; [reflexivity | discriminate]);
    destruct (prevNodeId lb) as [p|]; try discriminate Hc;
    try (split; [reflexivity | discriminate]);
    rewrite Hc; try (split; [reflexivity | discriminate]).
  apply IH. simpl in Hlt. lia.
Qed.

(** The bound [S (length ns)] of [labelNode] is enough: a loop that has not
    exited or raised within it never does, whatever the bound. *)
Lemma backtrack_bound (ns : list Node) (c : Node) (path : list string)
    (fuel : nat) :
  (S (length ns) <= fuel)%nat ->
  backtrack fuel ns c path = backtrack (S (length ns)) ns c path.
Proof.
  intros Hle.
  assert (Hsome : forall l, chain ns c l ->
            backtrack fuel ns c path = backtrack (S (length ns)) ns c path).
  { intros l Hch. pose proof (chain_length ns c l Hch) as Hlen.
    destruct (chain_backtrack ns c l Hch fuel path) as [-> _]; [lia|].
    destruct (chain_backtrack ns c l Hch (S (length ns)) path) as [-> _];
      [lia | reflexivity]. }
  destruct (backtrack fuel ns c path) as [p| |] eqn:Hf.
  - destruct (backtrack_chain fuel ns c path) as [l Hch];
      [rewrite Hf; discriminate|].
    exact (Hsome l Hch).
  - destruct (backtrack_chain fuel ns c path) as [l Hch];
      [rewrite Hf; discriminate|].
    exact (Hsome l Hch).
  - destruct (backtrack (S (length ns)) ns c path) as [p| |] eqn:Hb;
      try reflexivity;
      (destruct (backtrack_chain (S (length ns)) ns c path) as [l Hch];
       [rewrite Hb; discriminate|]);
      exact (Hsome l Hch).
Qed.

(** The loop of [labelNode] that walks back from the sink either exits or
    raises within [length ns + 1] iterations, or never does: beyond that
    bound the outcome no longer depends on the bound. *)
Theorem backtrack_outcome_is_bound_independent (ns : list Node) (c : Node)
    (path : list string) (fuel : nat) :
  (S (length ns) <= fuel)%nat ->
  backtrack fuel ns c path = backtrack (S (length ns)) ns c path.
Proof. apply backtrack_bound. Qed.

Lemma backtrack_outcome_is_bound_independent_example :
  backtrack 100 (nodes labeledInitial) (sinkNode "t" 700 300) ["t"]
  = backtrack 7 (nodes labeledInitial) (sinkNode "t" 700 300) ["t"].
Proof.
  apply (backtrack_outcome_is_bound_independent (nodes labeledInitial)
           (sinkNode "t" 700 300) ["t"] 100).
  simpl. lia.
Defined.

(** ** The transitions and scenarios of the specification *)

(** The initial state: phase IDLE, [maxFlow] 0, empty queue and visited
    set, one log line. *)
Lemma initializeAlgorithm_idle :
  phase initializeAlgorithm = IDLE /\
  maxFlow initializeAlgorithm = 0 /\
  queue initializeAlgorithm = [] /\
  visited initializeAlgorithm = ∅ /\
  pathFound initializeAlgorithm = None /\
  bottleneck initializeAlgorithm = None /\
  length (logs initializeAlgorithm) = 1%nat.
Proof. repeat split; reflexivity. Qed.

(** LABELING with an empty queue ends the algorithm: the graph is returned
    as it is, the phase becomes FINISHED and one log line reports
    [maxFlow]. *)
Lemma labeling_empty_queue_finishes (g : Graph) (st : AlgorithmState) :
  phase st = LABELING ->
  queue st = [] ->
  stepAlgorithm g st =
  Returns
    (g,
     {| phase := FINISHED;
        queue := [];
        pathFound := pathFound st;
        bottleneck := bottleneck st;
        visited := visited st;
        maxFlow := maxFlow st;
        logs := logs st
                ++ ["未找到更多增广路径。算法结束，最大流为 "
                    +:+ pretty (maxFlow st) +:+ "。"] |}).
Proof.
  intros Hph Hq. unfold stepAlgorithm. rewrite Hph, Hq. reflexivity.
Qed.

Lemma labeling_empty_queue_finishes_example :
  phaseOf (stepAlgorithm INITIAL_GRAPH
             {| phase := LABELING; queue := []; pathFound := None;
                bottleneck := None; visited := {["s"]}; maxFlow := 19;
                logs := [] |}) = Some FINISHED.
Proof.
  rewrite labeling_empty_queue_finishes by reflexivity. reflexivity.
Defined.

(** The end-to-end scenario: on the initial graph the engine goes through
    four augmentations and reaches FINISHED at the twenty-seventh step with
    [maxFlow] 19, the least capacity of a cut, every flow within its
    capacity. *)
Lemma initial_graph_reaches_19 :
  map (fun n => phaseOf (run n INITIAL_GRAPH initializeAlgorithm))
      [5; 11; 16; 22; 26; 27]%nat
  = [Some AUGMENTING; Some AUGMENTING; Some AUGMENTING; Some AUGMENTING;
     Some LABELING; Some FINISHED] /\
  progress (run 27 INITIAL_GRAPH initializeAlgorithm)
  = Some (FINISHED, [], None, None, 19) /\
  edgeLoads (run 27 INITIAL_GRAPH initializeAlgorithm)
  = Some [ ("e1", 10, 10); ("e2", 9, 10); ("e3", 0, 2); ("e4", 4, 4);
           ("e5", 6, 8); ("e6", 9, 9); ("e7", 5, 6); ("e8", 9, 10);
           ("e9", 10, 10) ] /\
  minCutCapacity INITIAL_GRAPH "s" "t" = 19 /\
  cutCapacity (edges INITIAL_GRAPH) ["s"; "v2"] = 19.
Proof. repeat split; vm_compute; reflexivity. Qed.

(** The forward-only scenario: one LABELING step finds the path [s, t]
    with bottleneck 5, the AUGMENTING step brings [maxFlow] to 5, and the
    next round ends in FINISHED. *)
Lemma direct_graph_scenario :
  map (fun n => progress (run n directGraph initializeAlgorithm))
      [1; 2; 3; 4; 5; 6]%nat
  = [ Some (LABELING, ["s"], None, None, 0);
      Some (AUGMENTING, [], Some ["s"; "t"], Some 5, 0);
      Some (IDLE, [], None, None, 5);
      Some (LABELING, ["s"], None, None, 5);
      Some (LABELING, [], None, None, 5);
      Some (FINISHED, [], None, None, 5) ].
Proof. vm_compute. reflexivity. Qed.

(** ** Path validity when the source is named [s] *)

Lemma findNode_id (ns : list Node) (v : string) (n : Node) :
  findNode ns v = Some n -> node_id n = v.
Proof.
  intros H. apply find_some in H. destruct H as [_ H].
  apply String.eqb_eq in H. exact H.
Qed.

Lemma findNode_elem (ns : list Node) (v : string) (n : Node) :
  findNode ns v = Some n -> n ∈ ns.
Proof.
  intros H. apply find_some in H. apply list_elem_of_In, H.
Qed.

Lemma findNode_insert_other (ns : list Node) (i : nat) (tn tn' : Node)
    (w : string) :
  ns !! i = Some tn ->
  node_id tn' = node_id tn ->
  node_id tn <> w ->
  findNode (<[i := tn']> ns) w = findNode ns w.
Proof.
  revert i. induction ns as [|a ns IH]; intros i Hlk Hid Hne; [reflexivity|].
  destruct i as [|i]; simpl in *.
  - injection Hlk as ->. unfold findNode. simpl.
    rewrite Hid. apply String.eqb_neq in Hne. rewrite Hne. reflexivity.
  - unfold findNode in *. simpl. destruct (String.eqb (node_id a) w);
      [reflexivity|]. apply IH; assumption.
Qed.

Lemma findNode_insert_first (ns : list Node) (i : nat) (tn tn' : Node)
    (v : string) :
  findIndex (fun n => String.eqb (node_id n) v) ns = Some (i, tn) ->
  node_id tn' = v ->
  findNode (<[i := tn']> ns) v = Some tn'.
Proof.
  revert i. induction ns as [|a ns IH]; intros i; simpl; [discriminate|].
  destruct (String.eqb (node_id a) v) eqn:Ha.
  - intros [= <- <-] Hid. unfold findNode. simpl.
    rewrite Hid, String.eqb_refl. reflexivity.
  - destruct (findIndex _ ns) as [[j b]|] eqn:Hf; [|discriminate].
    intros [= <- <-] Hid. unfold findNode. simpl. rewrite Ha.
    apply (IH j); [reflexivity | exact Hid].
Qed.

Lemma labelTree_insert (ns : list Node) (es : list Edge) (v : string)
    (path : list string) (m : Z) (i : nat) (tn tn' : Node) :
  labelTree ns es v path m ->
  ns !! i = Some tn ->
  node_id tn' = node_id tn ->
  node_id tn ∉ path ->
  labelTree (<[i := tn']> ns) es v path m.
Proof.
  intros Ht Hlk Hid. induction Ht as
      [v n root l r Hv Hn Hl Hp Hf Hroot Hres
      |v p n l path mp r Hv Hps Hn Hl Hp Hf Htp IH Hres Hfresh]; intros Hnotin.
  - apply (tree_first _ _ v n root l r); auto.
    + rewrite (findNode_insert_other ns i tn tn' v Hlk Hid); [exact Hn|].
      intros Heq. apply Hnotin. rewrite Heq. set_solver.
    + rewrite (findNode_insert_other ns i tn tn' "s" Hlk Hid); [exact Hroot|].
      intros Heq. apply Hnotin. rewrite Heq. set_solver.
  - apply (tree_next _ _ v p n l path mp r); auto.
    + rewrite (findNode_insert_other ns i tn tn' v Hlk Hid); [exact Hn|].
      intros Heq. apply Hnotin. rewrite Heq. set_solver.
    + apply IH. intros Hin. apply Hnotin. set_solver.
Qed.

Lemma labelTree_target (ns : list Node) (es : list Edge) (v : string)
    (path : list string) (m : Z) :
  labelTree ns es v path m ->
  v <> "s" /\ last path = Some v /\ head path = Some "s" /\
  exists n l, findNode ns v = Some n /\ label n = Some l /\
              label_flow l = Finite m.
Proof.
  induction 1 as
      [v n root l r Hv Hn Hl Hp Hf Hroot Hres
      |v p n l path mp r Hv Hps Hn Hl Hp Hf Htp IH Hres Hfresh].
  - repeat split; auto. exists n, l. auto.
  - destruct IH as (_ & _ & Hhd & _). repeat split; auto.
    + apply last_snoc.
    + destruct path; [discriminate Hhd|exact Hhd].
    + exists n, l. auto.
Qed.

Lemma labelTree_NoDup (ns : list Node) (es : list Edge) (v : string)
    (path : list string) (m : Z) :
  labelTree ns es v path m -> NoDup path.
Proof.
  induction 1 as
      [v n root l r Hv Hn Hl Hp Hf Hroot Hres
      |v p n l path mp r Hv Hps Hn Hl Hp Hf Htp IH Hres Hfresh].
  - constructor; [|constructor; [apply not_elem_of_nil | constructor]].
    intros Hin. apply list_elem_of_singleton in Hin. auto.
  - apply NoDup_app. split; [exact IH|]. split.
    + intros x Hx Hxv. apply list_elem_of_singleton in Hxv. subst x.
      exact (Hfresh Hx).
    + constructor; [apply not_elem_of_nil | constructor].
Qed.

Lemma pathResiduals_snoc (es : list Edge) (path : list string) (rs : list Z)
    (p v : string) (r : Z) :
  pathResiduals es path rs ->
  last path = Some p ->
  residualStep es p v r ->
  pathResiduals es (path ++ [v]) (rs ++ [r]).
Proof.
  induction 1 as [a | a b rest r0 rs0 Hstep Hrest IH]; intros Hlast Hres.
  - injection Hlast as ->. simpl. constructor; [exact Hres | constructor].
  - simpl. constructor; [exact Hstep|]. apply IH; [|exact Hres].
    exact Hlast.
Qed.

Lemma isMinimum_snoc (m r : Z) (rs : list Z) :
  isMinimum m rs -> isMinimum (Z.min m r) (rs ++ [r]).
Proof.
  intros [Hin Hall]. split.
  - destruct (Z.le_gt_cases m r) as [Hle | Hgt].
    + rewrite Z.min_l by exact Hle. set_solver.
    + rewrite Z.min_r by lia. set_solver.
  - apply Forall_app. split.
    + eapply Forall_impl; [exact Hall|]. intros x Hx. simpl in Hx. lia.
    + constructor; [lia | constructor].
Qed.

Lemma labelTree_pathValid (ns : list Node) (es : list Edge) (v : string)
    (path : list string) (m : Z) :
  labelTree ns es v path m -> pathValid es path m.
Proof.
  induction 1 as
      [v n root l r Hv Hn Hl Hp Hf Hroot Hres
      |v p n l path mp r Hv Hps Hn Hl Hp Hf Htp IH Hres Hfresh].
  - exists [r]. split.
    + constructor; [exact Hres | constructor].
    + split; [set_solver | constructor; [lia | constructor]].
  - destruct IH as (rs & Hrs & Hmin).
    exists (rs ++ [r]). split.
    + apply (pathResiduals_snoc es path rs p v r Hrs); [|exact Hres].
      apply (labelTree_target ns es p path mp Htp).
    + apply isMinimum_snoc. exact Hmin.
Qed.

Lemma backtrack_mono (ns : list Node) (fuel fuel' : nat) (c : Node)
    (path r : list string) :
  (fuel <= fuel')%nat ->
  backtrack fuel ns c path = Returns r ->
  backtrack fuel' ns c path = Returns r.
Proof.
  revert fuel' c path. induction fuel as [|fuel IH]; intros fuel' c path Hle.
  - simpl. destruct fuel'; simpl; destruct (String.eqb (node_id c) "s");
      try discriminate; auto.
  - destruct fuel' as [|fuel']; [lia|]. simpl.
    destruct (String.eqb (node_id c) "s"); [auto|].
    destruct (label c) as [l|]; [|auto].
    destruct (prevNodeId l) as [p|]; [|auto].
    destruct (find _ ns) as [c'|]; [|auto].
    apply IH. lia.
Qed.

Lemma backtrack_enough (ns : list Node) (fuel : nat) (c : Node)
    (path r : list string) :
  backtrack fuel ns c path = Returns r ->
  backtrack (S (length ns)) ns c path = Returns r.
Proof.
  intros H.
  rewrite <- (backtrack_bound ns c path (fuel + S (length ns))) by lia.
  apply (backtrack_mono ns fuel); [lia | exact H].
Qed.

Lemma labelTree_backtrack (ns : list Node) (es : list Edge) (v : string)
    (path : list string) (m : Z) :
  labelTree ns es v path m ->
  forall n acc,
    findNode ns v = Some n ->
    backtrack (S (length ns)) ns n (v :: acc) = Returns (path ++ acc).
Proof.
  intros Ht n acc Hn.
  assert (Hex : exists fuel,
             backtrack fuel ns n (v :: acc) = Returns (path ++ acc)).
  { revert n acc Hn. induction Ht as
      [v n0 root l r Hv Hn0 Hl Hp Hf Hroot Hres
      |v p n0 l path mp r Hv Hps Hn0 Hl Hp Hf Htp IH Hres Hfresh]; intros n acc Hn.
    - exists 1%nat. rewrite Hn in Hn0. injection Hn0 as <-. simpl.
      rewrite (findNode_id ns v n Hn). apply String.eqb_neq in Hv.
      rewrite Hv, Hl, Hp. unfold findNode in Hroot. rewrite Hroot.
      rewrite (findNode_id ns "s" root Hroot). reflexivity.
    - rewrite Hn in Hn0. injection Hn0 as <-.
      destruct (labelTree_target ns es p path mp Htp)
        as (_ & _ & _ & np & lp & Hnp & _).
      destruct (IH np (v :: acc) Hnp) as [fuel Hfuel].
      exists (S fuel). simpl.
      rewrite (findNode_id ns v n Hn). apply String.eqb_neq in Hv.
      rewrite Hv, Hl, Hp. unfold findNode in Hnp. rewrite Hnp.
      rewrite Hfuel, <- app_assoc. reflexivity. }
  destruct Hex as [fuel Hfuel]. eapply backtrack_enough. exact Hfuel.
Qed.

Lemma residualArcs_step (es : list Edge) (u v : string) (dir : Direction)
    (r : Z) :
  (v, dir, r) ∈ residualArcs es u -> residualStep es u v r.
Proof.
  unfold residualArcs, forwardResidual, backwardResidual.
  intros H. apply elem_of_app in H.
  destruct H as [H | H]; apply list_elem_of_In, in_map_iff in H;
    destruct H as (e & [= <- <- <-] & He); apply list_elem_of_In in He;
    apply list_elem_of_filter in He; destruct He as [[Hs Hlt] He].
  - apply (forwardStep es u (target e) e); auto.
  - apply (backwardStep es u (source e) e); auto.
Qed.

Lemma frontLabel_insert (es : list Edge) (ns : list Node) (V : gset string)
    (uId : string) (uflow : LabelFlow) (i : nat) (tn tn' : Node) :
  frontLabel es ns V uId uflow ->
  "s" ∈ V ->
  ns !! i = Some tn ->
  node_id tn' = node_id tn ->
  node_id tn ∉ V ->
  frontLabel es (<[i := tn']> ns) ({[node_id tn]} ∪ V) uId uflow.
Proof.
  intros [(Hu & Hf & root & Hroot) | (Hu & path & mu & Hf & Ht & Hall)]
         Hs Hlk Hid Hnot.
  - left. repeat split; auto. exists root.
    rewrite (findNode_insert_other ns i tn tn' "s" Hlk Hid); [exact Hroot|].
    intros Heq. apply Hnot. rewrite Heq. exact Hs.
  - right. split; [exact Hu|]. exists path, mu. repeat split; auto.
    + apply labelTree_insert with (tn := tn); auto.
      intros Hin. apply Hnot. rewrite Forall_forall in Hall. apply Hall, Hin.
    + eapply Forall_impl; [exact Hall|]. intros w Hw. simpl in Hw.
      apply elem_of_union_r. exact Hw.
Qed.

Lemma label_one_inv (es : list Edge) (uId : string) (uflow : LabelFlow)
    (L : Labeling) (v : string) (dir : Direction) (r : Z) (i : nat)
    (n : Node) :
  residualStep es uId v r ->
  uId ∈ lab_visited L ->
  frontLabel es (lab_nodes L) (lab_visited L) uId uflow ->
  labelingInv es L ->
  v ∉ lab_visited L ->
  findIndex (fun n => String.eqb (node_id n) v) (lab_nodes L) = Some (i, n) ->
  let n' := set_label n
              (Some {| prevNodeId := Some uId; direction := dir;
                       label_flow := Finite (min_flow uflow r) |}) in
  let L' := {| lab_nodes := <[i := n']> (lab_nodes L);
               lab_visited := {[v]} ∪ lab_visited L;
               lab_new := lab_new L ++ [v];
               lab_sink := if truthy (isSink n) then Some n' else None |} in
  labelingInv es L' /\
  frontLabel es (lab_nodes L') (lab_visited L') uId uflow.
Proof.
  intros Hres Hu Hfront [(Hs & Hroot & Htrees) [Hnew Hsink]] Hv Hfi.
  cbv zeta. cbn [lab_nodes lab_visited].
  pose proof (findIndex_Some _ _ _ _ Hfi) as [Hlk Hid].
  apply String.eqb_eq in Hid.
  assert (Hvs : v <> "s") by (intros ->; exact (Hv Hs)).
  assert (Hnot : node_id n ∉ lab_visited L) by (rewrite Hid; exact Hv).
  assert (Hold : forall w, w ∈ lab_visited L -> w ∈ {[v]} ∪ lab_visited L).
  { intros w Hw. apply elem_of_union_r. exact Hw. }
  assert (Hnewv : v ∈ {[v]} ∪ lab_visited L).
  { apply elem_of_union_l, elem_of_singleton. reflexivity. }
  assert (Hfront' :
            frontLabel es
              (<[i := set_label n
                        (Some {| prevNodeId := Some uId; direction := dir;
                                 label_flow := Finite (min_flow uflow r) |})]>
                 (lab_nodes L))
              ({[v]} ∪ lab_visited L) uId uflow).
  { rewrite <- Hid. apply frontLabel_insert with (tn := n); auto. }
  assert (Hfind :
            findNode
              (<[i := set_label n
                        (Some {| prevNodeId := Some uId; direction := dir;
                                 label_flow := Finite (min_flow uflow r) |})]>
                 (lab_nodes L)) v
            = Some (set_label n
                      (Some {| prevNodeId := Some uId; direction := dir;
                               label_flow := Finite (min_flow uflow r) |}))).
  { apply (findNode_insert_first _ i n _ v Hfi). exact Hid. }
  assert (Htree : exists path m,
             labelTree
               (<[i := set_label n
                         (Some {| prevNodeId := Some uId; direction := dir;
                                  label_flow := Finite (min_flow uflow r) |})]>
                  (lab_nodes L)) es v path m /\
             Forall (fun w => w ∈ {[v]} ∪ lab_visited L) path /\
             Finite (min_flow uflow r) = Finite m).
  { destruct Hfront
      as [(Hus & Hfl & root & Hr) | (Hus & path & mu & Hfl & Ht & Hall)].
    - subst uId uflow. exists ["s"; v], r. repeat split.
      + eapply (tree_first _ _ v _ root
                  {| prevNodeId := Some "s"; direction := dir;
                     label_flow := Finite r |} r);
          [exact Hvs | exact Hfind | reflexivity | reflexivity | reflexivity
          | | exact Hres].
        rewrite findNode_insert_other with (tn := n);
          [exact Hr | exact Hlk | reflexivity | rewrite Hid; exact Hvs].
      + repeat constructor; auto.
    - subst uflow.
      assert (Hfresh : v ∉ path).
      { intros Hin. apply Hv. rewrite Forall_forall in Hall.
        apply Hall, Hin. }
      exists (path ++ [v]), (Z.min mu r). repeat split.
      + eapply (tree_next _ _ v uId _
                  {| prevNodeId := Some uId; direction := dir;
                     label_flow := Finite (Z.min mu r) |} path mu r);
          [exact Hvs | exact Hus | exact Hfind | reflexivity | reflexivity
          | reflexivity | | exact Hres | exact Hfresh].
        apply labelTree_insert with (tn := n); auto.
        rewrite Hid. exact Hfresh.
      + apply Forall_app. split; [|repeat constructor; auto].
        eapply Forall_impl; [exact Hall|]. intros x Hx. auto. }
  split; [|exact Hfront'].
  split; [|split]; cbn [lab_nodes lab_visited lab_new lab_sink].
  - split; [|split].
    + auto.
    + apply Forall_insert; [exact Hroot|].
      intros Hn's. exfalso. apply Hvs. rewrite <- Hid. exact Hn's.
    + intros w Hw Hws.
      apply elem_of_union in Hw. destruct Hw as [Hw | Hw].
      * apply elem_of_singleton in Hw. subst w.
        destruct Htree as (path & m & Ht & Hall & _). exists path, m. auto.
      * destruct (Htrees w Hw Hws) as (path & m & Ht & Hall).
        exists path, m. split.
        -- apply labelTree_insert with (tn := n); auto.
           intros Hin. apply Hnot. rewrite Forall_forall in Hall.
           apply Hall, Hin.
        -- eapply Forall_impl; [exact Hall|]. intros x Hx. auto.
  - apply Forall_app. split.
    + eapply Forall_impl; [exact Hnew|]. intros x Hx. auto.
    + repeat constructor. auto.
  - intros tn. destruct (truthy (isSink n)) eqn:Hsk; [|discriminate].
    intros [= <-]. split; [exact Hsk|].
    change (node_id (set_label n _)) with (node_id n). rewrite Hid.
    split; [exact Hfind|].
    destruct Htree as (path & m & Ht & _ & Hsf). exists path, m.
    split; [exact Ht|]. unfold sinkFlow. simpl. injection Hsf as ->.
    reflexivity.
Qed.

Lemma labelNeighbors_inv (es : list Edge) (uId : string) (uflow : LabelFlow)
    (arcs : list ResidualArc) :
  (forall v dir r, (v, dir, r) ∈ arcs -> residualStep es uId v r) ->
  forall L,
    uId ∈ lab_visited L ->
    frontLabel es (lab_nodes L) (lab_visited L) uId uflow ->
    labelingInv es L ->
    labelingInv es (labelNeighbors uId uflow arcs L) /\
    (forall w, w ∈ lab_visited L ->
               w ∈ lab_visited (labelNeighbors uId uflow arcs L)).
Proof.
  induction arcs as [|[[v dir] r] arcs IH]; intros Harcs L Hu Hfront Hinv.
  - simpl. auto.
  - assert (Harcs' : forall v' dir' r',
               (v', dir', r') ∈ arcs -> residualStep es uId v' r').
    { intros v' dir' r' Hin. apply (Harcs v' dir' r').
      apply list_elem_of_further. exact Hin. }
    assert (Hres : residualStep es uId v r).
    { apply (Harcs v dir r). apply list_elem_of_here. }
    simpl. destruct (lab_sink L) as [sn|] eqn:Hs; [auto|].
    destruct (decide (v ∈ lab_visited L)) as [Hin | Hnin];
      [apply IH; assumption|].
    destruct (findIndex _ (lab_nodes L)) as [[i n]|] eqn:Hfi;
      [|apply IH; assumption].
    destruct (label_one_inv es uId uflow L v dir r i n
                Hres Hu Hfront Hinv Hnin Hfi) as [Hinv' Hfront'].
    cbv zeta in Hinv', Hfront'. cbn [lab_nodes lab_visited] in Hfront'.
    match goal with
    | |- labelingInv es (labelNeighbors uId uflow arcs ?L') /\ _ =>
        destruct (IH Harcs' L') as [Hfinal Hmono]
    end.
    + cbn [lab_visited]. apply elem_of_union_r. exact Hu.
    + exact Hfront'.
    + exact Hinv'.
    + split; [exact Hfinal|]. intros w Hw. apply Hmono.
      cbn [lab_visited]. apply elem_of_union_r. exact Hw.
Qed.

Lemma sourceId_eraseLabel (ns : list Node) :
  option_map node_id (find (fun n => truthy (isSource n)) (map eraseLabel ns))
  = option_map node_id (find (fun n => truthy (isSource n)) ns).
Proof.
  induction ns as [|n ns IH]; simpl; [reflexivity|].
  destruct (truthy (isSource n)); [reflexivity | exact IH].
Qed.

Lemma step_sourceId (g g' : Graph) (st st' : AlgorithmState) :
  stepAlgorithm g st = Returns (g', st') -> sourceId g' = sourceId g.
Proof.
  intros H. apply step_graph_frame in H. destruct H as (Hn & _).
  unfold sourceId. rewrite <- (sourceId_eraseLabel (nodes g')), Hn.
  apply sourceId_eraseLabel.
Qed.

Lemma expand_unlabeled (uId : string) (u : option Node) (es : list Edge)
    (ex0 ex2 : Expansion) :
  (forall un, u = Some un -> label un = None) ->
  expand uId u es ex0 = Returns ex2 -> ex2 = ex0.
Proof.
  intros Hu Hex.
  assert (Hlab : forall v dir r ex ex',
             labelNode uId u v dir r ex = Returns ex' -> ex' = ex).
  { intros v dir r ex ex' H. apply labelNode_Returns in H.
    destruct H as [H | (i & tn & un & lu & _ & _ & _ & Hun & Hlu & _)];
      [exact H|].
    rewrite (Hu un Hun) in Hlu. discriminate Hlu. }
  eapply (expand_invariant (fun ex => ex = ex0)) in Hex;
    [exact Hex | | | reflexivity].
  - intros e ex ex' _ ->. unfold forwardCheck.
    destruct (_ && _); [apply Hlab | intros [= <-]; reflexivity].
  - intros e ex ex' _ ->. unfold backwardCheck.
    destruct (_ && _); [apply Hlab | intros [= <-]; reflexivity].
Qed.

Lemma clearLabels_roundInv (es : list Edge) (ns : list Node) :
  roundInv es (clearLabels ns) {["s"]}.
Proof.
  split; [|split].
  - apply elem_of_singleton. reflexivity.
  - unfold clearLabels. apply Forall_forall. intros n Hn.
    apply list_elem_of_In, in_map_iff in Hn. destruct Hn as (m & <- & _).
    intros _ l. simpl. destruct (truthy (isSource m)); intros [= <-].
    reflexivity.
  - intros v Hv Hvs. apply elem_of_singleton in Hv. contradiction.
Qed.

Lemma front_labelingInv (g : Graph) (st : AlgorithmState) (uId : string)
    (un : Node) (lu : Label) :
  roundInv (edges g) (nodes g) (visited st) ->
  uId ∈ visited st ->
  find (fun n => String.eqb (node_id n) uId) (nodes g) = Some un ->
  label un = Some lu ->
  let L := labelNeighbors uId (label_flow lu) (residualArcs (edges g) uId)
             {| lab_nodes := nodes g; lab_visited := visited st;
                lab_new := []; lab_sink := None |} in
  labelingInv (edges g) L /\
  (forall w, w ∈ visited st -> w ∈ lab_visited L).
Proof.
  intros Hround Hu Hfind Hlu.
  assert (Hfront : frontLabel (edges g) (nodes g) (visited st) uId
                     (label_flow lu)).
  { destruct Hround as (Hs & Hroot & Htrees).
    destruct (String.eqb_spec uId "s") as [-> | Hne].
    - left. repeat split; [|exists un; exact Hfind].
      rewrite Forall_forall in Hroot.
      apply (Hroot un (findNode_elem _ _ _ Hfind)
               (findNode_id _ _ _ Hfind) lu Hlu).
    - right. split; [exact Hne|].
      destruct (Htrees uId Hu Hne) as (path & m & Ht & Hall).
      exists path, m. repeat split; auto.
      destruct (labelTree_target _ _ _ _ _ Ht)
        as (_ & _ & _ & n & l & Hn & Hl & Hf).
      unfold findNode in Hn. rewrite Hfind in Hn. injection Hn as <-.
      rewrite Hlu in Hl. injection Hl as <-. exact Hf. }
  apply (labelNeighbors_inv (edges g) uId (label_flow lu)
           (residualArcs (edges g) uId)
           (fun v dir r => residualArcs_step (edges g) uId v dir r)
           {| lab_nodes := nodes g; lab_visited := visited st;
              lab_new := []; lab_sink := None |} Hu Hfront).
  split; [exact Hround|]. split; [constructor|]. discriminate.
Qed.

Lemma step_runInv (g g' : Graph) (st st' : AlgorithmState) :
  sourceId g = Some "s" ->
  runInv g st ->
  stepAlgorithm g st = Returns (g', st') ->
  runInv g' st'.
Proof.
  intros Hsrc Hinv. unfold runInv in Hinv.
  assert (Hstart : startRound g st = Returns (g', st') ->
                   phase st = IDLE \/ phase st = FINISHED -> runInv g' st').
  { unfold startRound, sourceId in *.
    destruct (find _ (nodes g)) as [src|]; intros [= <- <-] Hph.
    - simpl in Hsrc. injection Hsrc as Hsrc. unfold runInv. simpl.
      rewrite Hsrc. split; [apply clearLabels_roundInv|].
      constructor; [apply elem_of_singleton; reflexivity | constructor].
    - unfold runInv. destruct Hph as [-> | ->]; exact I. }
  destruct (phase st) eqn:Hph.
  - rewrite step_start_round by (left; exact Hph). intros H.
    apply Hstart; auto.
  - destruct Hinv as [Hround Hq].
    destruct (queue st) as [|uId rest] eqn:Hqueue.
    { rewrite labeling_empty_queue_finishes by assumption.
      intros [= <- <-]. exact I. }
    apply Forall_cons in Hq. destruct Hq as [Hu Hrest].
    destruct (find (fun n => String.eqb (node_id n) uId) (nodes g))
      as [un|] eqn:Hfind.
    2:{ rewrite (step_labeling g st uId rest Hph Hqueue), Hfind.
        destruct (expand uId None (edges g) _) as [ex2| |] eqn:Hex;
          simpl; try discriminate.
        apply expand_unlabeled in Hex; [|discriminate]. subst ex2. simpl.
        intros [= <- <-]. unfold runInv. simpl. auto. }
    destruct (label un) as [lu|] eqn:Hlu.
    2:{ rewrite (step_labeling g st uId rest Hph Hqueue), Hfind.
        destruct (expand uId (Some un) (edges g) _) as [ex2| |] eqn:Hex;
          simpl; try discriminate.
        apply expand_unlabeled in Hex; [|intros ? [= <-]; exact Hlu].
        subst ex2. simpl.
        intros [= <- <-]. unfold runInv. simpl. auto. }
    rewrite (step_labeling_labelNeighbors g st uId rest un lu
               Hph Hqueue Hfind Hlu).
    cbv zeta.
    destruct (front_labelingInv g st uId un lu Hround Hu Hfind Hlu)
      as [HL Hmono].
    cbv zeta in HL, Hmono.
    destruct HL as (Hround' & Hnew & Hsink).
    destruct (lab_sink (labelNeighbors _ _ _ _)) as [tn|] eqn:Htn.
    + destruct (Hsink tn eq_refl) as (Hsk & Hfn & path & m & Ht & Hsf).
      rewrite (labelTree_backtrack _ _ _ _ _ Ht tn [] Hfn).
      simpl. intros [= <- <-]. unfold runInv. simpl.
      exists (path ++ []), m, tn. simpl. rewrite app_nil_r.
      repeat split; auto.
      * eapply labelTree_pathValid. exact Ht.
      * apply (labelTree_target _ _ _ _ _ Ht).
      * apply (labelTree_target _ _ _ _ _ Ht).
      * eapply labelTree_NoDup. exact Ht.
    + intros [= <- <-]. unfold runInv. simpl. split; [exact Hround'|].
      apply Forall_app. split; [|exact Hnew].
      eapply Forall_impl; [exact Hrest|]. intros w Hw. apply Hmono, Hw.
  - unfold stepAlgorithm. rewrite Hph.
    destruct (pathFound st) as [path|] eqn:Hp,
             (bottleneck st) as [bn|] eqn:Hb;
      intros [= <- <-]; unfold runInv; simpl; try rewrite Hph; auto.
  - rewrite step_start_round by (right; exact Hph). intros H.
    apply Hstart; auto.
Qed.

Lemma run_runInv (n : nat) (g g' : Graph) (st st' : AlgorithmState) :
  sourceId g = Some "s" ->
  runInv g st ->
  run n g st = Returns (g', st') ->
  runInv g' st'.
Proof.
  revert g st. induction n as [|n IH]; intros g st Hsrc Hinv; simpl.
  - intros [= <- <-]. exact Hinv.
  - destruct (stepAlgorithm g st) as [[g1 st1]| |] eqn:Hstep; simpl;
      try discriminate.
    apply IH.
    + rewrite (step_sourceId _ _ _ _ Hstep). exact Hsrc.
    + eapply step_runInv; eauto.
Qed.

(** On a graph whose source is the node named [s], every AUGMENTING state
    that a run from the initial state reaches has a path from [s] to a
    sink made of residual steps, and a bottleneck that is the least
    residual capacity along it. *)
Theorem path_valid_from_source_s (n : nat) (g g' : Graph)
    (st' : AlgorithmState) :
  sourceId g = Some "s" ->
  run n g initializeAlgorithm = Returns (g', st') ->
  phase st' = AUGMENTING ->
  pathReady g' st'.
Proof.
  intros Hsrc Hrun Hph.
  pose proof (run_runInv n g g' initializeAlgorithm st' Hsrc I Hrun) as Hinv.
  unfold runInv in Hinv. rewrite Hph in Hinv. exact Hinv.
Qed.

Lemma path_valid_from_source_s_example :
  exists g' st',
    run 5 INITIAL_GRAPH initializeAlgorithm = Returns (g', st') /\
    pathReady g' st'.
Proof.
  destruct (run 5 INITIAL_GRAPH initializeAlgorithm) as [[g' st']| |] eqn:Hrun;
    try (vm_compute in Hrun; discriminate Hrun).
  exists g', st'. split; [reflexivity|].
  apply (path_valid_from_source_s 5 INITIAL_GRAPH g' st');
    [reflexivity | exact Hrun|].
  apply (f_equal phaseOf) in Hrun. vm_compute in Hrun.
  injection Hrun as Hrun. symmetry. exact Hrun.
Defined.

(** ** No step throws when the source is named [s] *)

Lemma findNode_eraseLabel (ns : list Node) (v : string) :
  findNode (map eraseLabel ns) v = option_map eraseLabel (findNode ns v).
Proof.
  unfold findNode. induction ns as [|n ns IH]; simpl; [reflexivity|].
  destruct (String.eqb (node_id n) v); [reflexivity | exact IH].
Qed.

Lemma step_sourceNamed_s (g g' : Graph) (st st' : AlgorithmState) :
  stepAlgorithm g st = Returns (g', st') ->
  sourceNamed_s g -> sourceNamed_s g'.
Proof.
  intros Hstep [Hsrc (root & Hroot & Hflag)]. split.
  - rewrite (step_sourceId _ _ _ _ Hstep). exact Hsrc.
  - apply step_graph_frame in Hstep. destruct Hstep as (Hn & _).
    pose proof (findNode_eraseLabel (nodes g') "s") as H'.
    rewrite Hn, findNode_eraseLabel, Hroot in H'. simpl in H'.
    destruct (findNode (nodes g') "s") as [root'|]; [|discriminate H'].
    exists root'. split; [reflexivity|].
    assert (Heq : eraseLabel root' = eraseLabel root)
      by (simpl in H'; congruence).
    apply (f_equal isSource) in Heq. simpl in Heq. rewrite Heq. exact Hflag.
Qed.

Lemma clearLabels_rootLabeled (g : Graph) :
  sourceNamed_s g -> rootLabeled (clearLabels (nodes g)).
Proof.
  intros [_ (root & Hroot & Hflag)]. unfold rootLabeled, findNode in *.
  induction (nodes g) as [|n ns IH]; simpl in *; [discriminate|].
  destruct (String.eqb (node_id n) "s").
  - injection Hroot as ->. rewrite Hflag. eauto.
  - apply IH. exact Hroot.
Qed.

Lemma labelNeighbors_root (uId : string) (uflow : LabelFlow)
    (arcs : list ResidualArc) (L : Labeling) :
  "s" ∈ lab_visited L ->
  findNode (lab_nodes (labelNeighbors uId uflow arcs L)) "s"
  = findNode (lab_nodes L) "s".
Proof.
  revert L. induction arcs as [|[[v dir] r] arcs IH]; intros L Hs;
    [reflexivity|].
  simpl. destruct (lab_sink L); [reflexivity|].
  destruct (decide (v ∈ lab_visited L)) as [Hin | Hnin]; [apply IH, Hs|].
  destruct (findIndex _ (lab_nodes L)) as [[i n]|] eqn:Hfi; [|apply IH, Hs].
  rewrite IH by (cbn [lab_visited]; apply elem_of_union_r; exact Hs).
  cbn [lab_nodes]. apply findIndex_Some in Hfi. destruct Hfi as [Hlk Hid].
  apply String.eqb_eq in Hid.
  apply (findNode_insert_other _ i n); [exact Hlk | reflexivity|].
  rewrite Hid. intros ->. exact (Hnin Hs).
Qed.

Lemma step_safe (g : Graph) (st : AlgorithmState) :
  sourceNamed_s g ->
  safeInv g st ->
  exists g' st', stepAlgorithm g st = Returns (g', st') /\ safeInv g' st'.
Proof.
  intros Hnamed [Hinv Hroot].
  assert (Hsrc : sourceId g = Some "s") by apply Hnamed.
  assert (Hkeep : forall g' st',
             stepAlgorithm g st = Returns (g', st') ->
             (phase st' = LABELING -> rootLabeled (nodes g')) ->
             exists g'' st'', stepAlgorithm g st = Returns (g'', st'') /\
                              safeInv g'' st'').
  { intros g' st' Hstep Hr. exists g', st'. split; [exact Hstep|].
    split; [|exact Hr]. eapply step_runInv; eauto. }
  destruct (phase st) eqn:Hph.
  - pose proof (step_start_round g st (or_introl Hph)) as Hstep.
    unfold startRound in Hstep.
    destruct (find _ (nodes g)) as [src|]; eapply Hkeep; try exact Hstep.
    + intros _. apply clearLabels_rootLabeled, Hnamed.
    + rewrite Hph. discriminate.
  - destruct (queue st) as [|uId rest] eqn:Hqueue.
    { eapply Hkeep; [apply labeling_empty_queue_finishes; assumption|].
      discriminate. }
    unfold runInv in Hinv. rewrite Hph in Hinv.
    destruct Hinv as [Hround Hq]. rewrite Hqueue in Hq.
    apply Forall_cons in Hq. destruct Hq as [Hu _].
    destruct (Hroot eq_refl) as (root & lroot & Hfr & Hlr).
    assert (Hfront : exists un lu,
               find (fun n => String.eqb (node_id n) uId) (nodes g) = Some un
               /\ label un = Some lu).
    { destruct (String.eqb_spec uId "s") as [-> | Hne]; [eauto|].
      destruct Hround as (_ & _ & Htrees).
      destruct (Htrees uId Hu Hne) as (path & m & Ht & _).
      destruct (labelTree_target _ _ _ _ _ Ht)
        as (_ & _ & _ & n & l & Hn & Hl & _). eauto. }
    destruct Hfront as (un & lu & Hfind & Hlu).
    pose proof (step_labeling_labelNeighbors g st uId rest un lu
                  Hph Hqueue Hfind Hlu) as Hstep.
    cbv zeta in Hstep.
    assert (Hs : "s" ∈ visited st) by apply Hround.
    destruct (front_labelingInv g st uId un lu Hround Hu Hfind Hlu)
      as [(_ & _ & Hsink) _].
    cbv zeta in Hsink.
    destruct (lab_sink (labelNeighbors _ _ _ _)) as [tn|] eqn:Htn.
    + destruct (Hsink tn eq_refl) as (_ & Hfn & path & m & Ht & _).
      rewrite (labelTree_backtrack _ _ _ _ _ Ht tn [] Hfn) in Hstep.
      eapply Hkeep; [exact Hstep|]. discriminate.
    + eapply Hkeep; [exact Hstep|]. intros _. simpl.
      unfold rootLabeled. rewrite labelNeighbors_root by exact Hs. eauto.
  - destruct (pathFound st) as [path|] eqn:Hp,
             (bottleneck st) as [bn|] eqn:Hb.
    all: eapply Hkeep;
      [unfold stepAlgorithm; rewrite Hph, Hp, ?Hb; reflexivity|];
      simpl; try rewrite Hph; discriminate.
  - pose proof (step_start_round g st (or_intror Hph)) as Hstep.
    unfold startRound in Hstep.
    destruct (find _ (nodes g)) as [src|]; eapply Hkeep; try exact Hstep.
    + intros _. apply clearLabels_rootLabeled, Hnamed.
    + rewrite Hph. discriminate.
Qed.

Lemma run_safe (n : nat) (g : Graph) (st : AlgorithmState) :
  sourceNamed_s g ->
  safeInv g st ->
  exists g' st', run n g st = Returns (g', st') /\ safeInv g' st'.
Proof.
  revert g st. induction n as [|n IH]; intros g st Hnamed Hinv.
  - exists g, st. split; [reflexivity | exact Hinv].
  - destruct (step_safe g st Hnamed Hinv) as (g1 & st1 & Hstep & Hinv1).
    destruct (IH g1 st1 (step_sourceNamed_s _ _ _ _ Hstep Hnamed) Hinv1)
      as (g' & st' & Hrun & Hinv').
    exists g', st'. split; [|exact Hinv'].
    simpl. rewrite Hstep. exact Hrun.
Qed.

(** On a graph whose source is the node named [s], no step of a run from
    the initial state throws or fails to return. *)
Theorem run_returns_from_source_s (n : nat) (g : Graph) :
  sourceNamed_s g ->
  exists g' st', run n g initializeAlgorithm = Returns (g', st').
Proof.
  intros Hnamed.
  destruct (run_safe n g initializeAlgorithm Hnamed) as (g' & st' & Hrun & _).
  - split; [exact I | discriminate].
  - eauto.
Qed.

Lemma INITIAL_GRAPH_sourceNamed_s : sourceNamed_s INITIAL_GRAPH.
Proof.
  split; [reflexivity|]. exists (sourceNode "s" 100 300).
  split; reflexivity.
Qed.

Lemma run_returns_from_source_s_example :
  exists g' st', run 27 INITIAL_GRAPH initializeAlgorithm = Returns (g', st').
Proof.
  apply (run_returns_from_source_s 27 INITIAL_GRAPH).
  exact INITIAL_GRAPH_sourceNamed_s.
Defined.

(** ** Exhaustion of the residual graph *)

Lemma find_findIndex {A : Type} (p : A -> bool) (l : list A) :
  find p l = option_map snd (findIndex p l).
Proof.
  induction l as [|a l IH]; simpl; [reflexivity|].
  destruct (p a); [reflexivity|]. rewrite IH.
  destruct (findIndex p l) as [[i b]|]; reflexivity.
Qed.

Lemma findNode_erased (ns ns' : list Node) (v : string) :
  map eraseLabel ns' = map eraseLabel ns ->
  option_map eraseLabel (findNode ns' v) = option_map eraseLabel (findNode ns v).
Proof.
  intros H. rewrite <- !findNode_eraseLabel, H. reflexivity.
Qed.

Lemma sinkId_erased (ns ns' : list Node) (v : string) :
  map eraseLabel ns' = map eraseLabel ns -> sinkId ns' v -> sinkId ns v.
Proof.
  intros H (n' & Hn' & Hsk). pose proof (findNode_erased ns ns' v H) as He.
  rewrite Hn' in He. simpl in He.
  destruct (findNode ns v) as [n|] eqn:Hn; [|discriminate He].
  exists n. split; [exact Hn|].
  assert (Heq : eraseLabel n' = eraseLabel n) by (simpl in He; congruence).
  apply (f_equal isSink) in Heq. simpl in Heq. rewrite <- Heq. exact Hsk.
Qed.

Lemma findNode_exists_erased (ns ns' : list Node) (v : string) (n : Node) :
  map eraseLabel ns' = map eraseLabel ns ->
  findNode ns v = Some n -> exists n', findNode ns' v = Some n'.
Proof.
  intros H Hn. pose proof (findNode_erased ns ns' v H) as He.
  rewrite Hn in He. destruct (findNode ns' v) as [n'|]; [eauto|].
  discriminate He.
Qed.

Lemma residualStep_arc (es : list Edge) (u v : string) (r : Z) :
  residualStep es u v r -> exists dir, (v, dir, r) ∈ residualArcs es u.
Proof.
  unfold residualArcs, forwardResidual, backwardResidual.
  intros [e He Hs Ht Hlt | e He Hs Ht Hlt].
  - exists Plus. apply elem_of_app. left.
    apply list_elem_of_In, in_map_iff. exists e. split; [congruence|].
    apply list_elem_of_In, list_elem_of_filter. auto.
  - exists Minus. apply elem_of_app. right.
    apply list_elem_of_In, in_map_iff. exists e. split; [congruence|].
    apply list_elem_of_In, list_elem_of_filter. auto.
Qed.

Lemma labelNeighbors_expansionInv (ns0 : list Node) (V0 : gset string)
    (uId : string) (uflow : LabelFlow) (arcs : list ResidualArc)
    (L : Labeling) :
  expansionInv ns0 V0 L ->
  expansionInv ns0 V0 (labelNeighbors uId uflow arcs L).
Proof.
  revert L. induction arcs as [|[[v dir] r] arcs IH]; intros L HL;
    [exact HL|].
  simpl. destruct (lab_sink L) as [sn|] eqn:Hs; [exact HL|].
  destruct (decide (v ∈ lab_visited L)) as [Hin | Hnin]; [apply IH, HL|].
  destruct (findIndex _ (lab_nodes L)) as [[i n]|] eqn:Hfi; [|apply IH, HL].
  apply IH. destruct HL as (Her & Hsub & Hsup & Hnosink).
  pose proof (findIndex_Some _ _ _ _ Hfi) as [Hlk Hid].
  apply String.eqb_eq in Hid.
  split; [|split; [|split]]; cbn [lab_nodes lab_visited lab_new lab_sink].
  - rewrite map_eraseLabel_insert by exact Hlk. exact Her.
  - intros w Hw. apply elem_of_union_r, Hsub, Hw.
  - intros w Hw. apply elem_of_union in Hw. destruct Hw as [Hw | Hw].
    + apply elem_of_singleton in Hw. subst w. right.
      apply elem_of_app. right. apply list_elem_of_here.
    + destruct (Hsup w Hw) as [H0 | Hnew]; [left; exact H0|].
      right. apply elem_of_app. left. exact Hnew.
  - destruct (truthy (isSink n)) eqn:Hsk; [discriminate|].
    intros _ w Hw. apply elem_of_app in Hw. destruct Hw as [Hw | Hw].
    + apply (Hnosink Hs w Hw).
    + apply list_elem_of_singleton in Hw. subst w.
      intros (n0 & Hn0 & Hsk0).
      pose proof (findNode_erased ns0 (lab_nodes L) v Her) as He.
      unfold findNode in He at 1. rewrite find_findIndex, Hfi in He.
      simpl in He. rewrite Hn0 in He. simpl in He.
      assert (Heq : eraseLabel n = eraseLabel n0) by congruence.
      apply (f_equal isSink) in Heq. simpl in Heq.
      rewrite Heq, Hsk0 in Hsk. discriminate Hsk.
Qed.

Lemma labelNeighbors_mono (uId : string) (uflow : LabelFlow)
    (arcs : list ResidualArc) (L : Labeling) (w : string) :
  w ∈ lab_visited L -> w ∈ lab_visited (labelNeighbors uId uflow arcs L).
Proof.
  revert L. induction arcs as [|[[v dir] r] arcs IH]; intros L Hw;
    [exact Hw|].
  simpl. destruct (lab_sink L); [exact Hw|].
  destruct (decide (v ∈ lab_visited L)); [apply IH, Hw|].
  destruct (findIndex _ (lab_nodes L)) as [[j tn]|]; [|apply IH, Hw].
  apply IH. cbn [lab_visited]. apply elem_of_union_r, Hw.
Qed.

Lemma labelNeighbors_complete (ns0 : list Node) (uId : string)
    (uflow : LabelFlow) (arcs : list ResidualArc) (L : Labeling) :
  map eraseLabel (lab_nodes L) = map eraseLabel ns0 ->
  lab_sink (labelNeighbors uId uflow arcs L) = None ->
  forall v dir r,
    (v, dir, r) ∈ arcs ->
    v ∈ lab_visited (labelNeighbors uId uflow arcs L) \/
    findNode ns0 v = None.
Proof.
  revert L. induction arcs as [|[[v dir] r] arcs IH];
    intros L Her Hnone v' dir' r' Hin.
  - apply elem_of_nil in Hin. destruct Hin.
  - simpl in Hnone |- *.
    destruct (lab_sink L) as [sn|] eqn:Hs; [congruence|].
    apply elem_of_cons in Hin.
    destruct (decide (v ∈ lab_visited L)) as [Hvin | Hnin].
    { destruct Hin as [[= -> -> ->] | Hin]; [|eapply IH; eauto].
      left. apply labelNeighbors_mono. exact Hvin. }
    destruct (findIndex _ (lab_nodes L)) as [[i n]|] eqn:Hfi.
    2:{ destruct Hin as [[= -> -> ->] | Hin]; [|eapply IH; eauto].
        right.
        pose proof (findNode_erased ns0 (lab_nodes L) v Her) as He.
        unfold findNode in He at 1. rewrite find_findIndex, Hfi in He.
        simpl in He. destruct (findNode ns0 v); [discriminate He|].
        reflexivity. }
    pose proof (findIndex_Some _ _ _ _ Hfi) as [Hlk _].
    destruct Hin as [[= -> -> ->] | Hin].
    + left. apply labelNeighbors_mono. cbn [lab_visited].
      apply elem_of_union_l, elem_of_singleton. reflexivity.
    + eapply IH; eauto. cbn [lab_nodes].
      rewrite map_eraseLabel_insert by exact Hlk. exact Her.
Qed.

Lemma front_labeled (g : Graph) (st : AlgorithmState) (uId : string)
    (rest : list string) :
  safeInv g st ->
  phase st = LABELING ->
  queue st = uId :: rest ->
  exists un lu,
    find (fun n => String.eqb (node_id n) uId) (nodes g) = Some un /\
    label un = Some lu.
Proof.
  intros [Hinv Hroot] Hph Hqueue. unfold runInv in Hinv.
  rewrite Hph, Hqueue in Hinv. destruct Hinv as [Hround Hq].
  apply Forall_cons in Hq. destruct Hq as [Hu _].
  destruct (Hroot Hph) as (root & lroot & Hfr & Hlr).
  destruct (String.eqb_spec uId "s") as [-> | Hne]; [eauto|].
  destruct Hround as (_ & _ & Htrees).
  destruct (Htrees uId Hu Hne) as (path & m & Ht & _).
  destruct (labelTree_target _ _ _ _ _ Ht)
    as (_ & _ & _ & n & l & Hn & Hl & _). eauto.
Qed.

Lemma step_exhaustInv (g g' : Graph) (st st' : AlgorithmState) :
  sourceNamed_s g ->
  safeInv g st ->
  exhaustInv g st ->
  stepAlgorithm g st = Returns (g', st') ->
  exhaustInv g' st'.
Proof.
  intros Hnamed Hsafe Hex.
  assert (Hstart : startRound g st = Returns (g', st') ->
                   phase st = IDLE \/ phase st = FINISHED ->
                   exhaustInv g' st').
  { destruct Hnamed as [Hsrc _]. unfold startRound, sourceId in *.
    destruct (find _ (nodes g)) as [src|]; intros [= <- <-] Hph.
    - simpl in Hsrc. injection Hsrc as Hsrc.
      unfold exhaustInv. simpl. rewrite Hsrc. split.
      + intros u v r n Hu Hnq. exfalso. apply Hnq.
        apply elem_of_singleton in Hu. subst u. apply list_elem_of_here.
      + intros v Hv Hvs. apply elem_of_singleton in Hv. contradiction.
    - exact Hex. }
  destruct (phase st) eqn:Hph.
  - rewrite step_start_round by (left; exact Hph). intros H.
    apply Hstart; auto.
  - destruct (queue st) as [|uId rest] eqn:Hqueue.
    { rewrite labeling_empty_queue_finishes by assumption.
      intros [= <- <-]. unfold exhaustInv in *. simpl.
      rewrite Hph, Hqueue in Hex. split; [exact Hex|].
      destruct Hsafe as [Hinv _]. unfold runInv in Hinv.
      rewrite Hph in Hinv. apply Hinv. }
    destruct (front_labeled g st uId rest Hsafe Hph Hqueue)
      as (un & lu & Hfind & Hlu).
    rewrite (step_labeling_labelNeighbors g st uId rest un lu
               Hph Hqueue Hfind Hlu).
    cbv zeta.
    pose proof (labelNeighbors_expansionInv (nodes g) (visited st) uId
                  (label_flow lu) (residualArcs (edges g) uId)
                  {| lab_nodes := nodes g; lab_visited := visited st;
                     lab_new := []; lab_sink := None |}) as HL.
    pose proof (labelNeighbors_complete (nodes g) uId
                  (label_flow lu) (residualArcs (edges g) uId)
                  {| lab_nodes := nodes g; lab_visited := visited st;
                     lab_new := []; lab_sink := None |} eq_refl) as Hcomplete.
    destruct (lab_sink (labelNeighbors _ _ _ _)) as [tn|] eqn:Htn.
    { destruct (backtrack _ _ tn _) as [path| |]; simpl; try discriminate.
      intros [= <- <-]. exact I. }
    intros [= <- <-]. unfold exhaustInv in *. simpl.
    rewrite Hph, Hqueue in Hex. destruct Hex as [Hclosed Hnosink].
    destruct HL as (Her & Hsub & Hsup & Hnew).
    { split; [reflexivity|]. split; [auto|]. split; [auto|].
      intros _ w Hw. apply elem_of_nil in Hw. destruct Hw. }
    cbn [lab_nodes lab_visited lab_new lab_sink] in *.
    split.
    + intros u v r n Hu Hnq Hres Hn.
      assert (HuV : u ∈ visited st).
      { destruct (Hsup u Hu) as [H0 | H1]; [exact H0|].
        exfalso. apply Hnq. apply elem_of_app. right. exact H1. }
      assert (Hn0 : exists n0, findNode (nodes g) v = Some n0).
      { apply (findNode_exists_erased _ (nodes g) v n (eq_sym Her) Hn). }
      destruct Hn0 as [n0 Hn0].
      destruct (String.eqb_spec u uId) as [-> | Hne].
      * destruct (residualStep_arc _ _ _ _ Hres) as [dir Harc].
        destruct (Hcomplete eq_refl v dir r Harc) as [Hv | Hnone];
          [exact Hv|]. rewrite Hn0 in Hnone. discriminate Hnone.
      * apply Hsub. apply (Hclosed u v r n0 HuV); auto.
        intros Hin. apply elem_of_cons in Hin.
        destruct Hin as [Heq | Hin]; [contradiction|].
        apply Hnq. apply elem_of_app. left. exact Hin.
    + intros v Hv Hvs Hsink.
      apply (sinkId_erased (nodes g)) in Hsink; [|exact Her].
      destruct (Hsup v Hv) as [H0 | H1].
      * exact (Hnosink v H0 Hvs Hsink).
      * exact (Hnew Htn v H1 Hsink).
  - unfold stepAlgorithm. rewrite Hph.
    destruct (pathFound st) as [path|] eqn:Hp,
             (bottleneck st) as [bn|] eqn:Hb;
      intros [= <- <-]; unfold exhaustInv; simpl; try rewrite Hph; auto.
  - rewrite step_start_round by (right; exact Hph). intros H.
    apply Hstart; auto.
Qed.

Lemma run_exhaustInv (n : nat) (g g' : Graph) (st st' : AlgorithmState) :
  sourceNamed_s g ->
  safeInv g st ->
  exhaustInv g st ->
  run n g st = Returns (g', st') ->
  exhaustInv g' st'.
Proof.
  revert g st. induction n as [|n IH]; intros g st Hnamed Hsafe Hex; simpl.
  - intros [= <- <-]. exact Hex.
  - destruct (step_safe g st Hnamed Hsafe) as (g1 & st1 & Hstep & Hsafe1).
    rewrite Hstep. simpl. apply IH.
    + eapply step_sourceNamed_s; eauto.
    + exact Hsafe1.
    + eapply step_exhaustInv; eauto.
Qed.

(** On a graph whose source is the node named [s], when a run from the
    initial state is in phase FINISHED, every node that residual steps
    reach from [s] has been visited and none of them, [s] apart, is a
    sink: no augmenting path is left. *)
Theorem finished_exhausts_residual_graph (n : nat) (g g' : Graph)
    (st' : AlgorithmState) :
  sourceNamed_s g ->
  run n g initializeAlgorithm = Returns (g', st') ->
  phase st' = FINISHED ->
  forall v,
    residualReach (edges g') (nodes g') v ->
    v ∈ visited st' /\ (v <> "s" -> ~ sinkId (nodes g') v).
Proof.
  intros Hnamed Hrun Hph.
  pose proof (run_exhaustInv n g g' initializeAlgorithm st' Hnamed) as Hex.
  unfold exhaustInv in Hex at 2. rewrite Hph in Hex.
  destruct Hex as [[Hclosed Hnosink] Hs]; [| |exact Hrun|].
  - split; [exact I | discriminate].
  - exact I.
  - assert (Hvis : forall v, residualReach (edges g') (nodes g') v ->
                             v ∈ visited st').
    { induction 1 as [|u v r nv Hu IH Hres Hnv]; [exact Hs|].
      apply (Hclosed u v r nv IH); auto. apply not_elem_of_nil. }
    intros v Hv. split; [apply Hvis, Hv|].
    intros Hvs. apply Hnosink; [apply Hvis, Hv | exact Hvs].
Qed.

Lemma finished_exhausts_residual_graph_example :
  exists g' st',
    run 27 INITIAL_GRAPH initializeAlgorithm = Returns (g', st') /\
    "s" ∈ visited st'.
Proof.
  destruct (run 27 INITIAL_GRAPH initializeAlgorithm)
    as [[g' st']| |] eqn:Hrun; try (vm_compute in Hrun; discriminate Hrun).
  exists g', st'. split; [reflexivity|].
  apply (finished_exhausts_residual_graph 27 INITIAL_GRAPH g' st'
           INITIAL_GRAPH_sourceNamed_s Hrun).
  - apply (f_equal phaseOf) in Hrun. vm_compute in Hrun.
    injection Hrun as Hrun. symmetry. exact Hrun.
  - constructor.
Defined.

(** ** The capacity invariant on graphs without opposite edges *)

Lemma map_reversed_eraseFlow (es : list Edge) :
  map reversed (map eraseFlow es) = map reversed es.
Proof. rewrite map_map. apply map_ext. intros e. reflexivity. Qed.

Lemma simpleEdges_augmentPair (bn : Z) (a b : string) (es : list Edge) :
  simpleEdges es -> simpleEdges (augmentPair bn a b es).
Proof.
  unfold simpleEdges.
  rewrite <- (map_endpoints_eraseFlow (augmentPair bn a b es)).
  rewrite <- (map_reversed_eraseFlow (augmentPair bn a b es)).
  rewrite augmentPair_topology.
  rewrite map_endpoints_eraseFlow, map_reversed_eraseFlow. auto.
Qed.

Lemma simpleEdges_same (es : list Edge) (i j : nat) (e1 e2 : Edge) :
  simpleEdges es ->
  es !! i = Some e1 -> es !! j = Some e2 ->
  endpoints e1 = endpoints e2 -> i = j.
Proof.
  intros Hs H1 H2 Heq. apply NoDup_app in Hs. destruct Hs as (Hnd & _ & _).
  apply (NoDup_lookup (map endpoints es) i j (endpoints e1)); [exact Hnd| |].
  - change (map endpoints es) with (endpoints <$> es).
    rewrite list_lookup_fmap, H1. reflexivity.
  - change (map endpoints es) with (endpoints <$> es).
    rewrite list_lookup_fmap, H2, Heq. reflexivity.
Qed.

Lemma simpleEdges_opposite (es : list Edge) (e1 e2 : Edge) :
  simpleEdges es ->
  e1 ∈ es -> e2 ∈ es -> endpoints e1 = reversed e2 -> False.
Proof.
  intros Hs H1 H2 Heq. apply NoDup_app in Hs. destruct Hs as (_ & Hdis & _).
  apply (Hdis (endpoints e1)).
  - apply list_elem_of_In, in_map, list_elem_of_In, H1.
  - rewrite Heq. apply list_elem_of_In, in_map, list_elem_of_In, H2.
Qed.

Lemma findIndex_found {A : Type} (p : A -> bool) (l : list A) (a : A) :
  a ∈ l -> p a = true -> exists i b, findIndex p l = Some (i, b).
Proof.
  intros Hin Hp. destruct (findIndex p l) as [[i b]|] eqn:Hf; [eauto|].
  apply findIndex_None in Hf. rewrite Forall_forall in Hf.
  rewrite (Hf a Hin) in Hp. discriminate Hp.
Qed.

Lemma findIndex_edge (es : list Edge) (e : Edge) (a b : string) :
  simpleEdges es ->
  e ∈ es -> source e = a -> target e = b ->
  exists i,
    es !! i = Some e /\
    findIndex (fun e => String.eqb (source e) a && String.eqb (target e) b) es
    = Some (i, e).
Proof.
  intros Hs Hin Ha Hb.
  destruct (findIndex_found
              (fun e => String.eqb (source e) a && String.eqb (target e) b)
              es e Hin) as (i & e' & Hf).
  { rewrite Ha, Hb, !String.eqb_refl. reflexivity. }
  pose proof (findIndex_Some _ _ _ _ Hf) as [Hlk Hp].
  apply andb_true_iff in Hp. destruct Hp as [Hsa Htb].
  apply String.eqb_eq in Hsa, Htb.
  apply list_elem_of_lookup in Hin. destruct Hin as [j Hj].
  assert (i = j).
  { apply (simpleEdges_same es i j e' e Hs Hlk Hj).
    unfold endpoints. congruence. }
  subst j. rewrite Hlk in Hj. injection Hj as ->.
  exists i. auto.
Qed.

Lemma augmentPair_forward (bn : Z) (es : list Edge) (e : Edge) :
  simpleEdges es -> e ∈ es ->
  exists i, es !! i = Some e /\
    augmentPair bn (source e) (target e) es
    = <[i := set_flow e (flow e + bn)]> es.
Proof.
  intros Hs Hin.
  destruct (findIndex_edge es e (source e) (target e) Hs Hin eq_refl eq_refl)
    as (i & Hlk & Hf).
  exists i. split; [exact Hlk|]. unfold augmentPair. rewrite Hf. reflexivity.
Qed.

Lemma augmentPair_backward (bn : Z) (es : list Edge) (e : Edge) :
  simpleEdges es -> e ∈ es ->
  exists i, es !! i = Some e /\
    augmentPair bn (target e) (source e) es
    = <[i := set_flow e (flow e - bn)]> es.
Proof.
  intros Hs Hin.
  destruct (findIndex_edge es e (source e) (target e) Hs Hin eq_refl eq_refl)
    as (i & Hlk & Hf).
  exists i. split; [exact Hlk|]. unfold augmentPair.
  destruct (findIndex (fun e0 => String.eqb (source e0) (target e)
                                 && String.eqb (target e0) (source e)) es)
    as [[j e']|] eqn:Hopp.
  - exfalso. pose proof (findIndex_Some _ _ _ _ Hopp) as [Hlk' Hp].
    apply andb_true_iff in Hp. destruct Hp as [Hsa Htb].
    apply String.eqb_eq in Hsa, Htb.
    apply (simpleEdges_opposite es e' e Hs); [|exact Hin|].
    + eapply list_elem_of_lookup_2. exact Hlk'.
    + unfold endpoints, reversed. congruence.
  - rewrite Hf. reflexivity.
Qed.

(** [augmentPair] for [(a, b)] leaves alone every edge that does not touch
    [a]. *)
Lemma augmentPair_keeps (bn : Z) (a b : string) (es : list Edge) (e : Edge) :
  e ∈ es -> source e <> a -> target e <> a ->
  e ∈ augmentPair bn a b es.
Proof.
  intros Hin Hsa Hta. apply list_elem_of_lookup in Hin.
  destruct Hin as [k Hk]. unfold augmentPair.
  destruct (findIndex _ es) as [[i e1]|] eqn:Hf.
  - pose proof (findIndex_Some _ _ _ _ Hf) as [Hlk Hp].
    apply andb_true_iff in Hp. destruct Hp as [Hp _].
    apply String.eqb_eq in Hp.
    apply (list_elem_of_lookup_2 _ k). rewrite list_lookup_insert_ne; [exact Hk|].
    intros ->. rewrite Hlk in Hk. injection Hk as ->. contradiction.
  - destruct (findIndex (fun e0 => String.eqb (source e0) b
                                   && String.eqb (target e0) a) es)
      as [[i e1]|] eqn:Hb.
    + pose proof (findIndex_Some _ _ _ _ Hb) as [Hlk Hp].
      apply andb_true_iff in Hp. destruct Hp as [_ Hp].
      apply String.eqb_eq in Hp.
      apply (list_elem_of_lookup_2 _ k).
      rewrite list_lookup_insert_ne; [exact Hk|].
      intros ->. rewrite Hlk in Hk. injection Hk as ->. contradiction.
    + eapply list_elem_of_lookup_2. exact Hk.
Qed.

Lemma residualStep_augmentPair (bn : Z) (a b x y : string) (r : Z)
    (es : list Edge) :
  residualStep es x y r -> x <> a -> y <> a ->
  residualStep (augmentPair bn a b es) x y r.
Proof.
  intros [e He Hs Ht Hlt | e He Hs Ht Hlt] Hx Hy.
  - apply (forwardStep _ x y e); auto.
    apply augmentPair_keeps; [exact He | congruence | congruence].
  - apply (backwardStep _ x y e); auto.
    apply augmentPair_keeps; [exact He | congruence | congruence].
Qed.

Lemma pathResiduals_augmentPair (bn : Z) (a b : string) (es : list Edge)
    (path : list string) (rs : list Z) :
  pathResiduals es path rs -> a ∉ path ->
  pathResiduals (augmentPair bn a b es) path rs.
Proof.
  induction 1 as [x | x y rest r rs Hstep Hrest IH]; intros Hnot.
  - constructor.
  - constructor.
    + apply residualStep_augmentPair; [exact Hstep| |].
      * intros ->. apply Hnot. apply list_elem_of_here.
      * intros ->. apply Hnot. apply list_elem_of_further, list_elem_of_here.
    + apply IH. intros Hin. apply Hnot. apply list_elem_of_further. exact Hin.
Qed.

Lemma residualStep_positive (es : list Edge) (a b : string) (r : Z) :
  residualStep es a b r -> 0 < r.
Proof. intros [e _ _ _ Hlt | e _ _ _ Hlt]; lia. Qed.

Lemma pathResiduals_positive (es : list Edge) (path : list string)
    (rs : list Z) :
  pathResiduals es path rs -> Forall (fun r => 0 < r) rs.
Proof.
  induction 1 as [x | x y rest r rs Hstep _ IH]; constructor; [|exact IH].
  eapply residualStep_positive. exact Hstep.
Qed.

(** One pair of the path, pushed along a residual step worth at least the
    bottleneck, keeps every flow within its capacity. *)
Lemma augmentPair_capacity (bn : Z) (a b : string) (r : Z) (es : list Edge) :
  simpleEdges es ->
  Forall edgeWithinCapacity es ->
  residualStep es a b r ->
  0 <= bn <= r ->
  Forall edgeWithinCapacity (augmentPair bn a b es).
Proof.
  intros Hs Hok Hstep Hbn.
  apply residualStep_inv in Hstep. destruct Hstep as (e & He & Hcases).
  assert (Hoke : edgeWithinCapacity e).
  { rewrite Forall_forall in Hok. apply Hok, He. }
  unfold edgeWithinCapacity in Hoke.
  destruct Hcases as [(<- & <- & Hlt & ->) | (<- & <- & Hlt & ->)].
  - destruct (augmentPair_forward bn es e Hs He) as (i & _ & ->).
    apply Forall_insert; [exact Hok|].
    unfold edgeWithinCapacity. simpl. lia.
  - destruct (augmentPair_backward bn es e Hs He) as (i & _ & ->).
    apply Forall_insert; [exact Hok|].
    unfold edgeWithinCapacity. simpl. lia.
Qed.

Lemma augmentPath_capacity (bn : Z) (path : list string) :
  forall (es : list Edge) (rs : list Z),
    simpleEdges es ->
    Forall edgeWithinCapacity es ->
    pathResiduals es path rs ->
    NoDup path ->
    Forall (fun r => bn <= r) rs ->
    0 <= bn ->
    Forall edgeWithinCapacity (augmentPath bn path es).
Proof.
  induction path as [|a path IH]; intros es rs Hs Hok Hres Hnd Hmin Hbn;
    [exact Hok|].
  destruct path as [|b rest]; [exact Hok|].
  change (augmentPath bn (a :: b :: rest) es)
    with (augmentPath bn (b :: rest) (augmentPair bn a b es)).
  inversion Hres as [|a' b' rest' r rs' Hstep Hrest]; subst.
  apply Forall_cons in Hmin. destruct Hmin as [Hr Hmin].
  apply NoDup_cons in Hnd. destruct Hnd as [Hfresh Hnd].
  apply (IH (augmentPair bn a b es) rs').
  - apply simpleEdges_augmentPair, Hs.
  - apply (augmentPair_capacity bn a b r); auto.
  - apply pathResiduals_augmentPair; assumption.
  - exact Hnd.
  - exact Hmin.
  - exact Hbn.
Qed.

Lemma simpleEdges_augmentPath (bn : Z) (path : list string) (es : list Edge) :
  simpleEdges es -> simpleEdges (augmentPath bn path es).
Proof.
  unfold simpleEdges.
  rewrite <- (map_endpoints_eraseFlow (augmentPath bn path es)).
  rewrite <- (map_reversed_eraseFlow (augmentPath bn path es)).
  rewrite augmentPath_topology.
  rewrite map_endpoints_eraseFlow, map_reversed_eraseFlow. auto.
Qed.

Lemma step_capacity (g g' : Graph) (st st' : AlgorithmState) :
  runInv g st ->
  simpleEdges (edges g) ->
  capacityInvariant g ->
  stepAlgorithm g st = Returns (g', st') ->
  simpleEdges (edges g') /\ capacityInvariant g'.
Proof.
  intros Hinv Hs Hcap Hstep.
  destruct (phase st) eqn:Hph.
  1,2,4: (apply step_graph_frame in Hstep;
          destruct Hstep as (_ & _ & He & _);
          unfold capacityInvariant;
          rewrite He by (rewrite Hph; discriminate); auto).
  unfold runInv in Hinv. rewrite Hph in Hinv.
  destruct Hinv as (path & bn & tn & Hp & Hb & (rs & Hres & Hin & Hmin)
                    & _ & _ & _ & _ & Hnd).
  unfold stepAlgorithm in Hstep. rewrite Hph, Hp, Hb in Hstep.
  injection Hstep as <- <-. cbn [edges]. split.
  - apply simpleEdges_augmentPath, Hs.
  - unfold capacityInvariant. cbn [edges].
    apply (augmentPath_capacity bn path (edges g) rs); auto.
    pose proof (pathResiduals_positive _ _ _ Hres) as Hpos.
    rewrite Forall_forall in Hpos. specialize (Hpos bn Hin). lia.
Qed.

Lemma run_capacity (n : nat) (g g' : Graph) (st st' : AlgorithmState) :
  sourceId g = Some "s" ->
  runInv g st ->
  simpleEdges (edges g) ->
  capacityInvariant g ->
  run n g st = Returns (g', st') ->
  capacityInvariant g'.
Proof.
  revert g st. induction n as [|n IH]; intros g st Hsrc Hinv Hs Hcap; simpl.
  - intros [= <- <-]. exact Hcap.
  - destruct (stepAlgorithm g st) as [[g1 st1]| |] eqn:Hstep; simpl;
      try discriminate.
    destruct (step_capacity g g1 st st1 Hinv Hs Hcap Hstep) as [Hs1 Hcap1].
    apply IH; auto.
    + rewrite (step_sourceId _ _ _ _ Hstep). exact Hsrc.
    + eapply step_runInv; eauto.
Qed.


Lemma INITIAL_GRAPH_simpleEdges : simpleEdges (edges INITIAL_GRAPH).
Proof.
  unfold simpleEdges.
  apply (bool_decide_unpack
           (NoDup (map endpoints (edges INITIAL_GRAPH)
                   ++ map reversed (edges INITIAL_GRAPH)))).
  vm_compute. exact I.
Qed.


(** ** Conservation of flow *)

Lemma excess_insert (es : list Edge) (i : nat) (e : Edge) (f : Z) (v : string) :
  es !! i = Some e ->
  excess (<[i := set_flow e f]> es) v
  = excess es v
    + (if String.eqb (target e) v then f - flow e else 0)
    - (if String.eqb (source e) v then f - flow e else 0).
Proof.
  revert i. induction es as [|a es IH]; intros i Hlk; [discriminate|].
  destruct i as [|i]; simpl in Hlk |- *.
  - injection Hlk as ->. unfold edgeExcess. simpl.
    destruct (String.eqb (target e) v), (String.eqb (source e) v); lia.
  - rewrite (IH i Hlk). lia.
Qed.

Lemma excess_augmentPair (bn : Z) (a b : string) (r : Z) (es : list Edge)
    (v : string) :
  simpleEdges es ->
  residualStep es a b r ->
  excess (augmentPair bn a b es) v
  = excess es v
    + (if String.eqb b v then bn else 0)
    - (if String.eqb a v then bn else 0).
Proof.
  intros Hs Hstep.
  apply residualStep_inv in Hstep. destruct Hstep as (e & He & Hcases).
  destruct Hcases as [(<- & <- & _ & _) | (<- & <- & _ & _)].
  - destruct (augmentPair_forward bn es e Hs He) as (i & Hlk & ->).
    rewrite (excess_insert es i e _ v Hlk).
    destruct (String.eqb (target e) v), (String.eqb (source e) v); lia.
  - destruct (augmentPair_backward bn es e Hs He) as (i & Hlk & ->).
    rewrite (excess_insert es i e _ v Hlk).
    destruct (String.eqb (target e) v), (String.eqb (source e) v); lia.
Qed.

Lemma excess_augmentPath (bn : Z) (v : string) (path : list string) :
  forall (es : list Edge) (rs : list Z) (a t : string),
    simpleEdges es ->
    pathResiduals es path rs ->
    NoDup path ->
    head path = Some a ->
    last path = Some t ->
    excess (augmentPath bn path es) v
    = excess es v
      + (if String.eqb t v then bn else 0)
      - (if String.eqb a v then bn else 0).
Proof.
  induction path as [|a0 path IH]; intros es rs a t Hs Hres Hnd Hhd Hlast;
    [discriminate Hhd|].
  injection Hhd as ->.
  destruct path as [|b rest].
  - injection Hlast as ->. simpl. lia.
  - change (augmentPath bn (a :: b :: rest) es)
      with (augmentPath bn (b :: rest) (augmentPair bn a b es)).
    inversion Hres as [|a' b' rest' r rs' Hstep Hrest]; subst.
    apply NoDup_cons in Hnd. destruct Hnd as [Hfresh Hnd].
    rewrite (IH (augmentPair bn a b es) rs' b t).
    + rewrite (excess_augmentPair bn a b r es v Hs Hstep). lia.
    + apply simpleEdges_augmentPair, Hs.
    + apply pathResiduals_augmentPair; assumption.
    + exact Hnd.
    + reflexivity.
    + exact Hlast.
Qed.

Lemma path_ends_apart (path : list string) (rs : list Z) (es : list Edge)
    (a t : string) :
  pathResiduals es path rs -> rs <> [] -> NoDup path ->
  head path = Some a -> last path = Some t -> a <> t.
Proof.
  intros Hres Hrs Hnd Hhd Hlast.
  destruct Hres as [x | x y rest r rs Hstep Hrest]; [congruence|].
  simpl in Hhd. injection Hhd as Hx. subst x.
  apply NoDup_cons in Hnd. destruct Hnd as [Hfresh _].
  intros Heq. subst t. apply Hfresh.
  change (last (a :: y :: rest)) with (last (y :: rest)) in Hlast.
  apply last_Some_elem_of. exact Hlast.
Qed.

Lemma step_conservation (g g' : Graph) (st st' : AlgorithmState) :
  runInv g st ->
  simpleEdges (edges g) ->
  conservationInv g st ->
  stepAlgorithm g st = Returns (g', st') ->
  conservationInv g' st'.
Proof.
  intros Hinv Hs [Hcons Hmax] Hstep.
  pose proof (step_graph_frame g g' st st' Hstep) as (Hn & _ & He & _).
  assert (Hsink : forall v, ~ sinkId (nodes g') v -> ~ sinkId (nodes g) v).
  { intros v Hv Hv'. apply Hv.
    apply (sinkId_erased (nodes g') (nodes g)); auto. }
  destruct (phase st) eqn:Hph.
  1,2,4: (destruct (step_maxFlow g g' st st' Hstep) as [Hm | [Hm _]];
          [|congruence];
          unfold conservationInv; rewrite He by discriminate; rewrite Hm;
          split; [intros v Hvs Hv; apply Hcons; auto | exact Hmax]).
  unfold runInv in Hinv. rewrite Hph in Hinv.
  destruct Hinv as (path & bn & tn & Hp & Hb & (rs & Hres & Hin & Hmin)
                    & Hhd & Hlast & Htn & Hflag & Hnd).
  assert (Hrs : rs <> []) by (intros ->; apply elem_of_nil in Hin; exact Hin).
  pose proof (path_ends_apart path rs (edges g) "s" (node_id tn)
                Hres Hrs Hnd Hhd Hlast) as Hapart.
  unfold stepAlgorithm in Hstep. rewrite Hph, Hp, Hb in Hstep.
  injection Hstep as <- <-. unfold conservationInv.
  cbn [edges nodes maxFlow]. split.
  - intros v Hvs Hv.
    rewrite (excess_augmentPath bn v path (edges g) rs "s" (node_id tn))
      by assumption.
    rewrite (Hcons v Hvs Hv).
    destruct (String.eqb_spec "s" v) as [Heq | _]; [congruence|].
    destruct (String.eqb_spec (node_id tn) v) as [<- | _]; [|lia].
    exfalso. apply Hv. exists tn. split; assumption.
  - rewrite (excess_augmentPath bn "s" path (edges g) rs "s" (node_id tn))
      by assumption.
    rewrite String.eqb_refl.
    destruct (String.eqb_spec (node_id tn) "s") as [Heq | _]; [congruence|].
    lia.
Qed.

Lemma run_conservation (n : nat) (g g' : Graph) (st st' : AlgorithmState) :
  sourceId g = Some "s" ->
  runInv g st ->
  simpleEdges (edges g) ->
  capacityInvariant g ->
  conservationInv g st ->
  run n g st = Returns (g', st') ->
  conservationInv g' st'.
Proof.
  revert g st. induction n as [|n IH]; intros g st Hsrc Hinv Hs Hcap Hc; simpl.
  - intros [= <- <-]. exact Hc.
  - destruct (stepAlgorithm g st) as [[g1 st1]| |] eqn:Hstep; simpl;
      try discriminate.
    destruct (step_capacity g g1 st st1 Hinv Hs Hcap Hstep) as [Hs1 Hcap1].
    apply IH; auto.
    + rewrite (step_sourceId _ _ _ _ Hstep). exact Hsrc.
    + eapply step_runInv; eauto.
    + eapply step_conservation; eauto.
Qed.

Lemma run_topology (n : nat) (g g' : Graph) (st st' : AlgorithmState) :
  run n g st = Returns (g', st') ->
  map eraseLabel (nodes g') = map eraseLabel (nodes g) /\
  map eraseFlow (edges g') = map eraseFlow (edges g).
Proof.
  revert g st. induction n as [|n IH]; intros g st; simpl.
  - intros [= <- <-]. split; reflexivity.
  - destruct (stepAlgorithm g st) as [[g1 st1]| |] eqn:Hstep; simpl;
      try discriminate.
    intros Hrun. destruct (IH g1 st1 Hrun) as [Hn He].
    destruct (step_graph_frame g g1 st st1 Hstep) as (Hn1 & He1 & _).
    split; congruence.
Qed.

Lemma excess_emptyFlow (es : list Edge) (v : string) :
  Forall (fun e => flow e = 0 /\ 0 <= capacity e) es -> excess es v = 0.
Proof.
  induction 1 as [|e es [Hf _] _ IH]; [reflexivity|].
  simpl. unfold edgeExcess. rewrite Hf, IH.
  destruct (String.eqb (target e) v), (String.eqb (source e) v); reflexivity.
Qed.

(** ** Cuts *)

(** What one edge brings to the nodes of [side] taken together. *)
Lemma edgeExcess_over (e : Edge) (side : list string) :
  NoDup side ->
  foldr (fun v acc => edgeExcess e v + acc) 0 side
  = (if bool_decide (target e ∈ side) then flow e else 0)
    - (if bool_decide (source e ∈ side) then flow e else 0).
Proof.
  induction 1 as [|v side Hfresh _ IH]; [reflexivity|].
  simpl. rewrite IH. unfold edgeExcess.
  assert (Hmem : forall x,
             (if bool_decide (x ∈ v :: side) then flow e else 0)
             = (if String.eqb x v then flow e else 0)
               + (if bool_decide (x ∈ side) then flow e else 0)).
  { intros x. destruct (String.eqb_spec x v) as [-> | Hne].
    - rewrite bool_decide_eq_true_2 by apply list_elem_of_here.
      rewrite (bool_decide_eq_false_2 (v ∈ side)) by exact Hfresh. lia.
    - destruct (decide (x ∈ side)) as [Hx | Hx].
      + rewrite !bool_decide_eq_true_2; auto using list_elem_of_further.
      + rewrite !bool_decide_eq_false_2; auto.
        intros H'. apply elem_of_cons in H'. destruct H'; auto. }
  rewrite !Hmem. lia.
Qed.

Lemma excessOver_cons (e : Edge) (es : list Edge) (side : list string) :
  excessOver (e :: es) side
  = foldr (fun v acc => edgeExcess e v + acc) 0 side + excessOver es side.
Proof.
  induction side as [|v side IH]; [reflexivity|].
  unfold excessOver in *. simpl in *. rewrite IH. lia.
Qed.

(** Weak duality: what leaves a source side is at most its capacity. *)
Lemma excessOver_le_cut (es : list Edge) (side : list string) :
  NoDup side ->
  Forall edgeWithinCapacity es ->
  - excessOver es side <= cutCapacity es side.
Proof.
  intros Hnd. induction 1 as [|e es He _ IH].
  - unfold excessOver. simpl.
    induction side as [|v side IHs]; simpl; [lia|].
    apply NoDup_cons in Hnd. destruct Hnd as [_ Hnd].
    specialize (IHs Hnd). simpl in IHs. lia.
  - rewrite excessOver_cons, (edgeExcess_over e side Hnd). simpl.
    unfold edgeWithinCapacity in He.
    destruct (bool_decide (source e ∈ side)), (bool_decide (target e ∈ side));
      simpl; lia.
Qed.

Lemma excessOver_nil (side : list string) : excessOver [] side = 0.
Proof.
  induction side as [|v side IH]; [reflexivity|].
  unfold excessOver in *. simpl in *. rewrite IH. reflexivity.
Qed.

(** A cut whose outgoing edges are full and whose incoming edges are empty
    carries exactly its capacity. *)
Lemma excessOver_eq_cut (es : list Edge) (side : list string) :
  NoDup side ->
  Forall (fun e =>
            (source e ∈ side -> target e ∉ side -> flow e = capacity e) /\
            (target e ∈ side -> source e ∉ side -> flow e = 0)) es ->
  - excessOver es side = cutCapacity es side.
Proof.
  intros Hnd. induction 1 as [|e es [Hout Hin] _ IH].
  - rewrite excessOver_nil. reflexivity.
  - rewrite excessOver_cons, (edgeExcess_over e side Hnd). simpl.
    repeat case_bool_decide; simpl; try lia.
    + assert (flow e = 0) by auto. lia.
    + assert (flow e = capacity e) by auto. lia.
Qed.

Lemma excessOver_zero (es : list Edge) (side : list string) :
  (forall v, v ∈ side -> excess es v = 0) -> excessOver es side = 0.
Proof.
  induction side as [|v side IH]; intros H; [reflexivity|].
  unfold excessOver in *. simpl.
  rewrite (H v) by apply list_elem_of_here.
  rewrite IH; [reflexivity|]. intros w Hw. apply H.
  apply list_elem_of_further. exact Hw.
Qed.

(** Under conservation the excess of a source side is that of [s]. *)
Lemma excessOver_source (es : list Edge) (side : list string) :
  NoDup side -> "s" ∈ side ->
  (forall v, v ∈ side -> v <> "s" -> excess es v = 0) ->
  excessOver es side = excess es "s".
Proof.
  induction 1 as [|v side Hfresh Hnd IH]; intros Hs Hzero.
  - apply elem_of_nil in Hs. destruct Hs.
  - change (excessOver es (v :: side)) with (excess es v + excessOver es side).
    destruct (String.eqb_spec v "s") as [-> | Hne].
    + rewrite excessOver_zero; [lia|].
      intros w Hw. apply Hzero; [apply list_elem_of_further, Hw|].
      intros ->. contradiction.
    + rewrite (Hzero v (list_elem_of_here _ _) Hne).
      rewrite IH; [lia| |].
      * apply elem_of_cons in Hs. destruct Hs as [Heq | Hs]; [congruence|].
        exact Hs.
      * intros w Hw. apply Hzero. apply list_elem_of_further. exact Hw.
Qed.

Lemma cutCapacity_erased (es es' : list Edge) (side : list string) :
  map eraseFlow es' = map eraseFlow es ->
  cutCapacity es' side = cutCapacity es side.
Proof.
  revert es. induction es' as [|e' es' IH]; intros [|e es] H;
    try discriminate H; [reflexivity|].
  injection H as _ Hs Ht Hc Hes. simpl.
  rewrite (IH es Hes), Hs, Ht, Hc. reflexivity.
Qed.

Lemma sinkId_topology (ns ns' : list Node) (v : string) :
  map eraseLabel ns' = map eraseLabel ns -> sinkId ns' v <-> sinkId ns v.
Proof.
  intros H. split; apply sinkId_erased; [exact H | symmetry; exact H].
Qed.

Lemma sourceSide_topology (g g' : Graph) (side : list string) :
  map eraseLabel (nodes g') = map eraseLabel (nodes g) ->
  sourceSide g side -> sourceSide g' side.
Proof.
  intros H (Hnd & Hs & Hsink). repeat split; auto.
  intros v Hv Hvs Hsk. apply (Hsink v Hv Hvs).
  apply (sinkId_topology _ _ v H). exact Hsk.
Qed.

Lemma edgesJoinNodes_topology (g g' : Graph) :
  map eraseLabel (nodes g') = map eraseLabel (nodes g) ->
  map eraseFlow (edges g') = map eraseFlow (edges g) ->
  edgesJoinNodes g -> edgesJoinNodes g'.
Proof.
  intros Hn He Hjoin. unfold edgesJoinNodes in *.
  rewrite Forall_forall in *. intros e' He'.
  assert (Hin : eraseFlow e' ∈ map eraseFlow (edges g))
    by (rewrite <- He; apply list_elem_of_fmap_2; exact He').
  apply list_elem_of_fmap in Hin. destruct Hin as (e & Heq & Hin).
  destruct (Hjoin e Hin) as [[ns Hsrc] [nt Htgt]].
  assert (source e' = source e) as -> by exact (f_equal source Heq).
  assert (target e' = target e) as -> by exact (f_equal target Heq).
  split.
  - destruct (findNode_exists_erased _ (nodes g') _ ns Hn Hsrc) as [n' ->].
    eauto.
  - destruct (findNode_exists_erased _ (nodes g') _ nt Hn Htgt) as [n' ->].
    eauto.
Qed.

(** The value of the flow is what leaves any source side, so it is at most
    the capacity of the side. *)
Lemma flow_le_cut (g : Graph) (st : AlgorithmState) (side : list string) :
  conservationInv g st ->
  capacityInvariant g ->
  sourceSide g side ->
  maxFlow st <= cutCapacity (edges g) side.
Proof.
  intros [Hcons Hmax] Hcap (Hnd & Hs & Hsink).
  rewrite Hmax, <- (excessOver_source (edges g) side Hnd Hs).
  - apply excessOver_le_cut; assumption.
  - intros v Hv Hvs. apply Hcons; auto.
Qed.

(** When the visited set is closed under residual steps, the edges out of
    it are full and the edges into it are empty: the flow fills the cut. *)
Lemma flow_eq_closed_cut (g : Graph) (st : AlgorithmState) :
  conservationInv g st ->
  capacityInvariant g ->
  edgesJoinNodes g ->
  closedInv (edges g) (nodes g) (visited st) [] ->
  "s" ∈ visited st ->
  sourceSide g (elements (visited st)) /\
  maxFlow st = cutCapacity (edges g) (elements (visited st)).
Proof.
  intros [Hcons Hmax] Hcap Hjoin [Hclosed Hnosink] Hs.
  assert (Hside : sourceSide g (elements (visited st))).
  { split; [apply NoDup_elements|]. split; [apply elem_of_elements, Hs|].
    intros v Hv. apply Hnosink. apply elem_of_elements. exact Hv. }
  split; [exact Hside|].
  destruct Hside as (Hnd & Hs' & Hsink).
  rewrite Hmax, <- (excessOver_source (edges g) _ Hnd Hs').
  2:{ intros v Hv Hvs. apply Hcons; auto. }
  apply excessOver_eq_cut; [exact Hnd|].
  unfold capacityInvariant, edgesJoinNodes in *.
  rewrite Forall_forall in *. intros e He.
  specialize (Hcap e He). destruct (Hjoin e He) as [[ns Hsrc] [nt Htgt]].
  rewrite !elem_of_elements. split; intros Hin Hout.
  - destruct (Z.eq_dec (flow e) (capacity e)) as [Heq | Hne]; [exact Heq|].
    exfalso. apply Hout.
    apply (Hclosed (source e) (target e) (capacity e - flow e) nt Hin);
      [apply not_elem_of_nil | | exact Htgt].
    apply (forwardStep _ _ _ e); auto. lia.
  - destruct (Z.eq_dec (flow e) 0) as [Heq | Hne]; [exact Heq|].
    exfalso. apply Hout.
    apply (Hclosed (target e) (source e) (flow e) ns Hin);
      [apply not_elem_of_nil | | exact Hsrc].
    apply (backwardStep _ _ _ e); auto. lia.
Qed.

Lemma emptyFlow_capacity (g : Graph) : emptyFlow g -> capacityInvariant g.
Proof.
  unfold emptyFlow, capacityInvariant. intros H.
  eapply Forall_impl; [exact H|]. intros e [Hf Hc]. simpl. lia.
Qed.

Lemma emptyFlow_conservation (g : Graph) :
  emptyFlow g -> conservationInv g initializeAlgorithm.
Proof.
  intros H. split.
  - intros v _ _. apply excess_emptyFlow, H.
  - rewrite (excess_emptyFlow _ _ H). reflexivity.
Qed.

Lemma finished_cut (n : nat) (g g' : Graph)
    (st' : AlgorithmState) :
  sourceNamed_s g ->
  simpleEdges (edges g) ->
  edgesJoinNodes g ->
  emptyFlow g ->
  run n g initializeAlgorithm = Returns (g', st') ->
  phase st' = FINISHED ->
  sourceSide g (elements (visited st')) /\
  maxFlow st' = cutCapacity (edges g) (elements (visited st')) /\
  forall side, sourceSide g side -> maxFlow st' <= cutCapacity (edges g) side.
Proof.
  intros Hnamed Hs Hjoin Hempty Hrun Hph.
  assert (Hsrc : sourceId g = Some "s") by apply Hnamed.
  pose proof (emptyFlow_capacity g Hempty) as Hcap.
  pose proof (run_capacity n g g' initializeAlgorithm st' Hsrc I Hs Hcap Hrun)
    as Hcap'.
  pose proof (run_conservation n g g' initializeAlgorithm st' Hsrc I Hs Hcap
                (emptyFlow_conservation g Hempty) Hrun) as Hcons'.
  destruct (run_topology n g g' initializeAlgorithm st' Hrun) as [Hn He].
  pose proof (edgesJoinNodes_topology g g' Hn He Hjoin) as Hjoin'.
  pose proof (run_exhaustInv n g g' initializeAlgorithm st' Hnamed) as Hex.
  unfold exhaustInv in Hex at 2. rewrite Hph in Hex.
  destruct Hex as [Hclosed Hvis]; [| |exact Hrun|].
  { split; [exact I | discriminate]. }
  { exact I. }
  destruct (flow_eq_closed_cut g' st' Hcons' Hcap' Hjoin' Hclosed Hvis)
    as [Hside Heq].
  rewrite <- (cutCapacity_erased (edges g) (edges g') _ He).
  split; [|split; [exact Heq|]].
  - apply (sourceSide_topology g' g); [symmetry; exact Hn | exact Hside].
  - intros side Hside'.
    rewrite <- (cutCapacity_erased (edges g) (edges g') _ He).
    apply flow_le_cut; auto.
    apply (sourceSide_topology g g'); assumption.
Qed.


Lemma INITIAL_GRAPH_edgesJoinNodes : edgesJoinNodes INITIAL_GRAPH.
Proof.
  unfold edgesJoinNodes.
  repeat (constructor; [split; eexists; reflexivity|]). constructor.
Qed.

Lemma INITIAL_GRAPH_emptyFlow : emptyFlow INITIAL_GRAPH.
Proof.
  unfold emptyFlow.
  repeat (constructor; [split; [reflexivity | vm_compute; discriminate]|]).
  constructor.
Qed.


(** ** The editor: [addNode] *)

Lemma v_name_inj (j k : Z) : "v" +:+ pretty j = "v" +:+ pretty k -> j = k.
Proof.
  intros H. injection H as H. exact (inj pretty j k H).
Qed.

Lemma existsb_and_false {A : Type} (f : A -> bool) (l : list A) :
  existsb (fun a => f a && false) l = false.
Proof.
  induction l as [|a l IH]; simpl; [reflexivity|].
  rewrite IH, andb_false_r. reflexivity.
Qed.

Lemma idTaken_elem (ns : list Node) (k : Z) :
  App.idTaken ns k = true <-> "v" +:+ pretty k ∈ map node_id ns.
Proof.
  unfold App.idTaken.
  change (existsb (fun n => String.eqb (node_id n) "s"
                            && String.eqb ("v" +:+ pretty k) "s") ns)
    with (existsb (fun n => String.eqb (node_id n) "s" && false) ns).
  change (existsb (fun n => String.eqb (node_id n) "t"
                            && String.eqb ("v" +:+ pretty k) "t") ns)
    with (existsb (fun n => String.eqb (node_id n) "t" && false) ns).
  rewrite !existsb_and_false, !orb_false_r.
  induction ns as [|n ns IH].
  - simpl. split; [discriminate|]. intros H. apply elem_of_nil in H. destruct H.
  - cbn [existsb map]. rewrite orb_true_iff, IH, elem_of_cons, String.eqb_eq.
    split; intros [H | H]; auto.
Qed.

(** No more indices can be taken than there are nodes. *)
Lemma taken_bound (ns : list Node) (m : nat) :
  (forall j, 1 <= j <= Z.of_nat m -> App.idTaken ns j = true) ->
  (m <= length ns)%nat.
Proof.
  intros Htaken.
  pose (l := (fun j => "v" +:+ pretty j) <$> seqZ 1 (Z.of_nat m)).
  assert (Hnd : NoDup l).
  { apply NoDup_fmap_2; [|apply NoDup_seqZ]. intros j k. apply v_name_inj. }
  assert (Hsub : l ⊆ map node_id ns).
  { intros x Hx. apply list_elem_of_fmap in Hx. destruct Hx as (j & -> & Hj).
    apply elem_of_seqZ in Hj. apply idTaken_elem, Htaken. lia. }
  pose proof (submseteq_length _ _ (NoDup_submseteq _ _ Hnd Hsub)) as Hlen.
  unfold l in Hlen. rewrite length_fmap, length_seqZ, length_map in Hlen. lia.
Qed.

Lemma nextFreeIdx_from (ns : list Node) (fuel : nat) (k0 : Z) :
  1 <= k0 ->
  (forall j, 1 <= j < k0 -> App.idTaken ns j = true) ->
  (length ns <= Z.to_nat (k0 - 1) + fuel)%nat ->
  exists k,
    App.nextFreeIdx fuel ns k0 = Returns k /\
    k0 <= k <= Z.of_nat (length ns) + 1 /\
    App.idTaken ns k = false /\
    forall j, 1 <= j < k -> App.idTaken ns j = true.
Proof.
  revert k0. induction fuel as [|fuel IH]; intros k0 Hk0 Hbelow Hfuel.
  - simpl. destruct (App.idTaken ns k0) eqn:Htk.
    + exfalso.
      assert (Hm : (Z.to_nat k0 <= length ns)%nat).
      { apply taken_bound. intros j Hj.
        destruct (Z.eq_dec j k0) as [-> | Hne]; [exact Htk|].
        apply Hbelow. lia. }
      lia.
    + exists k0. repeat split; auto; try lia.
      pose proof (taken_bound ns (Z.to_nat (k0 - 1))) as Hb.
      assert ((Z.to_nat (k0 - 1) <= length ns)%nat); [|lia].
      apply Hb. intros j Hj. apply Hbelow. lia.
  - simpl. destruct (App.idTaken ns k0) eqn:Htk.
    + destruct (IH (k0 + 1)) as (k & Hk & Hrange & Hfree & Hall).
      * lia.
      * intros j Hj. destruct (Z.eq_dec j k0) as [-> | Hne]; [exact Htk|].
        apply Hbelow. lia.
      * lia.
      * exists k. repeat split; auto; lia.
    + exists k0. repeat split; auto; try lia.
      pose proof (taken_bound ns (Z.to_nat (k0 - 1))) as Hb.
      assert ((Z.to_nat (k0 - 1) <= length ns)%nat); [|lia].
      apply Hb. intros j Hj. apply Hbelow. lia.
Qed.

Lemma node_ids_clearGraph (g : Graph) :
  map node_id (nodes (App.clearGraph g)) = map node_id (nodes g).
Proof.
  unfold App.clearGraph. cbn [nodes]. rewrite map_map. reflexivity.
Qed.

Lemma node_ids_resetUnlessIdle (before a : App.State) :
  map node_id (nodes (App.graph (App.resetUnlessIdle before a)))
  = map node_id (nodes (App.graph a)).
Proof.
  unfold App.resetUnlessIdle.
  destruct (phase (App.algoState before)); try reflexivity;
    apply node_ids_clearGraph.
Qed.

(** [addNode] always returns: its loop stops at the least index [k >= 1]
    for which no node is named [v<k>], after fewer increments than there
    are nodes plus one, and the node it appends carries that name, which no
    node had; distinct ids stay distinct. *)
Theorem addNode_picks_least_free_id (x y : Z) (a : App.State) :
  exists k a',
    App.addNode x y a = Returns a' /\
    1 <= k <= Z.of_nat (length (nodes (App.graph a))) + 1 /\
    (forall fuel, (length (nodes (App.graph a)) <= fuel)%nat ->
       App.nextFreeIdx fuel (nodes (App.graph a)) 1 = Returns k) /\
    map node_id (nodes (App.graph a'))
    = map node_id (nodes (App.graph a)) ++ ["v" +:+ pretty k] /\
    (("v" +:+ pretty k) ∉ map node_id (nodes (App.graph a))) /\
    (forall j, 1 <= j < k ->
       ("v" +:+ pretty j) ∈ map node_id (nodes (App.graph a))) /\
    (NoDup (map node_id (nodes (App.graph a))) ->
     NoDup (map node_id (nodes (App.graph a')))).
Proof.
  set (ns := nodes (App.graph a)).
  assert (Hfrom : forall fuel, (length ns <= fuel)%nat ->
            exists k, App.nextFreeIdx fuel ns 1 = Returns k /\
              1 <= k <= Z.of_nat (length ns) + 1 /\
              App.idTaken ns k = false /\
              forall j, 1 <= j < k -> App.idTaken ns j = true).
  { intros fuel Hfuel. apply nextFreeIdx_from; [lia | intros j Hj; lia | ].
    simpl. lia. }
  destruct (Hfrom (length ns) (le_n _)) as (k & Hk & Hrange & Hfree & Hall).
  assert (Hnew : ("v" +:+ pretty k) ∉ map node_id ns).
  { intros Hin. apply idTaken_elem in Hin. congruence. }
  unfold App.addNode. fold ns. rewrite Hk. simpl.
  eexists k, _. split; [reflexivity|]. split; [exact Hrange|].
  assert (Hids :
    map node_id
      (nodes (App.graph
         (App.resetUnlessIdle a
            (App.setGraph
               (fun prev =>
                  {| nodes := nodes prev
                       ++ [ {| node_id := "v" +:+ pretty k;
                               node_x := x; node_y := y; label := None;
                               isSource := None; isSink := None |} ];
                     edges := edges prev |}) a))))
    = map node_id ns ++ ["v" +:+ pretty k]).
  { rewrite node_ids_resetUnlessIdle. cbn [App.setGraph App.graph nodes].
    fold ns. rewrite map_app. reflexivity. }
  split; [|split; [exact Hids|split; [exact Hnew|split]]].
  - intros fuel Hfuel.
    destruct (Hfrom fuel Hfuel) as (k' & Hk' & Hrange' & Hfree' & Hall').
    rewrite Hk'. f_equal.
    destruct (Z.lt_trichotomy k' k) as [Hlt | [Heq | Hgt]]; [|exact Heq|].
    + rewrite Hall in Hfree'; [discriminate | lia].
    + rewrite Hall' in Hfree; [discriminate | lia].
  - intros j Hj. apply idTaken_elem, Hall, Hj.
  - intros Hnd. rewrite Hids. apply NoDup_app. split; [exact Hnd|].
    split; [|apply NoDup_singleton].
    intros w Hw Hw'. apply list_elem_of_singleton in Hw'. subst w.
    contradiction.
Qed.

(** ** The editor: [addEdge] *)

Lemma existsb_hasEdge (es : list Edge) (a b : string) :
  existsb (fun e => String.eqb (source e) a && String.eqb (target e) b) es
  = true <-> hasEdge es a b.
Proof.
  unfold hasEdge. induction es as [|e es IH]; simpl.
  - split; [discriminate|]. intros H. apply elem_of_nil in H. destruct H.
  - rewrite orb_true_iff, IH, elem_of_cons, andb_true_iff, !String.eqb_eq.
    unfold endpoints at 1. split.
    + intros [[Hs Ht] | H]; [left | right; exact H].
      unfold endpoints. rewrite Hs, Ht. reflexivity.
    + intros [Heq | H]; [left | right; exact H].
      unfold endpoints in Heq. injection Heq as Hs Ht. auto.
Qed.

Lemma endpoints_clearGraph (g : Graph) :
  map endpoints (edges (App.clearGraph g)) = map endpoints (edges g).
Proof.
  unfold App.clearGraph. cbn [edges]. rewrite map_map. reflexivity.
Qed.

Lemma endpoints_resetUnlessIdle (before a : App.State) :
  map endpoints (edges (App.graph (App.resetUnlessIdle before a)))
  = map endpoints (edges (App.graph a)).
Proof.
  unfold App.resetUnlessIdle.
  destruct (phase (App.algoState before)); try reflexivity;
    apply endpoints_clearGraph.
Qed.

Lemma reversed_resetUnlessIdle (before a : App.State) :
  map reversed (edges (App.graph (App.resetUnlessIdle before a)))
  = map reversed (edges (App.graph a)).
Proof.
  unfold App.resetUnlessIdle.
  destruct (phase (App.algoState before)); try reflexivity;
    unfold App.resetAlgo, App.clearGraph; cbn [App.setGraph App.graph edges];
    rewrite map_map; reflexivity.
Qed.

Lemma addEdge_same (s t : string) (now roll : Z) (a : App.State) :
  hasEdge (edges (App.graph a)) s t -> App.addEdge s t now roll a = a.
Proof.
  intros Hex. apply existsb_hasEdge in Hex. unfold App.addEdge.
  rewrite Hex. reflexivity.
Qed.

Lemma addEdge_endpoints (s t : string) (now roll : Z) (a : App.State) :
  ~ hasEdge (edges (App.graph a)) s t ->
  map endpoints (edges (App.graph (App.addEdge s t now roll a)))
  = map endpoints (edges (App.graph a)) ++ [(s, t)].
Proof.
  intros Hex. unfold App.addEdge.
  destruct (existsb _ (edges (App.graph a))) eqn:Hb.
  { apply existsb_hasEdge in Hb. contradiction. }
  rewrite endpoints_resetUnlessIdle. cbn [App.setGraph App.graph edges].
  rewrite map_app. reflexivity.
Qed.

(** [addEdge] never makes a second edge from [sourceId] to [targetId]: when
    one exists the whole state is returned as it is, and otherwise one edge
    is appended, with no flow and a capacity of [roll + 1]; a list of edges
    with distinct (source, target) pairs keeps that property. *)
Theorem addEdge_keeps_directed_uniqueness (s t : string) (now roll : Z)
    (a : App.State) :
  NoDup (map endpoints (edges (App.graph a))) ->
  NoDup (map endpoints (edges (App.graph (App.addEdge s t now roll a)))) /\
  (hasEdge (edges (App.graph a)) s t -> App.addEdge s t now roll a = a) /\
  (~ hasEdge (edges (App.graph a)) s t ->
   exists es,
     edges (App.graph (App.addEdge s t now roll a))
     = es ++ [ {| edge_id := "e" +:+ pretty now; source := s; target := t;
                  capacity := roll + 1; flow := 0 |} ] /\
     map eraseFlow es = map eraseFlow (edges (App.graph a))).
Proof.
  intros Hnd. split; [|split].
  - destruct (decide ((s, t) ∈ map endpoints (edges (App.graph a))))
      as [Hex | Hex].
    { rewrite addEdge_same by exact Hex. exact Hnd. }
    rewrite addEdge_endpoints by exact Hex.
    apply NoDup_app. split; [exact Hnd|]. split; [|apply NoDup_singleton].
    intros w Hw Hw'. apply list_elem_of_singleton in Hw'. subst w.
    apply Hex. exact Hw.
  - apply addEdge_same.
  - intros Hex. unfold App.addEdge.
    destruct (existsb _ (edges (App.graph a))) eqn:Hb.
    { apply existsb_hasEdge in Hb. contradiction. }
    unfold App.resetUnlessIdle.
    destruct (phase (App.algoState a));
      cbn [App.resetAlgo App.setGraph App.setAlgoState App.graph
           App.clearGraph edges].
    1: (exists (edges (App.graph a)); split; reflexivity).
    all: (exists (map (fun e => set_flow e 0) (edges (App.graph a)));
          rewrite map_app; split; [reflexivity|];
          unfold eraseFlow; rewrite map_map; reflexivity).
Qed.

Lemma addEdge_keeps_directed_uniqueness_example :
  NoDup (map endpoints (edges (App.graph App.initial))) /\
  NoDup (map endpoints
           (edges (App.graph (App.addEdge "v2" "v1" 1700000000000 6
                                App.initial)))) /\
  App.addEdge "v1" "v2" 1700000000000 6 App.initial = App.initial.
Proof.
  assert (Hnd : NoDup (map endpoints (edges (App.graph App.initial)))).
  { apply (bool_decide_unpack
             (NoDup (map endpoints (edges (App.graph App.initial))))).
    vm_compute. exact I. }
  split; [exact Hnd|]. split.
  - apply (addEdge_keeps_directed_uniqueness "v2" "v1" 1700000000000 6
             App.initial Hnd).
  - apply (addEdge_keeps_directed_uniqueness "v1" "v2" 1700000000000 6
             App.initial Hnd).
    apply existsb_hasEdge. reflexivity.
Defined.

(** [addEdge] refuses only an edge in the same direction: when the edge
    [t -> s] exists and [s -> t] does not, it appends [s -> t], and the two
    nodes are then joined by two edges. *)
Theorem addEdge_admits_opposite_edges (s t : string) (now roll : Z)
    (a : App.State) :
  hasEdge (edges (App.graph a)) t s ->
  ~ hasEdge (edges (App.graph a)) s t ->
  hasEdge (edges (App.graph (App.addEdge s t now roll a))) s t /\
  hasEdge (edges (App.graph (App.addEdge s t now roll a))) t s /\
  ~ simpleEdges (edges (App.graph (App.addEdge s t now roll a))).
Proof.
  intros Hts Hst.
  assert (Hend : map endpoints (edges (App.graph (App.addEdge s t now roll a)))
                 = map endpoints (edges (App.graph a)) ++ [(s, t)]).
  { apply addEdge_endpoints. exact Hst. }
  assert (H1 : hasEdge (edges (App.graph (App.addEdge s t now roll a))) s t).
  { unfold hasEdge. rewrite Hend. apply elem_of_app. right.
    apply list_elem_of_here. }
  assert (H2 : hasEdge (edges (App.graph (App.addEdge s t now roll a))) t s).
  { unfold hasEdge. rewrite Hend. apply elem_of_app. left. exact Hts. }
  split; [exact H1|]. split; [exact H2|].
  intros Hsimple. unfold hasEdge in H1, H2.
  apply list_elem_of_fmap in H1. destruct H1 as (e1 & He1 & Hin1).
  apply list_elem_of_fmap in H2. destruct H2 as (e2 & He2 & Hin2).
  apply (simpleEdges_opposite _ e1 e2 Hsimple Hin1 Hin2).
  rewrite <- He1. unfold reversed. unfold endpoints in He2.
  injection He2 as -> ->. reflexivity.
Qed.

Lemma addEdge_admits_opposite_edges_example :
  hasEdge (edges (App.graph App.initial)) "v1" "v2" /\
  hasEdge (edges (App.graph (App.addEdge "v2" "v1" 1700000000000 6
                               App.initial))) "v2" "v1" /\
  (simpleEdges (edges (App.graph (App.addEdge "v2" "v1" 1700000000000 6
                                    App.initial))) -> False).
Proof.
  assert (H1 : hasEdge (edges (App.graph App.initial)) "v1" "v2")
    by (apply existsb_hasEdge; reflexivity).
  assert (H2 : ~ hasEdge (edges (App.graph App.initial)) "v2" "v1").
  { intros H. apply existsb_hasEdge in H. discriminate H. }
  pose proof (addEdge_admits_opposite_edges "v2" "v1" 1700000000000 6
                App.initial H1 H2) as (Ha & _ & Hc).
  split; [exact H1|]. split; [exact Ha | exact Hc].
Defined.

(** ** The editor: [deleteNode] *)

Lemma findNode_filter_other (ns : list Node) (i v : string) :
  v <> i ->
  findNode (filter (fun n => node_id n <> i) ns) v = findNode ns v.
Proof.
  intros Hne. unfold findNode. induction ns as [|n ns IH]; [reflexivity|].
  rewrite filter_cons. destruct (decide (node_id n <> i)) as [Hn | Hn].
  - simpl. destruct (String.eqb (node_id n) v); [reflexivity | exact IH].
  - simpl. destruct (String.eqb_spec (node_id n) v) as [Heq | _]; [|exact IH].
    exfalso. apply Hn. congruence.
Qed.

Lemma findNode_is_Some_erased (ns : list Node) (v : string) :
  is_Some (findNode (map (fun n => set_label n None) ns) v)
  <-> is_Some (findNode ns v).
Proof.
  change (map (fun n => set_label n None) ns) with (map eraseLabel ns).
  rewrite findNode_eraseLabel. destruct (findNode ns v); simpl.
  - split; eauto.
  - split; intros [x Hx]; discriminate Hx.
Qed.

(** [deleteNode] removes every node named [id] together with every edge
    that leaves or enters [id], and starts the algorithm afresh; if every
    edge joined two nodes of the graph before, every edge still does. *)
Theorem deleteNode_leaves_no_dangling_edge (id : string) (a : App.State) :
  edgesJoinNodes (App.graph a) ->
  edgesJoinNodes (App.graph (App.deleteNode id a)) /\
  (id ∉ map node_id (nodes (App.graph (App.deleteNode id a)))) /\
  Forall (fun e => source e <> id /\ target e <> id)
         (edges (App.graph (App.deleteNode id a))) /\
  App.algoState (App.deleteNode id a) = initializeAlgorithm.
Proof.
  intros Hjoin.
  unfold App.deleteNode, App.resetAlgo, App.clearGraph.
  cbn [App.setGraph App.setSelection App.setAlgoState App.graph
       App.algoState nodes edges].
  split; [|split; [|split; [|reflexivity]]].
  - unfold edgesJoinNodes in *. cbn [nodes edges].
    rewrite Forall_forall in *. intros e' He'.
    apply list_elem_of_fmap in He'. destruct He' as (e & -> & He).
    apply list_elem_of_filter in He. destruct He as [[Hs Ht] He].
    destruct (Hjoin e He) as [Hsrc Htgt]. cbn [set_flow source target].
    rewrite !findNode_is_Some_erased.
    rewrite !findNode_filter_other by assumption. split; assumption.
  - intros Hin. rewrite map_map in Hin. cbn [set_label node_id] in Hin.
    apply list_elem_of_fmap in Hin. destruct Hin as (n & Hid & Hn).
    apply list_elem_of_filter in Hn. destruct Hn as [Hne _]. congruence.
  - rewrite Forall_forall. intros e' He'.
    apply list_elem_of_fmap in He'. destruct He' as (e & -> & He).
    apply list_elem_of_filter in He. destruct He as [He _]. exact He.
Qed.

Lemma deleteNode_leaves_no_dangling_edge_example :
  edgesJoinNodes (App.graph App.initial) /\
  edgesJoinNodes (App.graph (App.deleteNode "v4" App.initial)).
Proof.
  split; [exact INITIAL_GRAPH_edgesJoinNodes|].
  apply (deleteNode_leaves_no_dangling_edge "v4" App.initial).
  exact INITIAL_GRAPH_edgesJoinNodes.
Defined.

(** ** The editor: [setSource] and [setSink] *)

Lemma find_source_flagged (i : string) (ns : list Node) (f : Node -> Node) :
  (forall n, node_id (f n) = node_id n) ->
  (forall n, truthy (isSource (f n)) = String.eqb (node_id n) i) ->
  option_map node_id (find (fun n => truthy (isSource n)) (map f ns))
  = if bool_decide (i ∈ map node_id ns) then Some i else None.
Proof.
  intros Hid Hflag. induction ns as [|n ns IH].
  - reflexivity.
  - cbn [map find]. rewrite Hflag.
    destruct (String.eqb_spec (node_id n) i) as [Heq | Hne].
    + cbn [option_map]. rewrite Hid, Heq.
      rewrite bool_decide_eq_true_2; [reflexivity|]. apply list_elem_of_here.
    + rewrite IH. destruct (decide (i ∈ map node_id ns)) as [Hin | Hin].
      * rewrite !bool_decide_eq_true_2; auto using list_elem_of_further.
      * rewrite !bool_decide_eq_false_2; auto.
        intros H. apply elem_of_cons in H. destruct H; auto.
Qed.

(** After [setSource id] the nodes flagged [isSource] are exactly those
    named [id], none of them is flagged [isSink], the other nodes keep
    their [isSink] flag, and a round starts from [id] if some node has
    that name and from nowhere otherwise; [setSink] does the same with the
    two flags exchanged, so that no node is ever left with both. *)
Theorem source_and_sink_tools_flag_one_id (id : string) (a : App.State) :
  Forall2 (fun n n' =>
             node_id n' = node_id n /\
             truthy (isSource n') = String.eqb (node_id n) id /\
             truthy (isSink n')
             = (negb (String.eqb (node_id n) id) && truthy (isSink n))%bool)
          (nodes (App.graph a)) (nodes (App.graph (App.setSource id a))) /\
  Forall2 (fun n n' =>
             node_id n' = node_id n /\
             truthy (isSink n') = String.eqb (node_id n) id /\
             truthy (isSource n')
             = (negb (String.eqb (node_id n) id) && truthy (isSource n))%bool)
          (nodes (App.graph a)) (nodes (App.graph (App.setSink id a))) /\
  sourceId (App.graph (App.setSource id a))
  = (if bool_decide (id ∈ map node_id (nodes (App.graph a)))
     then Some id else None).
Proof.
  unfold App.setSource, App.setSink, App.resetAlgo, App.clearGraph.
  cbn [App.setGraph App.setAlgoState App.graph setSource setSink nodes].
  split; [|split].
  - rewrite map_map. apply Forall2_fmap_r, Forall_Forall2_diag.
    apply Forall_forall. intros n _. cbn.
    destruct (String.eqb (node_id n) id); simpl; auto.
  - rewrite map_map. apply Forall2_fmap_r, Forall_Forall2_diag.
    apply Forall_forall. intros n _. cbn.
    destruct (String.eqb (node_id n) id); simpl; auto.
  - unfold sourceId. cbn [nodes]. rewrite map_map.
    apply find_source_flagged; intros n; cbn; [reflexivity|].
    destruct (String.eqb (node_id n) id); reflexivity.
Qed.

(** Making the source the sink leaves the graph without a source: every
    sequence of steps then returns the graph and the state it was given. *)
Theorem source_turned_sink_stalls (id : string) (a : App.State) (n : nat) :
  run n (App.graph (App.setSink id (App.setSource id a)))
        (App.algoState (App.setSink id (App.setSource id a)))
  = Returns (App.graph (App.setSink id (App.setSource id a)),
             App.algoState (App.setSink id (App.setSource id a))).
Proof.
  set (a' := App.setSink id (App.setSource id a)).
  assert (Hnone : find (fun n => truthy (isSource n)) (nodes (App.graph a'))
                  = None).
  { apply find_no_source. intros m Hm. unfold a' in Hm.
    unfold App.setSource, App.setSink, App.resetAlgo, App.clearGraph in Hm.
    cbn [App.setGraph App.setAlgoState App.graph setSource setSink nodes]
      in Hm.
    rewrite !map_map in Hm. apply list_elem_of_fmap in Hm.
    destruct Hm as (m0 & -> & _). cbn.
    destruct (String.eqb (node_id m0) id); reflexivity. }
  assert (Hstep : stepAlgorithm (App.graph a') (App.algoState a')
                  = Returns (App.graph a', App.algoState a')).
  { rewrite step_start_round by (left; reflexivity).
    unfold startRound. rewrite Hnone. reflexivity. }
  clearbody a'. induction n as [|n IH]; [reflexivity|].
  cbn [run]. rewrite Hstep. exact IH.
Qed.

(** ** The engine does not read coordinates *)

Section Coordinates.

Variable h : Node -> Node.
Hypothesis h_id : forall n, node_id (h n) = node_id n.
Hypothesis h_label : forall n, label (h n) = label n.
Hypothesis h_isSource : forall n, isSource (h n) = isSource n.
Hypothesis h_isSink : forall n, isSink (h n) = isSink n.
Hypothesis h_set_label : forall n l, h (set_label n l) = set_label (h n) l.

Lemma find_id_map (v : string) (ns : list Node) :
  find (fun n => String.eqb (node_id n) v) (map h ns)
  = option_map h (find (fun n => String.eqb (node_id n) v) ns).
Proof.
  induction ns as [|n ns IH]; [reflexivity|].
  cbn [map find]. rewrite h_id.
  destruct (String.eqb (node_id n) v); [reflexivity | exact IH].
Qed.

Lemma find_source_map (ns : list Node) :
  find (fun n => truthy (isSource n)) (map h ns)
  = option_map h (find (fun n => truthy (isSource n)) ns).
Proof.
  induction ns as [|n ns IH]; [reflexivity|].
  cbn [map find]. rewrite h_isSource.
  destruct (truthy (isSource n)); [reflexivity | exact IH].
Qed.

Lemma findIndex_id_map (v : string) (ns : list Node) :
  findIndex (fun n => String.eqb (node_id n) v) (map h ns)
  = option_map (fun p => (fst p, h (snd p)))
               (findIndex (fun n => String.eqb (node_id n) v) ns).
Proof.
  induction ns as [|n ns IH]; [reflexivity|].
  cbn [map findIndex]. rewrite h_id.
  destruct (String.eqb (node_id n) v); [reflexivity|].
  rewrite IH. destruct (findIndex _ ns) as [[i m]|]; reflexivity.
Qed.

Lemma clearLabels_map (ns : list Node) :
  clearLabels (map h ns) = map h (clearLabels ns).
Proof.
  unfold clearLabels. rewrite !map_map. apply map_ext. intros n.
  rewrite h_isSource, h_set_label. reflexivity.
Qed.

Lemma backtrack_map (fuel : nat) (ns : list Node) (c : Node)
    (path : list string) :
  backtrack fuel (map h ns) (h c) path = backtrack fuel ns c path.
Proof.
  revert c path. induction fuel as [|fuel IH]; intros c path; simpl;
    rewrite h_id; [reflexivity|].
  destruct (String.eqb (node_id c) "s"); [reflexivity|].
  rewrite h_label. destruct (label c) as [l|]; [|reflexivity].
  destruct (prevNodeId l) as [p|]; [|reflexivity].
  rewrite find_id_map. destruct (find _ ns) as [c'|]; [|reflexivity].
  simpl. apply IH.
Qed.

Lemma labelNode_map uId (u : option Node) targetId dir fa (ex : Expansion) :
  labelNode uId (option_map h u) targetId dir fa (mapExpansion h ex)
  = ex' ← labelNode uId u targetId dir fa ex; Returns (mapExpansion h ex').
Proof.
  unfold labelNode. cbn [mapExpansion newNodes newVisited newQueue
                         sinkReached newPath newBottleneck].
  rewrite findIndex_id_map.
  destruct (findIndex _ (newNodes ex)) as [[i tn]|]; [|reflexivity].
  cbn [option_map fst snd].
  destruct (bool_decide (targetId ∈ newVisited ex)); [reflexivity|].
  destruct u as [un|]; [|reflexivity]. cbn [option_map].
  rewrite h_label. destruct (label un) as [lu|]; [|reflexivity].
  cbv zeta. rewrite <- h_set_label.
  change (map h (newNodes ex)) with (h <$> newNodes ex).
  rewrite <- list_fmap_insert.
  change (h <$> ?l) with (map h l).
  rewrite h_isSink.
  destruct (truthy (isSink _)); [|reflexivity].
  rewrite backtrack_map, length_map.
  destruct (backtrack _ _ _ _) as [path| |]; reflexivity.
Qed.

Lemma forEach_map {A : Type} (f f' : A -> Expansion -> Outcome Expansion)
    (l : list A) :
  (forall a ex, f' a (mapExpansion h ex)
                = ex' ← f a ex; Returns (mapExpansion h ex')) ->
  forall ex, forEach f' l (mapExpansion h ex)
             = ex' ← forEach f l ex; Returns (mapExpansion h ex').
Proof.
  intros Hf. induction l as [|a l IH]; intros ex; [reflexivity|].
  cbn [forEach]. rewrite Hf.
  destruct (f a ex) as [ex1| |]; [|reflexivity..].
  simpl. apply IH.
Qed.

Lemma expand_map uId (u : option Node) (es : list Edge) (ex : Expansion) :
  expand uId (option_map h u) es (mapExpansion h ex)
  = ex' ← expand uId u es ex; Returns (mapExpansion h ex').
Proof.
  unfold expand.
  rewrite (forEach_map (forwardCheck uId u)).
  - destruct (forEach (forwardCheck uId u) _ ex) as [ex1| |];
      [|reflexivity..].
    simpl. apply (forEach_map (backwardCheck uId u)).
    intros e ex0. unfold backwardCheck. cbn [mapExpansion sinkReached].
    destruct (negb (sinkReached ex0) && (0 <? flow e));
      [apply labelNode_map | reflexivity].
  - intros e ex0. unfold forwardCheck. cbn [mapExpansion sinkReached].
    destruct (negb (sinkReached ex0) && (flow e <? capacity e));
      [apply labelNode_map | reflexivity].
Qed.

(** A step on the graph with [h] applied to its nodes is the step on the
    graph itself, with [h] applied to the nodes it returns. *)
Lemma stepAlgorithm_map (g : Graph) (st : AlgorithmState) :
  stepAlgorithm (mapNodes h g) st
  = r ← stepAlgorithm g st; Returns (mapNodes h (fst r), snd r).
Proof.
  assert (Hstart : startRound (mapNodes h g) st
                   = r ← startRound g st; Returns (mapNodes h (fst r), snd r)).
  { unfold startRound, mapNodes. cbn [nodes edges].
    rewrite find_source_map.
    destruct (find _ (nodes g)) as [src|]; [|reflexivity].
    cbn [option_map]. rewrite h_id, clearLabels_map. reflexivity. }
  destruct (phase st) eqn:Hph.
  - rewrite !step_start_round by (left; exact Hph). exact Hstart.
  - destruct (queue st) as [|uId rest] eqn:Hq.
    + unfold stepAlgorithm. rewrite Hph, Hq. reflexivity.
    + rewrite !(step_labeling _ st uId rest Hph Hq).
      unfold mapNodes. cbn [nodes edges].
      rewrite find_id_map.
      change {| newQueue := rest; newNodes := map h (nodes g);
                newVisited := visited st; neighborsFound := false;
                sinkReached := false; newPath := None;
                newBottleneck := None |}
        with (mapExpansion h
                {| newQueue := rest; newNodes := nodes g;
                   newVisited := visited st; neighborsFound := false;
                   sinkReached := false; newPath := None;
                   newBottleneck := None |}).
      rewrite expand_map.
      destruct (expand uId _ (edges g) _) as [ex2| |]; [|reflexivity..].
      simpl. destruct (sinkReached ex2); reflexivity.
  - unfold stepAlgorithm. rewrite Hph. cbn [mapNodes nodes edges].
    destruct (pathFound st), (bottleneck st); reflexivity.
  - rewrite !step_start_round by (right; exact Hph). exact Hstart.
Qed.

End Coordinates.

Lemma moveNode_mapNodes (id : string) (x y : Z) (a : App.State) :
  App.moveNode id x y a = App.setGraph (mapNodes (movedTo id x y)) a.
Proof. reflexivity. Qed.

(** Moving a node and stepping commute: the step taken after [moveNode] is
    the step taken before it, with the node moved in the result.  The
    coordinates are the only thing a drag changes and the engine never
    reads them. *)
Theorem moveNode_commutes_with_step (id : string) (x y : Z) (a : App.State) :
  App.handleStep (App.moveNode id x y a)
  = a' ← App.handleStep a; Returns (App.moveNode id x y a').
Proof.
  unfold App.handleStep. rewrite moveNode_mapNodes.
  cbn [App.setGraph App.graph App.algoState].
  rewrite (stepAlgorithm_map (movedTo id x y)).
  - destruct (stepAlgorithm (App.graph a) (App.algoState a)) as [[g' st']| |];
      reflexivity.
  - intros n. unfold movedTo. destruct (String.eqb (node_id n) id); reflexivity.
  - intros n. unfold movedTo. destruct (String.eqb (node_id n) id); reflexivity.
  - intros n. unfold movedTo. destruct (String.eqb (node_id n) id); reflexivity.
  - intros n. unfold movedTo. destruct (String.eqb (node_id n) id); reflexivity.
  - intros n l. unfold movedTo. cbn [set_label node_id].
    destruct (String.eqb (node_id n) id); reflexivity.
Qed.

(** ** The canvas highlights what the augmentation changes *)

Lemma augmentPair_lookup (bn : Z) (u v : string) (es : list Edge) (i : nat)
    (e : Edge) :
  es !! i = Some e ->
  exists e1,
    augmentPair bn u v es !! i = Some e1 /\
    source e1 = source e /\ target e1 = target e /\
    (e1 = e \/
     (String.eqb (source e) u && String.eqb (target e) v
      || String.eqb (source e) v && String.eqb (target e) u = true)).
Proof.
  intros Hlk. unfold augmentPair.
  destruct (findIndex _ es) as [[j ej]|] eqn:Hfw.
  - apply findIndex_Some in Hfw. destruct Hfw as [Hj Hp].
    destruct (decide (i = j)) as [-> | Hne].
    + assert (ej = e) as -> by congruence.
      exists (set_flow e (flow e + bn)).
      rewrite (list_lookup_insert_eq es j) by (eapply lookup_lt_Some; eauto).
      repeat split. right. rewrite Hp. reflexivity.
    + exists e. rewrite list_lookup_insert_ne by auto. auto.
  - destruct (findIndex (fun e => _ (source e) v && _) es)
      as [[j ej]|] eqn:Hbw.
    + apply findIndex_Some in Hbw. destruct Hbw as [Hj Hp].
      destruct (decide (i = j)) as [-> | Hne].
      * assert (ej = e) as -> by congruence.
        exists (set_flow e (flow e - bn)). cbv beta iota.
        rewrite (list_lookup_insert_eq es j) by (eapply lookup_lt_Some; eauto).
        repeat split. right. rewrite Hp. apply orb_true_r.
      * exists e. cbv beta iota. rewrite list_lookup_insert_ne by auto. auto.
    + exists e. auto.
Qed.

Lemma edgeOnPath_cons (e : Edge) (u v : string) (rest : list string) :
  edgeOnPath e (u :: v :: rest)
  = if String.eqb (source e) u && String.eqb (target e) v
       || String.eqb (source e) v && String.eqb (target e) u
    then true
    else edgeOnPath e (v :: rest).
Proof. reflexivity. Qed.

Lemma edgeOnPath_ends (e e1 : Edge) (path : list string) :
  source e1 = source e -> target e1 = target e ->
  edgeOnPath e1 path = edgeOnPath e path.
Proof.
  intros Hs Ht. induction path as [|u [|v rest] IH]; try reflexivity.
  rewrite !edgeOnPath_cons, Hs, Ht, IH. reflexivity.
Qed.

Lemma augmentPath_lookup (bn : Z) (path : list string) :
  forall (es : list Edge) (i : nat) (e : Edge),
    es !! i = Some e ->
    exists e',
      augmentPath bn path es !! i = Some e' /\
      (e' = e \/ edgeOnPath e path = true).
Proof.
  induction path as [|u [|v rest] IH]; intros es i e Hlk;
    try (exists e; split; [exact Hlk | left; reflexivity]).
  change (augmentPath bn (u :: v :: rest) es)
    with (augmentPath bn (v :: rest) (augmentPair bn u v es)).
  destruct (augmentPair_lookup bn u v es i e Hlk)
    as (e1 & Hlk1 & Hs & Ht & Hcase).
  destruct (IH (augmentPair bn u v es) i e1 Hlk1) as (e' & Hlk' & Hcase').
  exists e'. split; [exact Hlk'|].
  rewrite edgeOnPath_cons.
  rewrite (edgeOnPath_ends e e1 (v :: rest) Hs Ht) in Hcase'.
  destruct (String.eqb (source e) u && String.eqb (target e) v
            || String.eqb (source e) v && String.eqb (target e) u) eqn:Hj;
    [right; reflexivity|].
  destruct Hcase as [-> | Hcase]; [exact Hcase' | discriminate Hcase].
Qed.

(** Every edge a step changes is drawn as a path edge beforehand: if the
    edge at some index of the returned graph differs from the one at that
    index of the input, the canvas's [isEdgeInPath] holds of the input's
    edge for the input's [pathFound]. *)
Theorem changed_edges_are_highlighted (g g' : Graph)
    (st st' : AlgorithmState) (i : nat) (e e' : Edge) :
  stepAlgorithm g st = Returns (g', st') ->
  edges g !! i = Some e ->
  edges g' !! i = Some e' ->
  e' <> e ->
  phase st = AUGMENTING /\ isEdgeInPath (pathFound st) e = true.
Proof.
  intros Hstep Hlk Hlk' Hne.
  destruct (step_graph_frame g g' st st' Hstep) as (_ & _ & Hsame & _).
  destruct (decide (phase st = AUGMENTING)) as [Hph | Hph].
  2:{ rewrite (Hsame Hph) in Hlk'. congruence. }
  split; [exact Hph|].
  unfold stepAlgorithm in Hstep. rewrite Hph in Hstep.
  destruct (pathFound st) as [path|], (bottleneck st) as [bn|];
    injection Hstep as <- <-; try congruence.
  cbn [edges] in Hlk'.
  destruct (augmentPath_lookup bn path (edges g) i e Hlk)
    as (e2 & Hlk2 & Hcase).
  assert (e2 = e') by congruence. subst e2.
  destruct Hcase as [-> | Hon]; [contradiction | exact Hon].
Qed.

(** ** [findEdge] and the augmenter *)

Lemma find_findIndex_pair {A : Type} (p : A -> bool) (l : list A) :
  find p l = option_map snd (findIndex p l).
Proof.
  induction l as [|a l IH]; [reflexivity|]. simpl.
  destruct (p a); [reflexivity|]. rewrite IH.
  destruct (findIndex p l) as [[i b]|]; reflexivity.
Qed.

Lemma findIndex_or_None {A : Type} (p q : A -> bool) (l : list A) :
  findIndex (fun a => p a || q a) l = None <->
  findIndex p l = None /\ findIndex q l = None.
Proof.
  induction l as [|a l IH]; simpl; [tauto|].
  destruct (p a), (q a); simpl; try (split; [discriminate | intros [? ?]; discriminate]).
  destruct (findIndex (fun a => p a || q a) l) as [[i b]|],
           (findIndex p l) as [[j c]|], (findIndex q l) as [[k d]|];
    split; try discriminate; try tauto;
    try (intros [? ?]; discriminate);
    try (intros _; exfalso; destruct IH as [IH1 IH2];
         first [ destruct (IH1 eq_refl); discriminate
               | specialize (IH2 (conj eq_refl eq_refl)); discriminate ]).
Qed.

Lemma changed_edges_are_highlighted_example :
  phase strayAugmenting = AUGMENTING /\
  isEdgeInPath (pathFound strayAugmenting) (emptyEdge "e1" "s" "t" 5) = true.
Proof.
  eapply (changed_edges_are_highlighted directGraph _ strayAugmenting _ 0%nat
            (emptyEdge "e1" "s" "t" 5) _).
  - reflexivity.
  - reflexivity.
  - reflexivity.
  - discriminate.
Defined.

Lemma findEdge_sym (es : list Edge) (u v : string) :
  findEdge es u v = findEdge es v u.
Proof.
  unfold findEdge. induction es as [|e es IH]; [reflexivity|].
  cbn [find]. rewrite IH, orb_comm. reflexivity.
Qed.

Lemma set_flow_changed (e : Edge) (f : Z) : f <> flow e -> set_flow e f <> e.
Proof.
  intros Hne Heq. apply (f_equal flow) in Heq. simpl in Heq. contradiction.
Qed.

Lemma insert_changed {A : Type} (l : list A) (i : nat) (a b : A) :
  l !! i = Some a -> b <> a -> <[i := b]> l <> l.
Proof.
  intros Hlk Hne Heq. apply (f_equal (fun l => l !! i)) in Heq.
  rewrite list_lookup_insert_eq in Heq by (eapply lookup_lt_Some; eauto).
  congruence.
Qed.



(** ** Generated scenarios *)

Lemma findNode_flagged (f : Node -> Node) (ns : list Node) (v : string) :
  (forall n, node_id (f n) = node_id n) ->
  findNode (map f ns) v = option_map f (findNode ns v).
Proof.
  intros Hid. unfold findNode. induction ns as [|n ns IH]; [reflexivity|].
  cbn [map find]. rewrite Hid.
  destruct (String.eqb (node_id n) v); [reflexivity | exact IH].
Qed.

Lemma findNode_is_Some (ns : list Node) (v : string) :
  v ∈ map node_id ns -> is_Some (findNode ns v).
Proof.
  unfold findNode. induction ns as [|n ns IH]; intros Hin.
  - apply elem_of_nil in Hin. destruct Hin.
  - cbn [find]. destruct (String.eqb_spec (node_id n) v) as [Heq | Hne];
      [eauto|].
    apply IH. cbn [map] in Hin. apply elem_of_cons in Hin.
    destruct Hin as [Hin | Hin]; [congruence | exact Hin].
Qed.

Lemma postProcess_sourceNamed_s (rawNodes : list Node)
    (rawEdges : list RawEdge) :
  "s" ∈ map node_id rawNodes ->
  sourceNamed_s (postProcess rawNodes rawEdges).
Proof.
  intros Hin. split.
  - unfold sourceId, postProcess. cbn [nodes].
    rewrite (find_source_flagged "s");
      [|reflexivity|intros n; cbn; destruct (String.eqb _ _); reflexivity].
    rewrite bool_decide_eq_true_2 by exact Hin. reflexivity.
  - unfold postProcess. cbn [nodes].
    rewrite findNode_flagged by reflexivity.
    destruct (findNode_is_Some rawNodes "s" Hin) as [root Hroot].
    rewrite Hroot. eexists. split; [reflexivity|].
    cbn. apply findNode_id in Hroot. rewrite Hroot. reflexivity.
Qed.

(** A generated graph one of whose nodes is named [s] has that node as its
    source, whatever flags the answer carried, and every sequence of steps
    on it from the initial state returns: the walk back from the sink
    always ends. *)
Theorem generated_graph_runs_from_s (rawNodes : list Node)
    (rawEdges : list RawEdge) (n : nat) :
  "s" ∈ map node_id rawNodes ->
  sourceNamed_s (postProcess rawNodes rawEdges) /\
  exists g' st',
    run n (postProcess rawNodes rawEdges) initializeAlgorithm
    = Returns (g', st').
Proof.
  intros Hin.
  pose proof (postProcess_sourceNamed_s rawNodes rawEdges Hin) as Hnamed.
  split; [exact Hnamed|].
  destruct (run_safe n (postProcess rawNodes rawEdges) initializeAlgorithm
              Hnamed) as (g' & st' & Hrun & _).
  - split; [exact I | discriminate].
  - eauto.
Qed.

Lemma generated_graph_runs_from_s_example :
  ("s" ∈ map node_id [sinkNode "s" 0 0; sourceNode "t" 9 9]) /\
  sourceNamed_s
    (postProcess [sinkNode "s" 0 0; sourceNode "t" 9 9]
                 [ {| raw_source := "s"; raw_target := "t";
                      raw_capacity := 3 |} ]).
Proof.
  assert (H : "s" ∈ map node_id [sinkNode "s" 0 0; sourceNode "t" 9 9])
    by apply list_elem_of_here.
  split; [exact H|].
  apply (generated_graph_runs_from_s
           [sinkNode "s" 0 0; sourceNode "t" 9 9]
           [ {| raw_source := "s"; raw_target := "t"; raw_capacity := 3 |} ]
           3 H).
Defined.

Lemma e_name_inj (i j : nat) : "e" +:+ pretty i = "e" +:+ pretty j -> i = j.
Proof.
  intros H. injection H as H. exact (inj pretty i j H).
Qed.

Lemma NoDup_imap_inj {A B : Type} (f : nat -> A -> B) (l : list A) :
  (forall i j a b, f i a = f j b -> i = j) -> NoDup (imap f l).
Proof.
  revert f. induction l as [|a l IH]; intros f Hf; [constructor|].
  cbn [imap]. constructor.
  - intros Hin. apply elem_of_lookup_imap in Hin.
    destruct Hin as (i & b & Heq & _). apply Hf in Heq. discriminate Heq.
  - apply IH. intros i j x y Heq. apply Hf in Heq. congruence.
Qed.

(** The edges of a generated graph are the answer's edges in order, named
    [e0], [e1], ... so that no two share an id, and none carries flow; they
    respect the capacity invariant exactly when no capacity is negative. *)
Theorem generated_edges_are_numbered (rawNodes : list Node)
    (rawEdges : list RawEdge) :
  NoDup (map edge_id (edges (postProcess rawNodes rawEdges))) /\
  map edge_id (edges (postProcess rawNodes rawEdges))
  = imap (fun idx _ => "e" +:+ pretty idx) rawEdges /\
  map (fun e => (source e, target e, capacity e, flow e))
      (edges (postProcess rawNodes rawEdges))
  = map (fun r => (raw_source r, raw_target r, raw_capacity r, 0)) rawEdges /\
  (capacityInvariant (postProcess rawNodes rawEdges) <->
   Forall (fun r => 0 <= raw_capacity r) rawEdges).
Proof.
  unfold postProcess. cbn [edges].
  assert (Hids : forall l : list RawEdge,
            map edge_id
              (imap (fun idx e =>
                       {| edge_id := "e" +:+ pretty idx;
                          source := raw_source e; target := raw_target e;
                          capacity := raw_capacity e; flow := 0 |}) l)
            = imap (fun idx _ => "e" +:+ pretty idx) l).
  { intros l. change (map edge_id ?x) with (edge_id <$> x).
    rewrite fmap_imap. reflexivity. }
  split; [|split; [apply Hids|split]].
  - rewrite Hids. apply NoDup_imap_inj. intros i j _ _. apply e_name_inj.
  - change (map ?f ?x) with (f <$> x). rewrite fmap_imap.
    apply (imap_const
             (fun r => (raw_source r, raw_target r, raw_capacity r, 0))).
  - unfold capacityInvariant. cbn [edges]. rewrite !Forall_forall. split.
    + intros H r Hr. apply list_elem_of_lookup in Hr. destruct Hr as [i Hi].
      specialize (H {| edge_id := "e" +:+ pretty i;
                       source := raw_source r; target := raw_target r;
                       capacity := raw_capacity r; flow := 0 |}).
      cbn in H. apply H. apply elem_of_lookup_imap. eauto.
    + intros H e He. apply elem_of_lookup_imap in He.
      destruct He as (i & r & -> & Hr). cbn.
      apply list_elem_of_lookup_2 in Hr. specialize (H r Hr). lia.
Qed.

(** ** Termination *)

Lemma filter_visited_le (l : list string) (V : gset string) (v : string) :
  (length (filter (fun i => i ∉ {[v]} ∪ V) l)
   <= length (filter (fun i => i ∉ V) l))%nat.
Proof.
  induction l as [|x l IH]; [reflexivity|].
  rewrite !filter_cons.
  destruct (decide (x ∉ {[v]} ∪ V)) as [H1 | H1],
           (decide (x ∉ V)) as [H2 | H2]; simpl; try lia.
  exfalso. apply H2. intros HV. apply H1. apply elem_of_union_r. exact HV.
Qed.

Lemma filter_visited_lt (l : list string) (V : gset string) (v : string) :
  v ∈ l -> v ∉ V ->
  (length (filter (fun i => i ∉ {[v]} ∪ V) l)
   < length (filter (fun i => i ∉ V) l))%nat.
Proof.
  intros Hin Hv. induction l as [|x l IH].
  - apply elem_of_nil in Hin. destruct Hin.
  - rewrite !filter_cons.
    destruct (decide (x = v)) as [-> | Hne].
    + destruct (decide (v ∉ {[v]} ∪ V)) as [H1 | H1].
      { exfalso. apply H1. apply elem_of_union_l, elem_of_singleton.
        reflexivity. }
      destruct (decide (v ∉ V)) as [H2 | H2]; [|contradiction].
      simpl. pose proof (filter_visited_le l V v). lia.
    + apply elem_of_cons in Hin. destruct Hin as [Heq | Hin]; [congruence|].
      specialize (IH Hin).
      destruct (decide (x ∉ {[v]} ∪ V)) as [H1 | H1],
               (decide (x ∉ V)) as [H2 | H2]; simpl; try lia.
      exfalso. apply H2. intros HV. apply H1. apply elem_of_union_r.
      exact HV.
Qed.

Lemma node_ids_insert (ns : list Node) (i : nat) (n n' : Node) :
  ns !! i = Some n -> node_id n' = node_id n ->
  map node_id (<[i := n']> ns) = map node_id ns.
Proof.
  intros Hlk Hid. change (map node_id ?l) with (node_id <$> l).
  rewrite list_fmap_insert, Hid. apply list_insert_id.
  rewrite list_lookup_fmap, Hlk. reflexivity.
Qed.

Lemma unvisited_le (ns : list Node) (V : gset string) :
  (unvisited ns V <= length ns)%nat.
Proof.
  unfold unvisited. rewrite <- (length_map node_id ns). apply length_filter.
Qed.

(** The ids an expansion labels leave the unvisited nodes. *)
Lemma labelNeighbors_budget (uId : string) (uflow : LabelFlow)
    (arcs : list ResidualArc) (L : Labeling) :
  (unvisited (lab_nodes (labelNeighbors uId uflow arcs L))
             (lab_visited (labelNeighbors uId uflow arcs L))
   + length (lab_new (labelNeighbors uId uflow arcs L))
   <= unvisited (lab_nodes L) (lab_visited L) + length (lab_new L))%nat.
Proof.
  revert L. induction arcs as [|[[v dir] r] arcs IH]; intros L;
    [reflexivity|].
  simpl. destruct (lab_sink L); [reflexivity|].
  destruct (decide (v ∈ lab_visited L)) as [Hin | Hnin]; [apply IH|].
  destruct (findIndex _ (lab_nodes L)) as [[i n]|] eqn:Hfi; [|apply IH].
  etransitivity; [apply IH|].
  cbn [lab_nodes lab_visited lab_new].
  pose proof (findIndex_Some _ _ _ _ Hfi) as [Hlk Hid].
  apply String.eqb_eq in Hid.
  unfold unvisited. rewrite (node_ids_insert _ i n) by (auto; reflexivity).
  rewrite length_app. simpl.
  assert (Hv : v ∈ map node_id (lab_nodes L)).
  { rewrite <- Hid. apply list_elem_of_In, in_map, list_elem_of_In.
    eapply list_elem_of_lookup_2. exact Hlk. }
  pose proof (filter_visited_lt _ (lab_visited L) v Hv Hnin). lia.
Qed.

Lemma length_nodes_erased (ns ns' : list Node) :
  map eraseLabel ns' = map eraseLabel ns -> length ns' = length ns.
Proof.
  intros H. apply (f_equal length) in H. rewrite !length_map in H. exact H.
Qed.

Lemma sourceSide_s (g : Graph) : sourceSide g ["s"].
Proof.
  split; [apply NoDup_singleton|]. split; [apply list_elem_of_here|].
  intros v Hv Hne. apply list_elem_of_singleton in Hv. contradiction.
Qed.

Lemma flowInv_maxFlow_le (g : Graph) (st : AlgorithmState) :
  flowInv g st -> maxFlow st <= cutCapacity (edges g) ["s"].
Proof.
  intros (_ & _ & _ & Hcap & Hcons).
  apply flow_le_cut; auto. apply sourceSide_s.
Qed.

Lemma step_flowInv (g : Graph) (st : AlgorithmState) :
  flowInv g st ->
  exists g' st',
    stepAlgorithm g st = Returns (g', st') /\ flowInv g' st'.
Proof.
  intros (Hnamed & Hsafe & Hs & Hcap & Hcons).
  destruct (step_safe g st Hnamed Hsafe) as (g' & st' & Hstep & Hsafe').
  exists g', st'. split; [exact Hstep|].
  destruct (step_capacity g g' st st' (proj1 Hsafe) Hs Hcap Hstep)
    as [Hs' Hcap'].
  split; [eapply step_sourceNamed_s; eauto|].
  split; [exact Hsafe'|]. split; [exact Hs'|]. split; [exact Hcap'|].
  apply (step_conservation g g' st st' (proj1 Hsafe) Hs Hcons Hstep).
Qed.

(** Every step taken before FINISHED uses up some of the steps left. *)
Lemma step_progress (g : Graph) (st : AlgorithmState) :
  flowInv g st ->
  phase st <> FINISHED ->
  exists g' st',
    stepAlgorithm g st = Returns (g', st') /\ flowInv g' st' /\
    (stepsLeft g' st' < stepsLeft g st)%nat.
Proof.
  intros Hinv Hph.
  destruct (step_flowInv g st Hinv) as (g' & st' & Hstep & Hinv').
  exists g', st'. split; [exact Hstep|]. split; [exact Hinv'|].
  pose proof (flowInv_maxFlow_le g st Hinv) as Hle.
  pose proof (flowInv_maxFlow_le g' st' Hinv') as Hle'.
  destruct (step_graph_frame g g' st st' Hstep) as (Hn & He & _ & _).
  pose proof (length_nodes_erased _ _ Hn) as Hlen.
  pose proof (cutCapacity_erased (edges g) (edges g') ["s"] He) as Hcut.
  unfold stepsLeft. rewrite Hlen, Hcut.
  rewrite Hcut in Hle'.
  set (C := cutCapacity (edges g) ["s"]) in *.
  set (K := (2 * length (nodes g) + 4)%nat).
  destruct Hinv as (Hnamed & Hsafe & Hs & Hcap & Hcons).
  destruct (phase st) eqn:Hp; [| | |congruence].
  - (* IDLE *)
    rewrite step_start_round in Hstep by (left; exact Hp).
    unfold startRound in Hstep.
    destruct (find _ (nodes g)) as [src|] eqn:Hsrc.
    2:{ destruct Hnamed as [Hid _]. unfold sourceId in Hid.
        rewrite Hsrc in Hid. discriminate Hid. }
    injection Hstep as <- <-. unfold roundBudget. rewrite Hp.
    cbn [phase maxFlow nodes visited queue length].
    pose proof (unvisited_le (clearLabels (nodes g)) {[node_id src]}) as Hu.
    cbn [nodes] in Hlen. rewrite Hlen in Hu. lia.
  - (* LABELING *)
    destruct (queue st) as [|uId rest] eqn:Hq.
    + rewrite labeling_empty_queue_finishes in Hstep by assumption.
      injection Hstep as <- <-. unfold roundBudget. rewrite Hp, Hq.
      cbn [phase maxFlow length]. lia.
    + destruct (front_labeled g st uId rest Hsafe Hp Hq)
        as (un & lu & Hfind & Hlu).
      rewrite (step_labeling_labelNeighbors g st uId rest un lu
                 Hp Hq Hfind Hlu) in Hstep.
      cbv zeta in Hstep.
      pose proof (labelNeighbors_budget uId (label_flow lu)
                    (residualArcs (edges g) uId)
                    {| lab_nodes := nodes g; lab_visited := visited st;
                       lab_new := []; lab_sink := None |}) as Hb.
      cbn [lab_nodes lab_visited lab_new length] in Hb.
      destruct (lab_sink (labelNeighbors _ _ _ _)) as [tn|].
      * destruct (backtrack _ _ tn _) as [path| |]; simpl in Hstep;
          try discriminate.
        injection Hstep as <- <-. unfold roundBudget. rewrite Hp, Hq.
        cbn [phase maxFlow length]. lia.
      * injection Hstep as <- <-. unfold roundBudget. rewrite Hp, Hq.
        cbn [phase maxFlow nodes visited queue length].
        rewrite length_app. lia.
  - (* AUGMENTING *)
    destruct Hsafe as [Hrun _]. unfold runInv in Hrun. rewrite Hp in Hrun.
    destruct Hrun as (path & bn & tn & Hpath & Hbn & (rs & Hres & Hin & _)
                      & _).
    pose proof (pathResiduals_positive _ _ _ Hres) as Hpos.
    rewrite Forall_forall in Hpos. specialize (Hpos bn Hin).
    unfold stepAlgorithm in Hstep. rewrite Hp, Hpath, Hbn in Hstep.
    injection Hstep as <- <-. unfold roundBudget. rewrite Hp.
    cbn [phase maxFlow nodes] in *.
    assert (HA : (Z.to_nat (C - (maxFlow st + bn)) + 1
                  <= Z.to_nat (C - maxFlow st))%nat) by lia.
    assert (HK : ((Z.to_nat (C - (maxFlow st + bn)) + 1) * K
                  <= Z.to_nat (C - maxFlow st) * K)%nat).
    { apply Nat.mul_le_mono_r. exact HA. }
    unfold K in *. lia.
Qed.

Lemma run_reaches_finished_within (m : nat) :
  forall (g : Graph) (st : AlgorithmState),
    flowInv g st ->
    (stepsLeft g st <= m)%nat ->
    exists n g' st',
      (n <= m)%nat /\ run n g st = Returns (g', st') /\
      phase st' = FINISHED /\ flowInv g' st'.
Proof.
  induction m as [|m IH]; intros g st Hinv Hleft.
  - destruct (decide (phase st = FINISHED)) as [Hph | Hph].
    + exists 0%nat, g, st.
      split; [lia|]. split; [reflexivity|]. split; assumption.
    + destruct (step_progress g st Hinv Hph) as (g' & st' & _ & _ & Hlt).
      lia.
  - destruct (decide (phase st = FINISHED)) as [Hph | Hph].
    + exists 0%nat, g, st.
      split; [lia|]. split; [reflexivity|]. split; assumption.
    + destruct (step_progress g st Hinv Hph) as (g1 & st1 & Hstep & Hinv1 & Hlt).
      destruct (IH g1 st1 Hinv1) as (n & g' & st' & Hn & Hrun & Hfin & Hinv');
        [lia|].
      exists (S n), g', st'.
      split; [lia|]. split; [|split; assumption].
      cbn [run]. rewrite Hstep. exact Hrun.
Qed.

Lemma flowInv_initial (g : Graph) :
  sourceNamed_s g -> simpleEdges (edges g) -> emptyFlow g ->
  flowInv g initializeAlgorithm.
Proof.
  intros Hnamed Hs Hempty. split; [exact Hnamed|].
  split; [split; [exact I | discriminate]|].
  split; [exact Hs|]. split; [apply emptyFlow_capacity, Hempty|].
  apply emptyFlow_conservation, Hempty.
Qed.

(** On a graph whose source is the node named [s], in which no two edges
    join the same two nodes and no edge carries flow at the start, stepping
    from the initial state reaches phase FINISHED, within a number of steps
    bounded by the capacity of the edges out of [s] and the number of
    nodes. *)
Theorem run_reaches_finished (g : Graph) :
  sourceNamed_s g ->
  simpleEdges (edges g) ->
  emptyFlow g ->
  exists n g' st',
    (n <= stepBound g)%nat /\
    run n g initializeAlgorithm = Returns (g', st') /\
    phase st' = FINISHED.
Proof.
  intros Hnamed Hs Hempty.
  destruct (run_reaches_finished_within (stepBound g) g initializeAlgorithm)
    as (n & g' & st' & Hn & Hrun & Hfin & _).
  - apply flowInv_initial; assumption.
  - unfold stepsLeft, stepBound, roundBudget.
    cbn [phase maxFlow initializeAlgorithm]. rewrite Z.sub_0_r. lia.
  - exists n, g', st'. auto.
Qed.

Lemma run_reaches_finished_example :
  exists n g' st',
    (n <= stepBound INITIAL_GRAPH)%nat /\
    run n INITIAL_GRAPH initializeAlgorithm = Returns (g', st') /\
    phase st' = FINISHED.
Proof.
  apply (run_reaches_finished INITIAL_GRAPH).
  - exact INITIAL_GRAPH_sourceNamed_s.
  - exact INITIAL_GRAPH_simpleEdges.
  - exact INITIAL_GRAPH_emptyFlow.
Defined.

(** ** Auto-play *)

Lemma autoPlay_finished (fuel : nat) (a : App.State) :
  phase (App.algoState a) = FINISHED ->
  App.autoPlay fuel a = Returns (App.setIsAutoPlaying false a).
Proof.
  intros Hph. destruct fuel; cbn [App.autoPlay];
    rewrite bool_decide_eq_true_2 by exact Hph;
    rewrite andb_false_r; reflexivity.
Qed.

Lemma autoPlay_step (fuel : nat) (a : App.State) :
  App.isAutoPlaying a = true ->
  phase (App.algoState a) <> FINISHED ->
  App.autoPlay (S fuel) a = a' ← App.handleStep a; App.autoPlay fuel a'.
Proof.
  intros Hauto Hph. cbn [App.autoPlay].
  rewrite Hauto, bool_decide_eq_false_2 by exact Hph. reflexivity.
Qed.

(** Auto-play stops at the first state in phase FINISHED of the sequence of
    steps. *)
Lemma autoPlay_reaches (n : nat) :
  forall (fuel : nat) (a : App.State) (g' : Graph) (st' : AlgorithmState),
    (n <= fuel)%nat ->
    App.isAutoPlaying a = true ->
    run n (App.graph a) (App.algoState a) = Returns (g', st') ->
    phase st' = FINISHED ->
    exists a' k,
      (k <= n)%nat /\
      App.autoPlay fuel a = Returns a' /\
      App.isAutoPlaying a' = false /\
      phase (App.algoState a') = FINISHED /\
      run k (App.graph a) (App.algoState a)
      = Returns (App.graph a', App.algoState a').
Proof.
  induction n as [|n IH]; intros fuel a g' st' Hfuel Hauto Hrun Hfin.
  - cbn [run] in Hrun. injection Hrun as <- <-.
    exists (App.setIsAutoPlaying false a), 0%nat.
    rewrite autoPlay_finished by exact Hfin. repeat split; auto.
  - destruct (decide (phase (App.algoState a) = FINISHED)) as [Hph | Hph].
    { exists (App.setIsAutoPlaying false a), 0%nat.
      rewrite autoPlay_finished by exact Hph. repeat split; auto. lia. }
    destruct fuel as [|fuel]; [lia|].
    rewrite autoPlay_step by assumption.
    cbn [run] in Hrun. unfold App.handleStep.
    destruct (stepAlgorithm (App.graph a) (App.algoState a))
      as [[g1 st1]| |] eqn:Hstep; try discriminate Hrun.
    cbn [mbind Outcome_bind fst snd] in Hrun |- *.
    set (a1 := App.setAlgoState st1 (App.setGraph (fun _ => g1) a)).
    destruct (IH fuel a1 g' st') as (a' & k & Hk & Hplay & Hoff & Hph' & Hrun');
      [lia | exact Hauto | exact Hrun | exact Hfin |].
    exists a', (S k). split; [lia|]. split; [exact Hplay|].
    split; [exact Hoff|]. split; [exact Hph'|].
    cbn [run]. rewrite Hstep. exact Hrun'.
Qed.

Lemma clearGraph_erases (g : Graph) :
  App.clearGraph g
  = {| nodes := map eraseLabel (nodes g); edges := map eraseFlow (edges g) |}.
Proof. reflexivity. Qed.

Lemma map_eraseLabel_idem (ns : list Node) :
  map eraseLabel (map eraseLabel ns) = map eraseLabel ns.
Proof. rewrite map_map. apply map_ext. intros n. reflexivity. Qed.

Lemma map_eraseFlow_idem (es : list Edge) :
  map eraseFlow (map eraseFlow es) = map eraseFlow es.
Proof. rewrite map_map. apply map_ext. intros e. reflexivity. Qed.

Lemma clearGraph_sourceNamed_s (g : Graph) :
  sourceNamed_s g -> sourceNamed_s (App.clearGraph g).
Proof.
  intros [Hsrc (root & Hroot & Hflag)]. rewrite clearGraph_erases. split.
  - unfold sourceId in *. cbn [nodes]. rewrite sourceId_eraseLabel.
    exact Hsrc.
  - cbn [nodes]. rewrite findNode_eraseLabel, Hroot.
    exists (eraseLabel root). split; [reflexivity | exact Hflag].
Qed.

Lemma clearGraph_simpleEdges (g : Graph) :
  simpleEdges (edges g) -> simpleEdges (edges (App.clearGraph g)).
Proof.
  rewrite clearGraph_erases. unfold simpleEdges. cbn [edges].
  rewrite map_endpoints_eraseFlow, map_reversed_eraseFlow. auto.
Qed.

Lemma clearGraph_emptyFlow (g : Graph) :
  Forall (fun e => 0 <= capacity e) (edges g) ->
  emptyFlow (App.clearGraph g).
Proof.
  intros H. unfold emptyFlow. rewrite clearGraph_erases. cbn [edges].
  apply Forall_forall. intros e' He'. apply list_elem_of_fmap in He'.
  destruct He' as (e & -> & He). rewrite Forall_forall in H.
  split; [reflexivity | exact (H e He)].
Qed.

Lemma clearGraph_stepBound (g : Graph) :
  stepBound (App.clearGraph g) = stepBound g.
Proof.
  unfold stepBound. rewrite clearGraph_erases. cbn [nodes edges].
  rewrite length_map.
  rewrite (cutCapacity_erased (edges g) (map eraseFlow (edges g)) ["s"])
    by apply map_eraseFlow_idem.
  reflexivity.
Qed.



(** On a graph without a source, auto-play started in phase IDLE never
    stops by itself: each call of [handleStep] returns the state it was
    given. *)
Theorem auto_play_without_source_never_stops (a : App.State) (fuel : nat) :
  App.isAutoPlaying a = true ->
  phase (App.algoState a) = IDLE ->
  sourceId (App.graph a) = None ->
  App.handleStep a = Returns a /\ App.autoPlay fuel a = Diverges.
Proof.
  intros Hauto Hph Hsrc.
  assert (Hstep : App.handleStep a = Returns a).
  { unfold App.handleStep. rewrite step_start_round by (left; exact Hph).
    unfold startRound. unfold sourceId in Hsrc.
    destruct (find _ (nodes (App.graph a))); [discriminate Hsrc|].
    destruct a; reflexivity. }
  split; [exact Hstep|].
  induction fuel as [|fuel IH].
  - cbn [App.autoPlay]. rewrite Hauto, Hph. reflexivity.
  - rewrite autoPlay_step; [|exact Hauto|rewrite Hph; discriminate].
    rewrite Hstep. exact IH.
Qed.

Lemma auto_play_without_source_never_stops_example :
  App.autoPlay 1000 (App.setIsAutoPlaying true (App.handleClear App.initial))
  = Diverges.
Proof.
  apply (auto_play_without_source_never_stops
           (App.setIsAutoPlaying true (App.handleClear App.initial)) 1000);
    reflexivity.
Defined.

(** ** The state machine *)

Lemma labelNode_sink uId u targetId dir fa (ex ex' : Expansion) :
  labelNode uId u targetId dir fa ex = Returns ex' ->
  (sinkReached ex = true ->
   is_Some (newPath ex) /\ is_Some (newBottleneck ex)) ->
  sinkReached ex' = true ->
  is_Some (newPath ex') /\ is_Some (newBottleneck ex').
Proof.
  unfold labelNode.
  destruct (findIndex _ (newNodes ex)) as [[i tn]|];
    [|intros [= <-]; auto].
  case_bool_decide; [intros [= <-]; auto|].
  destruct u as [un|]; [|discriminate].
  destruct (label un) as [lu|]; [|discriminate].
  cbv zeta. destruct (truthy (isSink (set_label tn _))).
  - destruct (backtrack _ _ _ _) as [path| |]; simpl; try discriminate.
    intros [= <-] _ _. simpl. eauto.
  - intros [= <-]. simpl. auto.
Qed.

Lemma expand_sink uId u es (ex0 ex2 : Expansion) :
  expand uId u es ex0 = Returns ex2 ->
  sinkReached ex0 = false ->
  sinkReached ex2 = true ->
  is_Some (newPath ex2) /\ is_Some (newBottleneck ex2).
Proof.
  intros Hex H0.
  apply (expand_invariant
           (fun ex => sinkReached ex = true ->
                      is_Some (newPath ex) /\ is_Some (newBottleneck ex))
           uId u es) with (ex0 := ex0); [| | |exact Hex].
  - intros e ex ex' _ HP. unfold forwardCheck.
    destruct (negb (sinkReached ex) && (flow e <? capacity e)).
    + intros H. eapply labelNode_sink; eauto.
    + intros [= <-]. exact HP.
  - intros e ex ex' _ HP. unfold backwardCheck.
    destruct (negb (sinkReached ex) && (0 <? flow e)).
    + intros H. eapply labelNode_sink; eauto.
    + intros [= <-]. exact HP.
  - rewrite H0. discriminate.
Qed.

(** The transitions of a step: from IDLE or FINISHED to LABELING (or
    nowhere, without a source); from LABELING to FINISHED on an empty queue
    and to LABELING or AUGMENTING otherwise, the latter with a path and a
    bottleneck; from AUGMENTING to IDLE (or nowhere, without a path or a
    bottleneck).  No other pair of phases occurs. *)
Theorem step_transitions (g g' : Graph) (st st' : AlgorithmState) :
  stepAlgorithm g st = Returns (g', st') -> transition g g' st st'.
Proof.
  assert (Hstart : startRound g st = Returns (g', st') ->
                   phase st = IDLE \/ phase st = FINISHED ->
                   transition g g' st st').
  { unfold startRound, transition, sourceId.
    destruct (find _ (nodes g)) as [src|]; intros [= <- <-] [Hph | Hph];
      rewrite ?Hph; cbn [phase option_map queue visited pathFound bottleneck].
    1,2: (exists (node_id src); repeat split; reflexivity).
    all: (repeat split; reflexivity). }
  destruct (phase st) eqn:Hph.
  - rewrite step_start_round by (left; exact Hph). intros H.
    apply Hstart; auto.
  - destruct (queue st) as [|uId rest] eqn:Hq.
    + rewrite labeling_empty_queue_finishes by assumption.
      intros [= <- <-]. unfold transition. rewrite Hph, Hq. cbn [phase]. auto.
    + rewrite (step_labeling g st uId rest Hph Hq).
      destruct (expand uId _ (edges g) _) as [ex2| |] eqn:Hex; simpl;
        try discriminate.
      destruct (sinkReached ex2) eqn:Hsink; intros [= <- <-];
        unfold transition; rewrite Hph, Hq; cbn [phase queue pathFound
                                                 bottleneck].
      * destruct (expand_sink _ _ _ _ _ Hex eq_refl Hsink) as [Hp Hb].
        repeat split; auto; discriminate.
      * discriminate.
  - unfold stepAlgorithm. rewrite Hph.
    destruct (pathFound st) as [path|] eqn:Hp,
             (bottleneck st) as [bn|] eqn:Hb;
      intros [= <- <-]; unfold transition; rewrite Hph, Hp, ?Hb;
      cbn [phase pathFound bottleneck]; eauto 10.
  - rewrite step_start_round by (right; exact Hph). intros H.
    apply Hstart; auto.
Qed.

Lemma step_transitions_example :
  exists g' st',
    stepAlgorithm INITIAL_GRAPH initializeAlgorithm = Returns (g', st') /\
    transition INITIAL_GRAPH g' initializeAlgorithm st'.
Proof.
  eexists _, _. split; [reflexivity|].
  apply step_transitions. reflexivity.
Defined.

(** ** The log *)

Lemma step_logs (g g' : Graph) (st st' : AlgorithmState) :
  stepAlgorithm g st = Returns (g', st') ->
  exists extra, logs st' = logs st ++ extra /\ (length extra <= 1)%nat.
Proof.
  assert (Hstart : startRound g st = Returns (g', st') ->
                   exists extra, logs st' = logs st ++ extra
                                 /\ (length extra <= 1)%nat).
  { unfold startRound. destruct (find _ (nodes g)); intros [= <- <-].
    - eexists. split; [reflexivity | simpl; lia].
    - exists []. rewrite app_nil_r. split; [reflexivity | simpl; lia]. }
  destruct (phase st) eqn:Hph.
  - rewrite step_start_round by (left; exact Hph). exact Hstart.
  - destruct (queue st) as [|uId rest] eqn:Hq.
    + rewrite labeling_empty_queue_finishes by assumption.
      intros [= <- <-]. eexists. split; [reflexivity | simpl; lia].
    + rewrite (step_labeling g st uId rest Hph Hq).
      destruct (expand uId _ (edges g) _) as [ex2| |]; simpl;
        try discriminate.
      destruct (sinkReached ex2); intros [= <- <-]; cbn [logs].
      * eexists. split; [reflexivity | simpl; lia].
      * destruct (neighborsFound ex2).
        -- eexists. split; [reflexivity | simpl; lia].
        -- exists []. rewrite app_nil_r. split; [reflexivity | simpl; lia].
  - unfold stepAlgorithm. rewrite Hph.
    destruct (pathFound st), (bottleneck st); intros [= <- <-]; cbn [logs].
    1: (eexists; split; [reflexivity | simpl; lia]).
    all: (exists []; rewrite app_nil_r; split; [reflexivity | simpl; lia]).
  - rewrite step_start_round by (right; exact Hph). exact Hstart.
Qed.

(** The log only grows: after any number of steps the log of the input is
    a prefix of the log of the result, and each step adds at most one
    line. *)
Theorem run_logs_grow (n : nat) (g g' : Graph) (st st' : AlgorithmState) :
  run n g st = Returns (g', st') ->
  exists extra, logs st' = logs st ++ extra /\ (length extra <= n)%nat.
Proof.
  revert g st. induction n as [|n IH]; intros g st; cbn [run].
  - intros [= <- <-]. exists []. rewrite app_nil_r. auto.
  - destruct (stepAlgorithm g st) as [[g1 st1]| |] eqn:Hstep;
      try discriminate.
    intros Hrun. destruct (step_logs g g1 st st1 Hstep) as (e1 & H1 & Hl1).
    destruct (IH g1 st1 Hrun) as (e2 & H2 & Hl2).
    exists (e1 ++ e2). rewrite H2, H1, <- app_assoc, length_app.
    split; [reflexivity | lia].
Qed.

Lemma run_logs_grow_example :
  exists g' st' extra,
    run 27 INITIAL_GRAPH initializeAlgorithm = Returns (g', st') /\
    logs st' = logs initializeAlgorithm ++ extra /\
    (length extra <= 27)%nat.
Proof.
  destruct (run 27 INITIAL_GRAPH initializeAlgorithm)
    as [[g' st']| |] eqn:Hrun; try (vm_compute in Hrun; discriminate Hrun).
  destruct (run_logs_grow 27 INITIAL_GRAPH g' initializeAlgorithm st' Hrun)
    as (extra & Hlogs & Hlen).
  exists g', st', extra. auto.
Defined.

(** ** Conservation of flow along a run *)



(** ** A step from FINISHED *)

Lemma sourceNamed_s_topology (g g' : Graph) :
  map eraseLabel (nodes g') = map eraseLabel (nodes g) ->
  sourceNamed_s g -> sourceNamed_s g'.
Proof.
  intros Hn [Hsrc (root & Hroot & Hflag)]. split.
  - unfold sourceId in *. rewrite <- sourceId_eraseLabel, Hn.
    rewrite sourceId_eraseLabel. exact Hsrc.
  - pose proof (findNode_eraseLabel (nodes g') "s") as H'.
    rewrite Hn, findNode_eraseLabel, Hroot in H'. simpl in H'.
    destruct (findNode (nodes g') "s") as [root'|]; [|discriminate H'].
    exists root'. split; [reflexivity|].
    assert (Heq : eraseLabel root' = eraseLabel root)
      by (simpl in H'; congruence).
    apply (f_equal isSource) in Heq. simpl in Heq. rewrite Heq. exact Hflag.
Qed.

(** An expansion from inside a closed set without sinks stays inside it and
    labels no sink. *)
Lemma labelNeighbors_within (es : list Edge) (ns1 : list Node)
    (V1 : gset string) (uId : string) (uflow : LabelFlow)
    (arcs : list ResidualArc) :
  closedInv es ns1 V1 [] ->
  uId ∈ V1 ->
  (forall v dir r, (v, dir, r) ∈ arcs -> residualStep es uId v r) ->
  forall L,
    "s" ∈ lab_visited L ->
    map eraseLabel (lab_nodes L) = map eraseLabel ns1 ->
    (forall w, w ∈ lab_visited L -> w ∈ V1) ->
    lab_sink L = None ->
    (forall w, w ∈ lab_visited (labelNeighbors uId uflow arcs L) -> w ∈ V1) /\
    lab_sink (labelNeighbors uId uflow arcs L) = None.
Proof.
  intros [Hclosed Hnosink] Hu.
  induction arcs as [|[[v dir] r] arcs IH]; intros Harcs L Hs Her Hsub Hnone;
    [auto|].
  assert (Harcs' : forall v' dir' r',
             (v', dir', r') ∈ arcs -> residualStep es uId v' r').
  { intros v' dir' r' Hin. apply (Harcs v' dir' r').
    apply list_elem_of_further. exact Hin. }
  simpl. rewrite Hnone.
  destruct (decide (v ∈ lab_visited L)) as [Hin | Hnin]; [apply IH; auto|].
  destruct (findIndex _ (lab_nodes L)) as [[i n]|] eqn:Hfi; [|apply IH; auto].
  pose proof (findIndex_Some _ _ _ _ Hfi) as [Hlk Hid].
  assert (Hfn : findNode (lab_nodes L) v = Some n).
  { unfold findNode. rewrite find_findIndex, Hfi. reflexivity. }
  destruct (findNode_exists_erased (lab_nodes L) ns1 v n
              (eq_sym Her) Hfn) as [n1 Hn1].
  assert (HvV : v ∈ V1).
  { apply (Hclosed uId v r n1 Hu); [apply not_elem_of_nil | | exact Hn1].
    apply (Harcs v dir r). apply list_elem_of_here. }
  assert (Hvs : v <> "s") by (intros ->; contradiction).
  assert (Hsk : truthy (isSink n) = false).
  { destruct (truthy (isSink n)) eqn:Hsk; [|reflexivity].
    exfalso. apply (Hnosink v HvV Hvs).
    apply (sinkId_erased ns1 (lab_nodes L) v Her). exists n. auto. }
  apply IH; cbn [lab_nodes lab_visited lab_new lab_sink]; auto.
  - apply elem_of_union_r. exact Hs.
  - rewrite map_eraseLabel_insert by exact Hlk. exact Her.
  - intros w Hw. apply elem_of_union in Hw. destruct Hw as [Hw | Hw]; auto.
    apply elem_of_singleton in Hw. subst w. exact HvV.
  - rewrite Hsk. reflexivity.
Qed.

Lemma step_idleRound (es1 : list Edge) (ns1 : list Node) (V1 : gset string)
    (mf : Z) (g : Graph) (st : AlgorithmState) :
  closedInv es1 ns1 V1 [] ->
  idleRound es1 ns1 V1 mf g st ->
  exists g' st',
    stepAlgorithm g st = Returns (g', st') /\
    edges g' = es1 /\ maxFlow st' = mf /\
    (phase st' = FINISHED \/
     idleRound es1 ns1 V1 mf g' st' /\
     (roundBudget g' st' < roundBudget g st)%nat).
Proof.
  intros Hclosed (Hph & Hsafe & Hnamed & He & Hn & Hmf & Hsub).
  destruct (step_safe g st Hnamed Hsafe) as (g' & st' & Hstep & Hsafe').
  exists g', st'. split; [exact Hstep|].
  destruct (queue st) as [|uId rest] eqn:Hq.
  { rewrite labeling_empty_queue_finishes in Hstep by assumption.
    injection Hstep as <- <-. cbn [maxFlow phase]. auto. }
  destruct (front_labeled g st uId rest Hsafe Hph Hq)
    as (un & lu & Hfind & Hlu).
  pose proof (step_sourceNamed_s _ _ _ _ Hstep Hnamed) as Hnamed'.
  rewrite (step_labeling_labelNeighbors g st uId rest un lu
             Hph Hq Hfind Hlu) in Hstep.
  cbv zeta in Hstep.
  pose proof (labelNeighbors_budget uId (label_flow lu)
                (residualArcs (edges g) uId)
                {| lab_nodes := nodes g; lab_visited := visited st;
                   lab_new := []; lab_sink := None |}) as Hb.
  cbn [lab_nodes lab_visited lab_new length] in Hb.
  pose proof (labelNeighbors_expansionInv (nodes g) (visited st) uId
                (label_flow lu) (residualArcs (edges g) uId)
                {| lab_nodes := nodes g; lab_visited := visited st;
                   lab_new := []; lab_sink := None |}) as HL.
  destruct HL as (Her & _).
  { split; [reflexivity|]. split; [auto|]. split; [auto|].
    intros _ w Hw. apply elem_of_nil in Hw. destruct Hw. }
  assert (HuV : uId ∈ visited st).
  { destruct Hsafe as [Hrun _]. unfold runInv in Hrun.
    rewrite Hph, Hq in Hrun. destruct Hrun as [_ Hall].
    apply Forall_cons in Hall. apply Hall. }
  assert (HsV : "s" ∈ visited st).
  { destruct Hsafe as [Hrun _]. unfold runInv in Hrun.
    rewrite Hph in Hrun. apply Hrun. }
  destruct (labelNeighbors_within es1 ns1 V1 uId (label_flow lu)
              (residualArcs (edges g) uId) Hclosed (Hsub uId HuV))
    with (L := {| lab_nodes := nodes g; lab_visited := visited st;
                  lab_new := []; lab_sink := None |})
    as [Hsub' Hnone]; auto.
  { intros v dir r Hin. rewrite <- He. eapply residualArcs_step. exact Hin. }
  cbn [lab_nodes] in Her.
  rewrite Hnone in Hstep. injection Hstep as <- <-.
  cbn [edges maxFlow phase]. split; [exact He|]. split; [exact Hmf|].
  right. split.
  - split; [reflexivity|]. split; [exact Hsafe'|].
    split; [exact Hnamed'|]. split; [exact He|].
    split; [cbn [nodes]; congruence|]. split; [exact Hmf|].
    exact Hsub'.
  - unfold roundBudget. rewrite Hph, Hq.
    cbn [phase nodes visited queue length]. rewrite length_app. lia.
Qed.

Lemma idleRound_finishes (es1 : list Edge) (ns1 : list Node)
    (V1 : gset string) (mf : Z) (m : nat) :
  closedInv es1 ns1 V1 [] ->
  forall g st,
    idleRound es1 ns1 V1 mf g st ->
    (roundBudget g st <= m)%nat ->
    exists k g' st',
      (1 <= k <= m)%nat /\ run k g st = Returns (g', st') /\
      phase st' = FINISHED /\ maxFlow st' = mf /\ edges g' = es1.
Proof.
  intros Hclosed. induction m as [|m IH]; intros g st Hround Hle.
  - exfalso. destruct Hround as (Hph & _). unfold roundBudget in Hle.
    rewrite Hph in Hle. lia.
  - destruct (step_idleRound es1 ns1 V1 mf g st Hclosed Hround)
      as (g1 & st1 & Hstep & He & Hmf & [Hfin | [Hround1 Hlt]]).
    + exists 1%nat, g1, st1. split; [lia|]. cbn [run]. rewrite Hstep.
      auto.
    + destruct (IH g1 st1 Hround1) as (k & g' & st' & Hk & Hrun & Hrest);
        [lia|].
      exists (S k), g', st'. split; [lia|]. cbn [run]. rewrite Hstep.
      auto.
Qed.

(** On a graph whose source is the node named [s], a step taken from a
    state in phase FINISHED that a run has reached starts a round which
    finds no path: within [2 * nodes + 3] steps the run is in phase FINISHED
    again, with the same [maxFlow] and the same edge flows. *)
Theorem restart_from_finished_keeps_the_flow (n : nat) (g g1 : Graph)
    (st1 : AlgorithmState) :
  sourceNamed_s g ->
  run n g initializeAlgorithm = Returns (g1, st1) ->
  phase st1 = FINISHED ->
  exists k g2 st2,
    (2 <= k <= 2 * length (nodes g) + 3)%nat /\
    run k g1 st1 = Returns (g2, st2) /\
    phase st2 = FINISHED /\
    maxFlow st2 = maxFlow st1 /\
    edges g2 = edges g1.
Proof.
  intros Hnamed Hrun Hph.
  destruct (run_topology n g g1 initializeAlgorithm st1 Hrun) as [Hn _].
  pose proof (sourceNamed_s_topology g g1 Hn Hnamed) as Hnamed1.
  pose proof (length_nodes_erased _ _ Hn) as Hlen.
  assert (Hsafe1 : safeInv g1 st1).
  { destruct (run_safe n g initializeAlgorithm Hnamed)
      as (g' & st' & Hrun' & Hsafe); [split; [exact I | discriminate]|].
    rewrite Hrun in Hrun'. injection Hrun' as <- <-. exact Hsafe. }
  pose proof (run_exhaustInv n g g1 initializeAlgorithm st1 Hnamed) as Hex.
  unfold exhaustInv in Hex at 2. rewrite Hph in Hex.
  destruct Hex as [Hclosed Hvis]; [| |exact Hrun|].
  { split; [exact I | discriminate]. }
  { exact I. }
  destruct (step_safe g1 st1 Hnamed1 Hsafe1) as (g2 & st2 & Hstep & Hsafe2).
  pose proof (step_sourceNamed_s _ _ _ _ Hstep Hnamed1) as Hnamed2.
  pose proof Hstep as Hstart.
  rewrite step_start_round in Hstart by (right; exact Hph).
  unfold startRound in Hstart.
  destruct Hnamed1 as [Hsrc1 Hroot1]. unfold sourceId in Hsrc1.
  destruct (find _ (nodes g1)) as [src|] eqn:Hfind; [|discriminate Hsrc1].
  injection Hsrc1 as Hsrc1. injection Hstart as Hg2 Hst2.
  assert (Hround : idleRound (edges g1) (nodes g1) (visited st1)
                     (maxFlow st1) g2 st2).
  { split; [rewrite <- Hst2; reflexivity|].
    split; [exact Hsafe2|]. split; [exact Hnamed2|].
    split; [rewrite <- Hg2; reflexivity|].
    split; [rewrite <- Hg2; apply clearLabels_topology|].
    split; [rewrite <- Hst2; reflexivity|].
    intros w Hw. rewrite <- Hst2 in Hw. cbn [visited] in Hw.
    rewrite Hsrc1 in Hw. apply elem_of_singleton in Hw.
    subst w. exact Hvis. }
  destruct (idleRound_finishes (edges g1) (nodes g1) (visited st1)
              (maxFlow st1) (2 * length (nodes g) + 2) Hclosed g2 st2 Hround)
    as (k & g3 & st3 & Hk & Hrun3 & Hfin & Hmf & He).
  { unfold roundBudget. rewrite <- Hst2, <- Hg2.
    cbn [phase nodes visited queue length].
    pose proof (unvisited_le (clearLabels (nodes g1)) {[node_id src]}) as Hu.
    unfold clearLabels in Hu at 2. rewrite length_map, Hlen in Hu. lia. }
  exists (S k), g3, st3. split; [lia|]. split; [|auto].
  cbn [run]. rewrite Hstep. exact Hrun3.
Qed.

Lemma restart_from_finished_keeps_the_flow_example :
  exists g1 st1 k g2 st2,
    run 27 INITIAL_GRAPH initializeAlgorithm = Returns (g1, st1) /\
    run k g1 st1 = Returns (g2, st2) /\
    phase st2 = FINISHED /\ maxFlow st2 = maxFlow st1.
Proof.
  destruct (run 27 INITIAL_GRAPH initializeAlgorithm)
    as [[g1 st1]| |] eqn:Hrun; try (vm_compute in Hrun; discriminate Hrun).
  destruct (restart_from_finished_keeps_the_flow 27 INITIAL_GRAPH g1 st1
              INITIAL_GRAPH_sourceNamed_s Hrun)
    as (k & g2 & st2 & _ & Hrun2 & Hfin & Hmf & _).
  - apply (f_equal phaseOf) in Hrun. vm_compute in Hrun.
    injection Hrun as Hrun. symmetry. exact Hrun.
  - exists g1, st1, k, g2, st2. auto.
Defined.

(** ** Edits that keep a graph suitable *)

Lemma find_source_map_s (f : Node -> Node) (ns : list Node) :
  (forall n, node_id (f n) = node_id n) ->
  (forall n, truthy (isSource (f n)) = true -> truthy (isSource n) = true) ->
  (forall n, node_id n = "s" -> isSource (f n) = isSource n) ->
  option_map node_id (find (fun n => truthy (isSource n)) ns) = Some "s" ->
  option_map node_id (find (fun n => truthy (isSource n)) (map f ns))
  = Some "s".
Proof.
  intros Hid Hless Hs. induction ns as [|n ns IH]; [discriminate|].
  cbn [map find]. destruct (truthy (isSource n)) eqn:Hn.
  - cbn [option_map]. intros [= Hsrc].
    rewrite (Hs n Hsrc), Hn. cbn [option_map]. rewrite Hid, Hsrc.
    reflexivity.
  - intros Hsrc. destruct (truthy (isSource (f n))) eqn:Hfn.
    + apply Hless in Hfn. congruence.
    + apply IH. exact Hsrc.
Qed.

Lemma sourceNamed_s_map (f : Node -> Node) (g : Graph) :
  (forall n, node_id (f n) = node_id n) ->
  (forall n, truthy (isSource (f n)) = true -> truthy (isSource n) = true) ->
  (forall n, node_id n = "s" -> isSource (f n) = isSource n) ->
  sourceNamed_s g ->
  sourceNamed_s {| nodes := map f (nodes g); edges := edges g |}.
Proof.
  intros Hid Hless Hs [Hsrc (root & Hroot & Hflag)]. split.
  - unfold sourceId in *. cbn [nodes].
    apply find_source_map_s; assumption.
  - cbn [nodes]. rewrite (findNode_flagged f _ "s" Hid), Hroot.
    exists (f root). split; [reflexivity|].
    rewrite (Hs root (findNode_id _ _ _ Hroot)). exact Hflag.
Qed.

Lemma edgesJoinNodes_map (f : Node -> Node) (g : Graph) :
  (forall n, node_id (f n) = node_id n) ->
  edgesJoinNodes g ->
  edgesJoinNodes {| nodes := map f (nodes g); edges := edges g |}.
Proof.
  intros Hid Hjoin. unfold edgesJoinNodes in *. cbn [nodes edges].
  eapply Forall_impl; [exact Hjoin|]. intros e [Hs Ht]. cbv beta.
  rewrite !(findNode_flagged f _ _ Hid).
  destruct Hs as [ns ->], Ht as [nt ->]. simpl. eauto.
Qed.

Lemma suitable_map (f : Node -> Node) (g : Graph) :
  (forall n, node_id (f n) = node_id n) ->
  (forall n, truthy (isSource (f n)) = true -> truthy (isSource n) = true) ->
  (forall n, node_id n = "s" -> isSource (f n) = isSource n) ->
  suitable g ->
  suitable {| nodes := map f (nodes g); edges := edges g |}.
Proof.
  intros Hid Hless Hs (Hnamed & Hsimple & Hjoin & Hcap).
  split; [apply sourceNamed_s_map; assumption|].
  split; [exact Hsimple|].
  split; [apply edgesJoinNodes_map; assumption | exact Hcap].
Qed.

Lemma suitable_clearGraph (g : Graph) :
  suitable g -> suitable (App.clearGraph g).
Proof.
  intros (Hnamed & Hsimple & Hjoin & Hcap).
  split; [apply clearGraph_sourceNamed_s, Hnamed|].
  split; [apply clearGraph_simpleEdges, Hsimple|].
  split.
  - apply (edgesJoinNodes_topology g (App.clearGraph g)); auto.
    + apply map_eraseLabel_idem.
    + apply map_eraseFlow_idem.
  - unfold App.clearGraph. cbn [edges]. apply Forall_forall.
    intros e' He'. apply list_elem_of_fmap in He'.
    destruct He' as (e & -> & He). rewrite Forall_forall in Hcap.
    exact (Hcap e He).
Qed.

Lemma suitable_resetUnlessIdle (before a : App.State) :
  suitable (App.graph a) ->
  suitable (App.graph (App.resetUnlessIdle before a)).
Proof.
  intros H. unfold App.resetUnlessIdle.
  destruct (phase (App.algoState before)); try exact H;
    apply suitable_clearGraph, H.
Qed.

Lemma find_app_Some {A : Type} (p : A -> bool) (l k : list A) (a : A) :
  find p l = Some a -> find p (l ++ k) = Some a.
Proof.
  induction l as [|b l IH]; [discriminate|]. simpl.
  destruct (p b); [auto | exact IH].
Qed.

Lemma suitable_add_node (g : Graph) (n : Node) :
  suitable g -> suitable {| nodes := nodes g ++ [n]; edges := edges g |}.
Proof.
  intros ([Hsrc (root & Hroot & Hflag)] & Hsimple & Hjoin & Hcap).
  split; [|split; [exact Hsimple|split; [|exact Hcap]]].
  - split.
    + unfold sourceId in *. cbn [nodes].
      destruct (find _ (nodes g)) as [src|] eqn:Hf; [|discriminate Hsrc].
      rewrite (find_app_Some _ _ _ _ Hf). exact Hsrc.
    + exists root. split; [|exact Hflag]. cbn [nodes].
      apply find_app_Some. exact Hroot.
  - unfold edgesJoinNodes in *. cbn [nodes edges].
    eapply Forall_impl; [exact Hjoin|]. intros e [[ns Hs] [nt Ht]].
    unfold findNode in *.
    rewrite (find_app_Some _ _ _ _ Hs), (find_app_Some _ _ _ _ Ht). eauto.
Qed.

Lemma Forall_filter_keep {A : Type} (P : A -> Prop) (Q : A -> Prop)
    `{forall a, Decision (Q a)} (l : list A) :
  Forall P l -> Forall P (filter Q l).
Proof.
  rewrite !Forall_forall. intros HP a Ha.
  apply list_elem_of_filter in Ha. apply HP, Ha.
Qed.

Lemma simpleEdges_sublist (es es' : list Edge) :
  es' `sublist_of` es -> simpleEdges es -> simpleEdges es'.
Proof.
  intros Hsub Hnd. unfold simpleEdges in *.
  eapply sublist_NoDup; [exact Hnd|].
  apply sublist_app; apply fmap_sublist; exact Hsub.
Qed.

Lemma find_filter_Some {A : Type} (p : A -> bool) (q : A -> Prop)
    `{forall a, Decision (q a)} (l : list A) (a : A) :
  find p l = Some a -> q a -> find p (filter q l) = Some a.
Proof.
  intros Hf Hq. induction l as [|b l IH]; [discriminate|].
  simpl in Hf. rewrite filter_cons. destruct (p b) eqn:Hb.
  - injection Hf as ->. rewrite decide_True by exact Hq. simpl.
    rewrite Hb. reflexivity.
  - destruct (decide (q b)); [simpl; rewrite Hb|]; apply IH, Hf.
Qed.

Lemma suitable_delete_node (g : Graph) (id : string) :
  id <> "s" ->
  suitable g ->
  suitable {| nodes := filter (fun n => node_id n <> id) (nodes g);
              edges := filter (fun e => source e <> id /\ target e <> id)
                              (edges g) |}.
Proof.
  intros Hne ([Hsrc (root & Hroot & Hflag)] & Hsimple & Hjoin & Hcap).
  split; [|split; [|split]].
  - split.
    + unfold sourceId in *. cbn [nodes].
      destruct (find _ (nodes g)) as [src|] eqn:Hf; [|discriminate Hsrc].
      cbn [option_map] in Hsrc. injection Hsrc as Hsrc.
      rewrite (find_filter_Some _ (fun n => node_id n <> id) _ src Hf);
        [cbn [option_map]; congruence | congruence].
    + exists root. split; [|exact Hflag]. cbn [nodes].
      rewrite findNode_filter_other by auto. exact Hroot.
  - cbn [edges]. eapply simpleEdges_sublist; [|exact Hsimple].
    apply sublist_filter.
  - unfold edgesJoinNodes in *. cbn [nodes edges].
    rewrite Forall_forall in *. intros e He.
    apply list_elem_of_filter in He. destruct He as [[Hs Ht] He].
    rewrite !findNode_filter_other by assumption. exact (Hjoin e He).
  - cbn [edges]. apply Forall_filter_keep. exact Hcap.
Qed.

Lemma suitable_delete_edge (g : Graph) (id : string) :
  suitable g ->
  suitable {| nodes := nodes g;
              edges := filter (fun e => edge_id e <> id) (edges g) |}.
Proof.
  intros (Hnamed & Hsimple & Hjoin & Hcap).
  split; [exact Hnamed|]. split; [|split].
  - cbn [edges]. eapply simpleEdges_sublist; [|exact Hsimple].
    apply sublist_filter.
  - unfold edgesJoinNodes in *. cbn [nodes edges].
    apply Forall_filter_keep. exact Hjoin.
  - cbn [edges]. apply Forall_filter_keep. exact Hcap.
Qed.

Lemma reversed_hasEdge (es : list Edge) (a b : string) :
  (a, b) ∈ map reversed es <-> hasEdge es b a.
Proof.
  unfold hasEdge. induction es as [|e es IH]; cbn [map].
  - split; intros H; apply elem_of_nil in H; destruct H.
  - rewrite !elem_of_cons, IH. unfold reversed at 1, endpoints at 1.
    split; (intros [Heq | H]; [left | right; exact H]);
      injection Heq as -> ->; reflexivity.
Qed.

Lemma suitable_add_edge (g : Graph) (e : Edge) :
  source e <> target e ->
  ~ hasEdge (edges g) (source e) (target e) ->
  ~ hasEdge (edges g) (target e) (source e) ->
  is_Some (findNode (nodes g) (source e)) ->
  is_Some (findNode (nodes g) (target e)) ->
  0 <= capacity e ->
  suitable g ->
  suitable {| nodes := nodes g; edges := edges g ++ [e] |}.
Proof.
  intros Hne Hst Hts Hs Ht Hc (Hnamed & Hsimple & Hjoin & Hcap).
  split; [exact Hnamed|]. split; [|split].
  - unfold simpleEdges in *. cbn [edges]. rewrite !map_app. cbn [map].
    assert (Hperm : (map endpoints (edges g) ++ [endpoints e])
                    ++ map reversed (edges g) ++ [reversed e]
                    ≡ₚ endpoints e :: reversed e
                       :: (map endpoints (edges g) ++ map reversed (edges g))).
    { rewrite <- !Permutation_cons_append. cbn [app].
      rewrite <- Permutation_middle. reflexivity. }
    rewrite Hperm. constructor; [|constructor; [|exact Hsimple]].
    + intros Hin. apply elem_of_cons in Hin. destruct Hin as [Heq | Hin].
      * unfold endpoints, reversed in Heq. injection Heq as Heq _.
        contradiction.
      * apply elem_of_app in Hin. destruct Hin as [Hin | Hin].
        -- apply Hst. exact Hin.
        -- apply Hts. apply reversed_hasEdge. exact Hin.
    + intros Hin. apply elem_of_app in Hin. destruct Hin as [Hin | Hin].
      * apply Hts. exact Hin.
      * apply Hst. apply reversed_hasEdge. exact Hin.
  - unfold edgesJoinNodes in *. cbn [nodes edges].
    apply Forall_app. split; [exact Hjoin|]. constructor; auto.
  - cbn [edges]. apply Forall_app. split; [exact Hcap|]. constructor; auto.
Qed.

(** The edits that keep a graph in the class on which auto-play is shown
    to find the maximum flow: adding a node, moving a node, deleting an
    edge, resetting, deleting a node other than [s], making a node other
    than [s] the sink, and adding an edge between two distinct nodes of
    the graph that no edge joins yet. *)
Theorem edits_keep_the_graph_suitable (a : App.State) :
  suitable (App.graph a) ->
  (forall x y a', App.addNode x y a = Returns a' -> suitable (App.graph a')) /\
  (forall id x y, suitable (App.graph (App.moveNode id x y a))) /\
  (forall id, suitable (App.graph (App.deleteEdge id a))) /\
  suitable (App.graph (App.handleReset a)) /\
  (forall id, id <> "s" -> suitable (App.graph (App.deleteNode id a))) /\
  (forall id, id <> "s" -> suitable (App.graph (App.setSink id a))) /\
  (forall s t now roll,
     s <> t ->
     ~ hasEdge (edges (App.graph a)) t s ->
     is_Some (findNode (nodes (App.graph a)) s) ->
     is_Some (findNode (nodes (App.graph a)) t) ->
     0 <= roll ->
     suitable (App.graph (App.addEdge s t now roll a))).
Proof.
  intros Hsuit.
  split; [|split; [|split; [|split; [|split; [|split]]]]].
  - intros x y a'. unfold App.addNode.
    destruct (App.nextFreeIdx _ _ _) as [k| |]; simpl; try discriminate.
    intros [= <-]. apply suitable_resetUnlessIdle.
    cbn [App.setGraph App.graph]. apply suitable_add_node, Hsuit.
  - intros id x y. cbn [App.moveNode App.setGraph App.graph].
    apply suitable_map; auto; intros n; destruct (String.eqb (node_id n) id);
      auto.
  - intros id. unfold App.deleteEdge. apply suitable_resetUnlessIdle.
    cbn [App.setSelection App.setGraph App.graph].
    apply suitable_delete_edge, Hsuit.
  - cbn [App.handleReset App.setSelection App.setAiMessage App.resetAlgo
         App.setGraph App.setAlgoState App.setIsAutoPlaying App.graph].
    apply suitable_clearGraph, Hsuit.
  - intros id Hid. unfold App.deleteNode, App.resetAlgo.
    cbn [App.setSelection App.setGraph App.setAlgoState App.graph].
    apply suitable_clearGraph, suitable_delete_node; assumption.
  - intros id Hid. unfold App.setSink, App.resetAlgo.
    cbn [App.setGraph App.setAlgoState App.graph].
    apply suitable_clearGraph. unfold setSink.
    apply suitable_map; auto.
    + intros n. cbn. destruct (String.eqb (node_id n) id);
        [discriminate | auto].
    + intros n Hn. cbn.
      destruct (String.eqb_spec (node_id n) id) as [Heq | _];
        [congruence | reflexivity].
  - intros s t now roll Hne Hts Hs Ht Hroll. unfold App.addEdge.
    destruct (existsb _ (edges (App.graph a))) eqn:Hex; [exact Hsuit|].
    apply suitable_resetUnlessIdle. cbn [App.setGraph App.graph].
    apply suitable_add_edge; cbn [source target capacity]; auto; [|lia].
    intros H. apply existsb_hasEdge in H. congruence.
Qed.

Lemma INITIAL_GRAPH_suitable : suitable (App.graph App.initial).
Proof.
  split; [exact INITIAL_GRAPH_sourceNamed_s|].
  split; [exact INITIAL_GRAPH_simpleEdges|].
  split; [exact INITIAL_GRAPH_edgesJoinNodes|].
  unfold App.initial, INITIAL_GRAPH. cbn [App.graph edges].
  repeat (constructor; [vm_compute; discriminate|]). constructor.
Qed.

Lemma edits_keep_the_graph_suitable_example :
  suitable (App.graph App.initial) /\
  suitable (App.graph (App.deleteNode "v3" App.initial)) /\
  suitable (App.graph (App.addEdge "v2" "v3" 1700000000000 6 App.initial)).
Proof.
  pose proof (edits_keep_the_graph_suitable App.initial
                INITIAL_GRAPH_suitable)
    as (_ & _ & _ & _ & Hdel & _ & Hadd).
  split; [exact INITIAL_GRAPH_suitable|]. split.
  - apply Hdel. discriminate.
  - apply Hadd; try (eexists; reflexivity); try lia; try discriminate.
    intros H. apply existsb_hasEdge in H. discriminate H.
Defined.

(** ** What the labels say during a round *)

Lemma labelTree_prev (ns : list Node) (es : list Edge) (v : string)
    (path : list string) (m : Z) :
  labelTree ns es v path m ->
  exists n l pre,
    findNode ns v = Some n /\ label n = Some l /\
    path = pre ++ [v] /\ last pre = prevNodeId l.
Proof.
  destruct 1 as
      [v n root l r Hv Hn Hl Hp Hf Hroot Hres
      |v p n l path mp r Hv Hps Hn Hl Hp Hf Htp Hres Hfresh].
  - exists n, l, ["s"]. rewrite Hp. auto.
  - exists n, l, path. rewrite Hp.
    destruct (labelTree_target _ _ _ _ _ Htp) as (_ & Hlast & _). auto.
Qed.

(** On a graph whose first node flagged [isSource] is named [s], in every
    state in phase LABELING that a run reaches, each visited node other
    than [s] carries a label that describes a way from [s]: there is a
    path of residual steps from [s] to the node through visited nodes only,
    without repetition, whose last node but one is the label's
    [prevNodeId] and whose least residual capacity is the label's [flow];
    and every queued id has been visited. *)
Theorem labels_describe_residual_paths (n : nat) (g g' : Graph)
    (st' : AlgorithmState) :
  sourceId g = Some "s" ->
  run n g initializeAlgorithm = Returns (g', st') ->
  phase st' = LABELING ->
  "s" ∈ visited st' /\
  Forall (fun w => w ∈ visited st') (queue st') /\
  forall v, v ∈ visited st' -> v <> "s" ->
    exists node l pre m,
      findNode (nodes g') v = Some node /\
      label node = Some l /\
      label_flow l = Finite m /\
      last pre = prevNodeId l /\
      head (pre ++ [v]) = Some "s" /\
      NoDup (pre ++ [v]) /\
      Forall (fun w => w ∈ visited st') (pre ++ [v]) /\
      pathValid (edges g') (pre ++ [v]) m.
Proof.
  intros Hsrc Hrun Hph.
  pose proof (run_runInv n g g' initializeAlgorithm st' Hsrc I Hrun) as Hinv.
  unfold runInv in Hinv. rewrite Hph in Hinv.
  destruct Hinv as [(Hs & _ & Htrees) Hq].
  split; [exact Hs|]. split; [exact Hq|].
  intros v Hv Hne. destruct (Htrees v Hv Hne) as (path & m & Ht & Hall).
  destruct (labelTree_prev _ _ _ _ _ Ht) as (node & l & pre & Hn & Hl & -> & Hpre).
  destruct (labelTree_target _ _ _ _ _ Ht)
    as (_ & _ & Hhd & n2 & l2 & Hn2 & Hl2 & Hf2).
  assert (n2 = node) by congruence. subst n2.
  assert (l2 = l) by congruence. subst l2.
  exists node, l, pre, m. repeat split; auto.
  - eapply labelTree_NoDup. exact Ht.
  - eapply labelTree_pathValid. exact Ht.
Qed.

Lemma labels_describe_residual_paths_example :
  exists g' st',
    run 3 INITIAL_GRAPH initializeAlgorithm = Returns (g', st') /\
    "s" ∈ visited st'.
Proof.
  destruct (run 3 INITIAL_GRAPH initializeAlgorithm)
    as [[g' st']| |] eqn:Hrun; try (vm_compute in Hrun; discriminate Hrun).
  exists g', st'. split; [reflexivity|].
  apply (labels_describe_residual_paths 3 INITIAL_GRAPH g' st');
    [reflexivity | exact Hrun |].
  apply (f_equal phaseOf) in Hrun. vm_compute in Hrun.
  injection Hrun as Hrun. symmetry. exact Hrun.
Defined.
